(** * Football tracker: match acquisition, reconciliation, cache and scheduler

    A shallow embedding of the renderer process of the application
    (the third document of [src/main.js]: [mapFDStatusToShort],
    [loadTodaysMatches], [resetDailyState], [startAutoRefresh] and its
    inner functions [adjustInterval], [scheduleKickoffRefresh], [tick]).

    Module-level variables become fields of a record that is threaded
    through the functions; the transport, the clock and the date
    formatting of the host are inputs of each call; what the code shows
    on screen and requests from the network is collected in a trace.

    Property reads on object literals follow the prototype chain.  That is
    written out for [STATUS_MAP], which is read at a string the provider
    chooses.  The two last-known maps are read and written at match ids
    only, and a match id never is a name of [Object.prototype]
    ([matchId_not_inherited]), so they are finite maps of own properties.

    One call of an [async] function is one transition: what other handlers
    could do to the variables while the call awaits the network is not
    part of the model. *)

From Stdlib Require Import ZArith Bool List Lia.
From Stdlib Require Import Ascii String DecimalString DecimalPos.
From stdpp Require Import base option list strings gmap fin_maps.

Local Open Scope Z_scope.
Local Open Scope string_scope.

(** ** JavaScript values the code manipulates *)

(** A field of a parsed JSON object: absent ([undefined]), [null], or a
    value. *)
Inductive nullable (A : Type) : Type :=
| Undefined
| Null
| Val (a : A).
Arguments Undefined {A}.
Arguments Null {A}.
Arguments Val {A} a.

(** [x == null] *)
Definition is_nullish {A} (x : nullable A) : bool :=
  match x with
  | Val _ => false
  | _ => true
  end.

(** [x || d] on a string-valued field: the empty string is falsy. *)
Definition str_or (x : nullable string) (d : string) : string :=
  match x with
  | Val s => if String.eqb s "" then d else s
  | _ => d
  end.

(** Truthiness of a number-valued field: [0] is falsy. *)
Definition truthy_num (x : nullable Z) : option Z :=
  match x with
  | Val z => if Z.eqb z 0 then None else Some z
  | _ => None
  end.

(** [String(n)] for an integer [n], as in template literals and property
    keys: decimal digits with a leading minus sign for negatives (the
    integers the provider uses as ids are far below the size at which
    JavaScript switches to exponent notation). *)
Definition num_to_string (z : Z) : string :=
  NilZero.string_of_int (Z.to_int z).

(** [String(x)] of a string-valued field. *)
Definition field_to_string (x : nullable string) : string :=
  match x with
  | Undefined => "undefined"
  | Null => "null"
  | Val s => s
  end.

(** The names every object literal inherits from [Object.prototype].  A
    property read [o[k]] on a plain object finds them when [o] has no own
    property [k]; each of them is a function or an object, hence truthy. *)
Definition Object_prototype_names : list string :=
  [ "constructor"; "__defineGetter__"; "__defineSetter__"; "hasOwnProperty";
    "__lookupGetter__"; "__lookupSetter__"; "isPrototypeOf";
    "propertyIsEnumerable"; "toString"; "valueOf"; "__proto__";
    "toLocaleString" ].

Definition is_inherited (k : string) : bool :=
  existsb (String.eqb k) Object_prototype_names.

(** A value found where the code expects a status: a string, or the
    object inherited from [Object.prototype] under the given name. *)
Inductive StatusVal : Type :=
| SStr (s : string)
| SProto (name : string).

Global Instance StatusVal_eq_dec : EqDecision StatusVal.
Proof. solve_decision. Defined.

(** [!v] negated: truthiness of a status value. *)
Definition status_truthy (v : StatusVal) : bool :=
  match v with
  | SStr s => negb (String.eqb s "")
  | SProto _ => true
  end.

(** [v === 'NS'] *)
Definition is_NS (v : StatusVal) : bool :=
  match v with
  | SStr s => String.eqb s "NS"
  | SProto _ => false
  end.

(** ** Status normalizer *)

(** [const STATUS_MAP = { IN_PLAY: 'LIVE', ... }]: the own properties. *)
Definition STATUS_MAP : gmap string string :=
  list_to_map
    [ ("IN_PLAY", "LIVE"); ("PAUSED", "HT"); ("FINISHED", "FT");
      ("POSTPONED", "PST"); ("CANCELED", "CANC"); ("SUSPENDED", "SUSP") ].

(** [STATUS_MAP[status]]: own property first, then the prototype. *)
Definition STATUS_MAP_get (key : string) : option StatusVal :=
  match STATUS_MAP !! key with
  | Some s => Some (SStr s)
  | None => if is_inherited key then Some (SProto key) else None
  end.

(** [function mapFDStatusToShort(status) { return STATUS_MAP[status] || 'NS'; }] *)
Definition mapFDStatusToShort (status : nullable string) : StatusVal :=
  match STATUS_MAP_get (field_to_string status) with
  | Some v => if status_truthy v then v else SStr "NS"
  | None => SStr "NS"
  end.

(** The short codes the renderer knows (the keys of [STATUS_CLASS]). *)
Definition canonical_statuses : list string :=
  [ "LIVE"; "HT"; "FT"; "PST"; "CANC"; "SUSP"; "NS" ].

Definition is_canonical (v : StatusVal) : bool :=
  match v with
  | SStr s => existsb (String.eqb s) canonical_statuses
  | SProto _ => false
  end.

(** ** Raw provider matches and canonical matches *)

(** [m.homeTeam], [m.awayTeam] *)
Record Team : Type := {
  team_id : nullable Z;
  team_name : nullable string;
  team_crest : nullable string
}.

(** One element [m] of [data.matches], with the fields the code reads.
    Provider ids and scores are integers. *)
Record RawMatch : Type := {
  m_id : nullable Z;
  m_homeTeam : nullable Team;
  m_awayTeam : nullable Team;
  m_score_fullTime_home : nullable Z;   (* m.score?.fullTime?.home *)
  m_score_fullTime_away : nullable Z;   (* m.score?.fullTime?.away *)
  m_status : nullable string;
  m_utcDate : nullable string;
  m_competition_name : nullable string  (* m.competition?.name *)
}.

(** Optional chaining [x?.f]. *)
Definition chain {A B} (x : nullable A) (f : A -> nullable B) : nullable B :=
  match x with
  | Val a => f a
  | _ => Undefined
  end.

(** [`${t?.id || t?.name}`] *)
Definition team_key (t : nullable Team) : string :=
  match truthy_num (chain t team_id) with
  | Some z => num_to_string z
  | None => field_to_string (chain t team_name)
  end.

(** [m.id || `${...}-${...}`], as the property key it is used for. *)
Definition matchId (m : RawMatch) : string :=
  match truthy_num (m_id m) with
  | Some z => num_to_string z
  | None => team_key (m_homeTeam m) ++ "-" ++ team_key (m_awayTeam m)
  end.

(** A displayed score: a number, or the unknown marker ['-']. *)
Inductive Score : Type :=
| Goals (n : Z)
| Dash.

Global Instance Score_eq_dec : EqDecision Score.
Proof. solve_decision. Defined.

Record TeamView : Type := {
  name : string;
  logo : string
}.

(** The object built by the [map] callback of [loadTodaysMatches]. *)
Record Match : Type := {
  league_name : string;
  teams_home : TeamView;
  teams_away : TeamView;
  goals_home : Score;
  goals_away : Score;
  fixture_date : nullable string;
  fixture_status_short : StatusVal
}.

(** ** Module-level state of the renderer *)

Record State : Type := {
  isLoading : bool;
  activeLeagues : gset string;
  lastFetchTime : Z;
  cachedMatches : list Match;
  cachedDate : string;
  lastKnownScores : gmap string (Z * Z);
  lastKnownStatus : gmap string StatusVal
}.

(** [const leagues = { PL: 2021, BL1: 2002, CL: 2001, PD: 2014 }], as
    [Object.entries] enumerates it. *)
Definition leagues : list (string * Z) :=
  [ ("PL", 2021%Z); ("BL1", 2002%Z); ("CL", 2001%Z); ("PD", 2014%Z) ].

(** [new Set(Object.keys(leagues))] *)
Definition all_leagues : gset string := list_to_set (map fst leagues).

Definition CACHE_DURATION : Z := 120000.

Definition initial_state : State :=
  {| isLoading := false;
     activeLeagues := all_leagues;
     lastFetchTime := 0;
     cachedMatches := [];
     cachedDate := "";
     lastKnownScores := ∅;
     lastKnownStatus := ∅ |}.

(** [function resetDailyState()] *)
Definition resetDailyState (st : State) : State :=
  {| isLoading := isLoading st;
     activeLeagues := all_leagues;
     lastFetchTime := 0;
     cachedMatches := [];
     cachedDate := "";
     lastKnownScores := lastKnownScores st;
     lastKnownStatus := lastKnownStatus st |}.

(** [function hasLiveMatches(matches)] *)
Definition hasLiveMatches (matches : list Match) : bool :=
  existsb (fun m => let s := fixture_status_short m in
                    bool_decide (s = SStr "LIVE") || bool_decide (s = SStr "HT"))
          matches.

(** ** State reconciler: the [map] callback *)

(** The score part: lines [if (homeScore == null || awayScore == null)]
    to the recording of the pair.  A recorded pair is an object, hence
    truthy, and holds two numbers. *)
Definition reconcileScore (matchId : string) (homeScore awayScore : nullable Z)
    (st : State) : Score * Score * State :=
  match homeScore, awayScore with
  | Val h, Val a =>
      (* neither is nullish: lastKnownScores[matchId] = { homeScore, awayScore } *)
      (Goals h, Goals a,
       {| isLoading := isLoading st;
          activeLeagues := activeLeagues st;
          lastFetchTime := lastFetchTime st;
          cachedMatches := cachedMatches st;
          cachedDate := cachedDate st;
          lastKnownScores := <[matchId := (h, a)]> (lastKnownScores st);
          lastKnownStatus := lastKnownStatus st |})
  | _, _ =>
      match lastKnownScores st !! matchId with
      | Some (h, a) => (Goals h, Goals a, st)
      | None => (Dash, Dash, st)
      end
  end.

(** The status part: lines [if (!currentStatus || currentStatus === 'NS')]
    to the recording of the status. *)
Definition reconcileStatus (matchId : string) (currentStatus : StatusVal)
    (st : State) : StatusVal * State :=
  if negb (status_truthy currentStatus) || is_NS currentStatus then
    match lastKnownStatus st !! matchId with
    | Some prior => if status_truthy prior then (prior, st) else (currentStatus, st)
    | None => (currentStatus, st)
    end
  else
    (currentStatus,
     {| isLoading := isLoading st;
        activeLeagues := activeLeagues st;
        lastFetchTime := lastFetchTime st;
        cachedMatches := cachedMatches st;
        cachedDate := cachedDate st;
        lastKnownScores := lastKnownScores st;
        lastKnownStatus := <[matchId := currentStatus]> (lastKnownStatus st) |}).

Definition team_view (t : nullable Team) : TeamView :=
  {| name := str_or (chain t team_name) "Unknown";
     logo := str_or (chain t team_crest) "" |}.

(** [m => { ... return { league, teams, goals, fixture }; }] *)
Definition normalizeMatch (leagueName : string) (m : RawMatch) (st : State)
    : Match * State :=
  let matchId := matchId m in
  let homeScore := m_score_fullTime_home m in
  let awayScore := m_score_fullTime_away m in
  let currentStatus := mapFDStatusToShort (m_status m) in
  let '(homeScore, awayScore, st) := reconcileScore matchId homeScore awayScore st in
  let '(currentStatus, st) := reconcileStatus matchId currentStatus st in
  ({| league_name := str_or (m_competition_name m) leagueName;
      teams_home := team_view (m_homeTeam m);
      teams_away := team_view (m_awayTeam m);
      goals_home := homeScore;
      goals_away := awayScore;
      fixture_date := m_utcDate m;
      fixture_status_short := currentStatus |}, st).

(** [fdMatches.map(m => ...)]: the callback runs on the elements in order,
    each call seeing the maps as the previous calls left them. *)
Fixpoint normalized (leagueName : string) (fdMatches : list RawMatch) (st : State)
    : list Match * State :=
  match fdMatches with
  | [] => ([], st)
  | m :: rest =>
      let '(c, st) := normalizeMatch leagueName m st in
      let '(cs, st) := normalized leagueName rest st in
      (c :: cs, st)
  end.

(** ** Transport, clock and screen *)

(** What [await res.json()] and [data.matches] give on a successful
    response: an exception (unparsable body, [data] not an object), a
    [data.matches] that is not an array, or the array. *)
Inductive Body : Type :=
| BodyThrows
| BodyNoArray
| BodyMatches (raw : list RawMatch).

(** What [await fetch(url, ...)] gives: a rejected promise, or a response
    with its status code. *)
Inductive FetchOutcome : Type :=
| NetworkError
| Response (status : Z) (body : Body).

(** [res.ok] *)
Definition res_ok (status : Z) : bool := (200 <=? status)%Z && (status <=? 299)%Z.

(** What the code shows and requests, in order. *)
Inductive Event : Type :=
| EvFetch (leagueName : string) (leagueCode : Z) (dateFrom dateTo : string)
| EvHideNoMatches
| EvShowNoMatches
| EvDisplay (matches : list Match)
| EvLastUpdated
| EvDateTime.

Definition is_fetch (e : Event) : bool :=
  match e with
  | EvFetch _ _ _ _ => true
  | _ => false
  end.

(** The result of a block that may throw. *)
Inductive completion (A : Type) : Type :=
| Normal (a : A)
| Throw.
Arguments Normal {A} a.
Arguments Throw {A}.

(** The inputs of one call of [loadTodaysMatches]: the clock as read by
    [todayLondonISO()], by [tomorrowLondonISO()] and by [Date.now()], and
    the answer of the provider to the request for a competition code and a
    date window. *)
Record LoadInput : Type := {
  at_today : Z;
  at_tomorrow : Z;
  at_now : Z;
  respond : Z -> string -> string -> FetchOutcome
}.

(** The loop variables [allMatches], [totalMatches], [hasRateLimit]. *)
Record Batch : Type := {
  allMatches : list Match;
  totalMatches : nat;
  hasRateLimit : bool
}.

Definition empty_batch : Batch :=
  {| allMatches := []; totalMatches := 0; hasRateLimit := false |}.

Section Host.

(** [new Date(s).getTime()]: [None] stands for an invalid date. *)
Variable parseDate : nullable string -> option Z.

(** [londonYMD(d)] for a valid date [d], given by its time value. *)
Variable londonYMD : Z -> string.

(** [todayLondonISO()] with the clock reading [t]. *)
Definition todayLondonISO (t : Z) : string := londonYMD t.

(** [tomorrowLondonISO()] with the clock reading [t]. *)
Definition tomorrowLondonISO (t : Z) : string :=
  londonYMD (t + 36 * 60 * 60 * 1000)%Z.

(** [raw.filter(m => londonYMD(new Date(m.utcDate)) === today)]:
    formatting an invalid date throws a [RangeError]. *)
Fixpoint filter_today (today : string) (raw : list RawMatch)
    : completion (list RawMatch) :=
  match raw with
  | [] => Normal []
  | m :: rest =>
      match parseDate (m_utcDate m) with
      | None => Throw
      | Some t =>
          match filter_today today rest with
          | Throw => Throw
          | Normal kept =>
              Normal (if String.eqb (londonYMD t) today then m :: kept else kept)
          end
      end
  end.

(** The body of the [try] block of one loop iteration, after the request
    was sent.  [continue] completes the iteration normally; on a refused
    request the iteration ends without a contribution whether
    [res.text()] returns or throws. *)
Definition leagueBody (inp : LoadInput) (today tomorrow : string)
    (leagueName : string) (leagueCode : Z) (b : Batch) (st : State)
    : completion (Batch * State) :=
  match respond inp leagueCode today tomorrow with
  | NetworkError => Throw
  | Response status body =>
      if (status =? 429)%Z then
        Normal ({| allMatches := allMatches b;
                   totalMatches := totalMatches b;
                   hasRateLimit := true |}, st)
      else if negb (res_ok status) then
        Normal (b, st)
      else
        match body with
        | BodyThrows => Throw
        | _ =>
            let raw := match body with BodyMatches raw => raw | _ => [] end in
            match filter_today today raw with
            | Throw => Throw
            | Normal fdMatches =>
                let '(normalized, st) := normalized leagueName fdMatches st in
                if (0 <? length normalized)%nat then
                  Normal ({| allMatches := (allMatches b ++ normalized)%list;
                             totalMatches := totalMatches b + length normalized;
                             hasRateLimit := hasRateLimit b |}, st)
                else
                  Normal (b, st)
            end
        end
  end.

(** One iteration of [for (const [leagueName, leagueCode] of ...)]: the
    [catch] clause logs and goes on.  Nothing is assigned before a point
    that can throw, so the handler resumes from the state at entry. *)
Definition leagueIteration (inp : LoadInput) (today tomorrow : string)
    (league : string * Z) (acc : Batch * State * list Event)
    : Batch * State * list Event :=
  let '(b, st, tr) := acc in
  let '(leagueName, leagueCode) := league in
  let tr := (tr ++ [EvFetch leagueName leagueCode today tomorrow])%list in
  match leagueBody inp today tomorrow leagueName leagueCode b st with
  | Normal (b, st) => (b, st, tr)
  | Throw => (b, st, tr)
  end.

(** The whole [for] loop over the given leagues. *)
Definition fetchBatch (inp : LoadInput) (today tomorrow : string)
    (ls : list (string * Z)) (st : State) : Batch * State * list Event :=
  fold_left (fun acc league => leagueIteration inp today tomorrow league acc)
            ls (empty_batch, st, []).

(** ** Cache layer *)

(** [cachedMatches.length > 0 && cachedDate === today &&
     (now - lastFetchTime) < CACHE_DURATION] *)
Definition shouldUseCache (today : string) (now : Z) (st : State) : bool :=
  (0 <? length (cachedMatches st))%nat
  && String.eqb (cachedDate st) today
  && (now - lastFetchTime st <? CACHE_DURATION)%Z.

Definition with_isLoading (v : bool) (st : State) : State :=
  {| isLoading := v;
     activeLeagues := activeLeagues st;
     lastFetchTime := lastFetchTime st;
     cachedMatches := cachedMatches st;
     cachedDate := cachedDate st;
     lastKnownScores := lastKnownScores st;
     lastKnownStatus := lastKnownStatus st |}.

(** The [try] block of [loadTodaysMatches]. *)
Definition loadBody (inp : LoadInput) (st : State) : State * list Event :=
  let today := todayLondonISO (at_today inp) in
  let tomorrow := tomorrowLondonISO (at_tomorrow inp) in
  let now := at_now inp in
  if shouldUseCache today now st then
    (st, [EvHideNoMatches; EvDisplay (cachedMatches st); EvLastUpdated])
  else
    let '(b, st, tr) := fetchBatch inp today tomorrow leagues st in
    if (0 <? totalMatches b)%nat then
      ({| isLoading := isLoading st;
          activeLeagues := activeLeagues st;
          lastFetchTime := now;
          cachedMatches := allMatches b;
          cachedDate := today;
          lastKnownScores := lastKnownScores st;
          lastKnownStatus := lastKnownStatus st |},
       (tr ++ [EvHideNoMatches; EvDisplay (allMatches b); EvLastUpdated])%list)
    else if hasRateLimit b && (0 <? length (cachedMatches st))%nat
            && String.eqb (cachedDate st) today then
      (st, (tr ++ [EvHideNoMatches; EvDisplay (cachedMatches st); EvLastUpdated])%list)
    else if (0 <? length (cachedMatches st))%nat
            && String.eqb (cachedDate st) today then
      (st, (tr ++ [EvHideNoMatches; EvDisplay (cachedMatches st); EvLastUpdated])%list)
    else
      (st, (tr ++ [EvShowNoMatches; EvLastUpdated])%list).

(** [async function loadTodaysMatches()] *)
Definition loadTodaysMatches (inp : LoadInput) (st : State) : State * list Event :=
  if isLoading st then (st, [])
  else
    let '(st, tr) := loadBody inp (with_isLoading true st) in
    (* finally *)
    (with_isLoading false st, tr).

(** ** Adaptive scheduler *)

(** A live timer of the host: a recurring one calling [tick], or the
    one-shot calling the kickoff callback. *)
Inductive Timer : Type :=
| Recurring (ms : Z)
| OneShot (ms : Z).

(** The variables the scheduler works on: the module-level
    [autoRefreshInterval], the locals of [startAutoRefresh] that its inner
    functions close over, and the timer table of the host with the next
    handle it gives out.  Handles are positive numbers, hence truthy;
    clearing a timer removes it from the host and leaves the variable that
    holds its handle as it is. *)
Record Sched : Type := {
  autoRefreshInterval : option positive;
  lastLondonDate : string;
  kickoffTimeout : option positive;
  currentIntervalMs : Z;
  timers : gmap positive Timer;
  nextTimer : positive
}.

(** [if (h) clearInterval(h)] and [if (h) clearTimeout(h)] on the table. *)
Definition clear_timer (h : option positive) (t : gmap positive Timer)
    : gmap positive Timer :=
  match h with
  | Some i => delete i t
  | None => t
  end.

(** [function adjustInterval(ms)] *)
Definition adjustInterval (ms : Z) (sc : Sched) : Sched :=
  if (currentIntervalMs sc =? ms)%Z && bool_decide (is_Some (autoRefreshInterval sc))
  then sc
  else
    {| autoRefreshInterval := Some (nextTimer sc);
       lastLondonDate := lastLondonDate sc;
       kickoffTimeout := kickoffTimeout sc;
       currentIntervalMs := ms;
       timers := <[nextTimer sc := Recurring ms]>
                   (clear_timer (autoRefreshInterval sc) (timers sc));
       nextTimer := Pos.succ (nextTimer sc) |}.

(** [(m.fixture?.status?.short || 'NS') !== 'NS'] *)
Definition not_scheduled (m : Match) : bool :=
  let s := fixture_status_short m in
  negb (is_NS (if status_truthy s then s else SStr "NS")).

(** The [for] loop of [scheduleKickoffRefresh] computing [earliestKickoff].
    [diffMins > 0 && diffMins <= 3] is written on milliseconds; a kickoff
    with an invalid date compares false. *)
Fixpoint earliestKickoff (now : Z) (matches : list Match) (earliest : option Z)
    : option Z :=
  match matches with
  | [] => earliest
  | m :: rest =>
      if not_scheduled m then earliestKickoff now rest earliest
      else
        match parseDate (fixture_date m) with
        | Some kickoff =>
            if (0 <? kickoff - now)%Z && (kickoff - now <=? 3 * 60000)%Z then
              match earliest with
              | Some e =>
                  earliestKickoff now rest
                    (Some (if (kickoff <? e)%Z then kickoff else e))
              | None => earliestKickoff now rest (Some kickoff)
              end
            else earliestKickoff now rest earliest
        | None => earliestKickoff now rest earliest
        end
  end.

(** [function scheduleKickoffRefresh(matches)] with the clock reading [now]. *)
Definition scheduleKickoffRefresh (now : Z) (matches : list Match) (sc : Sched)
    : Sched :=
  let cleared := clear_timer (kickoffTimeout sc) (timers sc) in
  match earliestKickoff now matches None with
  | Some kickoff =>
      if (0 <? kickoff - now)%Z then
        {| autoRefreshInterval := autoRefreshInterval sc;
           lastLondonDate := lastLondonDate sc;
           kickoffTimeout := Some (nextTimer sc);
           currentIntervalMs := currentIntervalMs sc;
           timers := <[nextTimer sc := OneShot (kickoff - now)]> cleared;
           nextTimer := Pos.succ (nextTimer sc) |}
      else
        {| autoRefreshInterval := autoRefreshInterval sc;
           lastLondonDate := lastLondonDate sc;
           kickoffTimeout := kickoffTimeout sc;
           currentIntervalMs := currentIntervalMs sc;
           timers := cleared;
           nextTimer := nextTimer sc |}
  | None =>
      {| autoRefreshInterval := autoRefreshInterval sc;
         lastLondonDate := lastLondonDate sc;
         kickoffTimeout := kickoffTimeout sc;
         currentIntervalMs := currentIntervalMs sc;
         timers := cleared;
         nextTimer := nextTimer sc |}
  end.

(** The inputs of one call of [tick]: the clock as read at its start, the
    inputs of its call of [loadTodaysMatches], and the clock as read
    after it and inside [scheduleKickoffRefresh]. *)
Record TickInput : Type := {
  tick_at_today : Z;
  tick_load : LoadInput;
  tick_at_now : Z;
  tick_at_schedule : Z
}.

(** The first statement of [tick]: the day rollover.  [resetDailyState]
    is a function, so the first branch of the inner test is the one taken. *)
Definition tickRollover (inp : TickInput) (w : State * Sched) : State * Sched :=
  let '(st, sc) := w in
  let currentLondonDate := todayLondonISO (tick_at_today inp) in
  if negb (String.eqb currentLondonDate (lastLondonDate sc)) then
    (resetDailyState st,
     {| autoRefreshInterval := autoRefreshInterval sc;
        lastLondonDate := currentLondonDate;
        kickoffTimeout := kickoffTimeout sc;
        currentIntervalMs := currentIntervalMs sc;
        timers := clear_timer (kickoffTimeout sc) (timers sc);
        nextTimer := nextTimer sc |})
  else w.

(** [cachedMatches.some(m => ...)] computing [hasUpcomingSoon]. *)
Definition hasUpcomingSoon (now : Z) (matches : list Match) : bool :=
  existsb (fun m =>
             if not_scheduled m then false
             else match parseDate (fixture_date m) with
                  | Some kickoff =>
                      (0 <=? kickoff - now)%Z && (kickoff - now <=? 3 * 60000)%Z
                  | None => false
                  end)
          matches.

(** What [tick] does once [loadTodaysMatches] has returned. *)
Definition tickAfterLoad (inp : TickInput) (st : State) (sc : Sched)
    : Sched * list Event :=
  if (length (cachedMatches st) =? 0)%nat then
    ({| autoRefreshInterval := autoRefreshInterval sc;
        lastLondonDate := lastLondonDate sc;
        kickoffTimeout := kickoffTimeout sc;
        currentIntervalMs := currentIntervalMs sc;
        timers := clear_timer (kickoffTimeout sc)
                    (clear_timer (autoRefreshInterval sc) (timers sc));
        nextTimer := nextTimer sc |}, [])
  else
    let hasUpcomingSoon := hasUpcomingSoon (tick_at_now inp) (cachedMatches st) in
    let hasLive := hasLiveMatches (cachedMatches st) in
    let sc := adjustInterval (if hasLive || hasUpcomingSoon
                              then 60 * 1000 else 5 * 60 * 1000)%Z sc in
    let sc := scheduleKickoffRefresh (tick_at_schedule inp) (cachedMatches st) sc in
    (sc, [EvDateTime; EvLastUpdated]).

(** [async function tick()] *)
Definition tick (inp : TickInput) (w : State * Sched)
    : State * Sched * list Event :=
  let '(st, sc) := tickRollover inp w in
  let '(st, tr) := loadTodaysMatches (tick_load inp) st in
  let '(sc, tr') := tickAfterLoad inp st sc in
  (st, sc, (tr ++ tr')%list).

(** [startAutoRefresh()] up to its call of [tick]: the locals at entry. *)
Definition initial_sched (now : Z) : Sched :=
  {| autoRefreshInterval := None;
     lastLondonDate := todayLondonISO now;
     kickoffTimeout := None;
     currentIntervalMs := 0;
     timers := ∅;
     nextTimer := 1%positive |}.

(** The automatic refreshes: a live recurring timer fires and runs [tick];
    the live one-shot fires, leaves the table, and runs [tick] when the
    last fetch is more than 30 seconds old. *)
Inductive auto_refresh : State * Sched -> State * Sched -> Prop :=
| fire_interval st sc h ms inp :
    timers sc !! h = Some (Recurring ms) ->
    auto_refresh (st, sc) (fst (tick inp (st, sc)))
| fire_kickoff st sc h ms now inp :
    timers sc !! h = Some (OneShot ms) ->
    let sc' :=
      {| autoRefreshInterval := autoRefreshInterval sc;
         lastLondonDate := lastLondonDate sc;
         kickoffTimeout := kickoffTimeout sc;
         currentIntervalMs := currentIntervalMs sc;
         timers := delete h (timers sc);
         nextTimer := nextTimer sc |} in
    auto_refresh (st, sc)
      (if (30 * 1000 <? now - lastFetchTime st)%Z
       then fst (tick inp (st, sc')) else (st, sc')).

(** Every live timer is one whose handle the scheduler still holds. *)
Definition timers_tracked (sc : Sched) : Prop :=
  forall h, is_Some (timers sc !! h) ->
            autoRefreshInterval sc = Some h \/ kickoffTimeout sc = Some h.

(** A league whose iteration adds no match to the batch: its request
    fails, is rate-limited or refused, or yields no match of today. *)
Definition no_contribution (inp : LoadInput) (today tomorrow : string)
    (league : string * Z) : bool :=
  match respond inp (snd league) today tomorrow with
  | Response status (BodyMatches raw) =>
      if (status =? 429)%Z then true
      else if negb (res_ok status) then true
      else match filter_today today raw with
           | Normal (_ :: _) => false
           | _ => true
           end
  | _ => true
  end.

End Host.

(** ** Shape of the property keys built by [matchId] *)

Fixpoint has_dash (s : string) : bool :=
  match s with
  | EmptyString => false
  | String c rest => Ascii.eqb c "-"%char || has_dash rest
  end.

Definition starts_with_digit (s : string) : bool :=
  match s with
  | EmptyString => false
  | String c _ => existsb (Ascii.eqb c) (list_ascii_of_string "0123456789")
  end.

(** ** Invariant of the last-known status map *)

(** Every recorded status is truthy and is not ['NS']: the only
    assignment to [lastKnownStatus[matchId]] sits in the [else] branch of
    [if (!currentStatus || currentStatus === 'NS')]. *)
Definition status_map_wf (st : State) : Prop :=
  forall k v, lastKnownStatus st !! k = Some v ->
              status_truthy v = true /\ is_NS v = false.

(** The answer to the request of a league is a [429]. *)
Definition is_rate_limited (inp : LoadInput) (today tomorrow : string)
    (league : string * Z) : bool :=
  match respond inp (snd league) today tomorrow with
  | Response status _ => (status =? 429)%Z
  | NetworkError => false
  end.

(** The request the loop sends for a league. *)
Definition request_of (today tomorrow : string) (league : string * Z) : Event :=
  EvFetch (fst league) (snd league) today tomorrow.

(** ** Sample inputs *)

(** A host whose dates are millisecond counts written in decimal and
    whose London calendar day is the number of whole days since time 0. *)
Definition sample_parseDate (s : nullable string) : option Z :=
  match s with
  | Undefined => None
  | Null => Some 0%Z
  | Val x =>
      match NilZero.int_of_string x with
      | Some d => Some (Z.of_int d)
      | None => None
      end
  end.

Definition sample_londonYMD (t : Z) : string :=
  "day " ++ num_to_string (t / 86400000).

Definition sample_team (id : Z) (name : string) : nullable Team :=
  Val {| team_id := Val id; team_name := Val name; team_crest := Undefined |}.

Definition sample_match (id : Z) (home away : nullable Z) (status : nullable string)
    : RawMatch :=
  {| m_id := Val id;
     m_homeTeam := sample_team 57 "Arsenal FC";
     m_awayTeam := sample_team 61 "Chelsea FC";
     m_score_fullTime_home := home;
     m_score_fullTime_away := away;
     m_status := status;
     m_utcDate := Val "5000";
     m_competition_name := Undefined |}.

(** Match 101 in play at 2-1, and the same match as a response without
    scores and without status gives it. *)
Definition sample_live : RawMatch := sample_match 101 (Val 2%Z) (Val 1%Z) (Val "IN_PLAY").
Definition sample_blank : RawMatch := sample_match 101 Null Null Undefined.

(** Three matches of the same day with distinct ids. *)
Definition sample_three : list RawMatch :=
  [ sample_match 201 (Val 0%Z) (Val 0%Z) (Val "IN_PLAY");
    sample_match 202 Null Null (Val "TIMED");
    sample_match 203 (Val 3%Z) (Val 2%Z) (Val "FINISHED") ].

(** The state after match 101 was seen in play at 2-1. *)
Definition sample_known : State :=
  {| isLoading := false;
     activeLeagues := all_leagues;
     lastFetchTime := 0;
     cachedMatches := [];
     cachedDate := "";
     lastKnownScores := {[ "101" := (2%Z, 1%Z) ]};
     lastKnownStatus := {[ "101" := SStr "LIVE" ]} |}.

(** The same with a cache of day 0 fetched at time 1000. *)
Definition sample_cached : State :=
  {| isLoading := false;
     activeLeagues := all_leagues;
     lastFetchTime := 1000;
     cachedMatches := [fst (normalizeMatch "PL" sample_live initial_state)];
     cachedDate := "day 0";
     lastKnownScores := {[ "101" := (2%Z, 1%Z) ]};
     lastKnownStatus := {[ "101" := SStr "LIVE" ]} |}.

(** A provider that rate-limits the Premier League (2021), answers the
    Bundesliga (2002) with the three sample matches, and has no match for
    the other competitions. *)
Definition sample_respond (leagueCode : Z) (dateFrom dateTo : string) : FetchOutcome :=
  if (leagueCode =? 2021)%Z then Response 429 BodyThrows
  else if (leagueCode =? 2002)%Z then Response 200 (BodyMatches sample_three)
  else Response 200 (BodyMatches []).

(** A provider that has no match at all. *)
Definition sample_respond_nothing (leagueCode : Z) (dateFrom dateTo : string)
    : FetchOutcome :=
  Response 200 (BodyMatches []).

(** A call at time [t] of day 0. *)
Definition sample_load (t : Z) (respond : Z -> string -> string -> FetchOutcome)
    : LoadInput :=
  {| at_today := t; at_tomorrow := t; at_now := t; respond := respond |}.

Definition sample_tick (t : Z) (respond : Z -> string -> string -> FetchOutcome)
    : TickInput :=
  {| tick_at_today := t;
     tick_load := sample_load t respond;
     tick_at_now := t;
     tick_at_schedule := t |}.

(** A scheduler of day 0 with a live recurring timer and a live one-shot. *)
Definition sample_sched : Sched :=
  {| autoRefreshInterval := Some 1%positive;
     lastLondonDate := "day 0";
     kickoffTimeout := Some 2%positive;
     currentIntervalMs := 60000;
     timers := {[ 1%positive := Recurring 60000; 2%positive := OneShot 90000 ]};
     nextTimer := 3%positive |}.

(** ** Well-formed matches and status maps *)

(** A provider status that is not a name of [Object.prototype]. *)
Definition plain_status (m : RawMatch) : bool :=
  negb (is_inherited (field_to_string (m_status m))).

(** Every recorded status is one of the seven short codes. *)
Definition status_map_canonical (st : State) : Prop :=
  forall k v, lastKnownStatus st !! k = Some v -> is_canonical v = true.

(** What every match built by the callback satisfies: the two scores are
    both numbers or both dashes, the team names are not empty, and the
    status is truthy. *)
Definition match_wf (c : Match) : Prop :=
  (goals_home c = Dash <-> goals_away c = Dash)
  /\ name (teams_home c) <> ""
  /\ name (teams_away c) <> ""
  /\ status_truthy (fixture_status_short c) = true.

(** The London day of a date string is [today]. *)
Definition dated (parseDate : nullable string -> option Z) (londonYMD : Z -> string)
    (today : string) (date : nullable string) : Prop :=
  exists t, parseDate date = Some t /\ londonYMD t = today.

(** ** Invariants of the scheduler *)

(** Handles are given out in increasing order and the two variables never
    hold the same one; a live recurring timer is the one held in
    [autoRefreshInterval], runs at [currentIntervalMs], and that is one or
    five minutes; a live one-shot is the one held in [kickoffTimeout] and
    is due within three minutes. *)
Definition sched_wf (sc : Sched) : Prop :=
  (forall h t, timers sc !! h = Some t -> (h < nextTimer sc)%positive)
  /\ (forall h, autoRefreshInterval sc = Some h -> (h < nextTimer sc)%positive)
  /\ (forall h, kickoffTimeout sc = Some h -> (h < nextTimer sc)%positive)
  /\ (forall h, autoRefreshInterval sc = Some h -> kickoffTimeout sc <> Some h)
  /\ (forall h ms, timers sc !! h = Some (Recurring ms) ->
                   autoRefreshInterval sc = Some h /\ currentIntervalMs sc = ms
                   /\ (ms = 60000 \/ ms = 300000)%Z)
  /\ (forall h ms, timers sc !! h = Some (OneShot ms) ->
                   kickoffTimeout sc = Some h /\ (0 < ms <= 180000)%Z).

(** The handle in [autoRefreshInterval], if any, is that of a live
    recurring timer running at [currentIntervalMs]. *)
Definition interval_live (sc : Sched) : Prop :=
  forall h, autoRefreshInterval sc = Some h ->
            timers sc !! h = Some (Recurring (currentIntervalMs sc)).

(** A cached match that counts for the kickoff one-shot at clock reading
    [now]: shown as not started, with a valid kickoff date [kickoff] that
    lies in the next three minutes. *)
Definition kickoff_soon (parseDate : nullable string -> option Z) (now : Z)
    (m : Match) (kickoff : Z) : Prop :=
  not_scheduled m = false
  /\ parseDate (fixture_date m) = Some kickoff
  /\ (0 < kickoff - now <= 180000)%Z.

(** ** Startup *)

(** The inputs of [initializeApp]: what the IPC call for the key gives
    (a rejection, or the value), the inputs of its call of
    [loadTodaysMatches], the clock as read at the entry of
    [startAutoRefresh], and the inputs of the first [tick]. *)
Record StartInput : Type := {
  start_key : completion (nullable string);
  start_load : LoadInput;
  start_clock : Z;
  start_tick : TickInput
}.

(** What [initializeApp] leaves: the module-level [API_KEY], the state,
    the scheduler if [startAutoRefresh] was reached, and the trace. *)
Record Started : Type := {
  API_KEY : nullable string;
  started_state : State;
  started_sched : option Sched;
  started_trace : list Event
}.

(** [setupUI()]: the date and the "last updated" line are painted.  The
    click handler it registers and its 30-second interval, which only
    repaints the clock, start no refresh by themselves. *)
Definition setupUI : list Event := [EvDateTime; EvLastUpdated].

Section Startup.

Variable parseDate : nullable string -> option Z.
Variable londonYMD : Z -> string.

(** [String.prototype.trim] of the host. *)
Variable trim : string -> string.

(** [function startAutoRefresh()]: its locals at entry, then [tick()],
    which is started without [await] and is followed here to its end. *)
Definition startAutoRefresh (clock : Z) (inp : TickInput) (st : State)
    : State * Sched * list Event :=
  tick parseDate londonYMD inp (st, initial_sched londonYMD clock).

(** [async function initializeApp()] *)
Definition initializeApp (inp : StartInput) (st : State) : Started :=
  match start_key inp with
  | Throw =>
      (* catch *)
      {| API_KEY := Undefined;
         started_state := st;
         started_sched := None;
         started_trace := [EvShowNoMatches] |}
  | Normal v =>
      (* String(v ?? '').trim() *)
      let key := trim (match v with Val s => s | _ => "" end) in
      if String.eqb key "" then
        {| API_KEY := Val key;
           started_state := st;
           started_sched := None;
           started_trace := [EvShowNoMatches] |}
      else
        let '(st, tr1) := loadTodaysMatches parseDate londonYMD (start_load inp) st in
        let '(st, sc, tr2) := startAutoRefresh (start_clock inp) (start_tick inp) st in
        {| API_KEY := Val key;
           started_state := st;
           started_sched := Some sc;
           started_trace := (tr1 ++ setupUI ++ tr2)%list |}
  end.

End Startup.

(** ** Further sample inputs *)

(** Match 102 as a response without a date gives it. *)
Definition sample_undated : RawMatch :=
  {| m_id := Val 102%Z;
     m_homeTeam := sample_team 57 "Arsenal FC";
     m_awayTeam := sample_team 61 "Chelsea FC";
     m_score_fullTime_home := Val 1%Z;
     m_score_fullTime_away := Val 0%Z;
     m_status := Val "IN_PLAY";
     m_utcDate := Undefined;
     m_competition_name := Undefined |}.

(** A provider that answers every competition with match 101 and the
    match without a date. *)
Definition sample_respond_undated (leagueCode : Z) (dateFrom dateTo : string)
    : FetchOutcome :=
  Response 200 (BodyMatches [sample_live; sample_undated]).

(** [sample_respond] with status 503 in the place of 429. *)
Definition sample_respond_503 (leagueCode : Z) (dateFrom dateTo : string)
    : FetchOutcome :=
  if (leagueCode =? 2021)%Z then Response 503 BodyThrows
  else if (leagueCode =? 2002)%Z then Response 200 (BodyMatches sample_three)
  else Response 200 (BodyMatches []).

(** [sample_cached] with a cache of day 9. *)
Definition sample_stale : State :=
  {| isLoading := false;
     activeLeagues := all_leagues;
     lastFetchTime := 1000;
     cachedMatches := [fst (normalizeMatch "PL" sample_live initial_state)];
     cachedDate := "day 9";
     lastKnownScores := {[ "101" := (2%Z, 1%Z) ]};
     lastKnownStatus := {[ "101" := SStr "LIVE" ]} |}.

(** Match 202 of [sample_three] as shown: not started, kickoff at 5000. *)
Definition sample_upcoming : Match :=
  fst (normalizeMatch "BL1" (sample_match 202 Null Null (Val "TIMED")) initial_state).

(** A host [trim] that removes spaces. *)
Fixpoint sample_trim_left (s : string) : string :=
  match s with
  | String c r => if Ascii.eqb c " " then sample_trim_left r else s
  | EmptyString => s
  end.

Definition sample_trim (s : string) : string :=
  String.rev (sample_trim_left (String.rev (sample_trim_left s))).

(** A startup with a key: the call of [loadTodaysMatches] at time 1000,
    [startAutoRefresh] at 1500, the first tick at 2000. *)
Definition sample_start (respond : Z -> string -> string -> FetchOutcome)
    : StartInput :=
  {| start_key := Normal (Val " key ");
     start_load := sample_load 1000 respond;
     start_clock := 1500;
     start_tick := sample_tick 2000 respond |}.

(** * Properties *)

(** ** Keys of the last-known maps never meet [Object.prototype] *)

Lemma has_dash_app (a b : string) : has_dash (a ++ "-" ++ b) = true.
Proof.
  induction a as [|c a IH]; simpl.
  - reflexivity.
  - rewrite IH. apply orb_true_r.
Qed.

Lemma num_to_string_shape (z : Z) :
  z <> 0%Z ->
  has_dash (num_to_string z) || starts_with_digit (num_to_string z) = true.
Proof.
  intros Hz. unfold num_to_string.
  destruct z as [|p|p]; [congruence| |]; simpl.
  - pose proof (DecimalPos.Unsigned.to_uint_nonnil p) as Hn.
    destruct (Pos.to_uint p); try congruence; simpl; apply orb_true_r.
  - reflexivity.
Qed.

Lemma inherited_shape (k : string) :
  is_inherited k = true -> has_dash k || starts_with_digit k = false.
Proof.
  unfold is_inherited. intros H.
  apply existsb_exists in H as (x & Hin & Heq).
  apply String.eqb_eq in Heq. subst x. simpl in Hin.
  repeat (destruct Hin as [<-|Hin]; [reflexivity|]).
  destruct Hin.
Qed.

Lemma truthy_num_nonzero (x : nullable Z) (z : Z) :
  truthy_num x = Some z -> z <> 0%Z.
Proof.
  destruct x as [| |y]; simpl; try discriminate.
  destruct (Z.eqb_spec y 0); [discriminate|]. congruence.
Qed.

(** A property read at a match id finds an own property or nothing:
    the id is a nonzero integer in decimal or contains a dash, and no
    name of [Object.prototype] looks like that. *)
Lemma matchId_not_inherited (m : RawMatch) : is_inherited (matchId m) = false.
Proof.
  destruct (is_inherited (matchId m)) eqn:E; [|reflexivity].
  apply inherited_shape in E. unfold matchId in E.
  destruct (truthy_num (m_id m)) as [z|] eqn:Hid.
  - apply truthy_num_nonzero in Hid.
    rewrite (num_to_string_shape z Hid) in E. discriminate.
  - rewrite has_dash_app in E. discriminate.
Qed.

(** ** Status normalizer *)

Lemma STATUS_MAP_own (key s : string) :
  STATUS_MAP !! key = Some s ->
  In s ["LIVE"; "HT"; "FT"; "PST"; "CANC"; "SUSP"] /\ is_inherited key = false.
Proof.
  unfold STATUS_MAP. intros H.
  apply elem_of_list_to_map_2 in H.
  repeat (apply elem_of_cons in H as [H|H];
          [injection H as -> ->; split; [simpl; tauto | reflexivity]|]).
  apply elem_of_nil in H. destruct H.
Qed.

(** Away from the names of [Object.prototype] the normalizer is what the
    table says: a mapped code gives its short code, any other one ['NS'],
    and the result is one of the seven short codes. *)
Lemma mapFDStatusToShort_canonical (status : nullable string) :
  is_inherited (field_to_string status) = false ->
  is_canonical (mapFDStatusToShort status) = true
  /\ (STATUS_MAP !! field_to_string status = None ->
      mapFDStatusToShort status = SStr "NS").
Proof.
  intros Hk. unfold mapFDStatusToShort, STATUS_MAP_get. rewrite Hk.
  destruct (STATUS_MAP !! field_to_string status) as [s|] eqn:E.
  - apply STATUS_MAP_own in E as [Hin _]. split; [|discriminate].
    simpl in Hin.
    repeat (destruct Hin as [<-|Hin]; [reflexivity|]). destruct Hin.
  - split; reflexivity.
Qed.

Lemma mapFDStatusToShort_truthy (status : nullable string) :
  status_truthy (mapFDStatusToShort status) = true.
Proof.
  unfold mapFDStatusToShort.
  destruct (STATUS_MAP_get (field_to_string status)) as [v|]; [|reflexivity].
  destruct (status_truthy v) eqn:E; [exact E | reflexivity].
Qed.

(** C2, at the input where the code leaves the vocabulary: the status
    ["constructor"] is not a key of the table, yet the property read finds
    [Object.prototype.constructor], a truthy function, and the normalizer
    returns it instead of the default ['NS']. *)
Theorem status_normalizer_leaves_vocabulary :
  STATUS_MAP !! "constructor" = None
  /\ mapFDStatusToShort (Val "constructor") = SProto "constructor"
  /\ mapFDStatusToShort (Val "constructor") <> SStr "NS"
  /\ is_canonical (mapFDStatusToShort (Val "constructor")) = false.
Proof.
  assert (E : mapFDStatusToShort (Val "constructor") = SProto "constructor")
    by (vm_compute; reflexivity).
  rewrite E. repeat split; try (vm_compute; reflexivity). discriminate.
Qed.

(** ** State reconciler *)

Lemma reconcileScore_frame (k : string) (h a : nullable Z) (st : State) :
  let st' := snd (reconcileScore k h a st) in
  isLoading st' = isLoading st /\ activeLeagues st' = activeLeagues st
  /\ lastFetchTime st' = lastFetchTime st /\ cachedMatches st' = cachedMatches st
  /\ cachedDate st' = cachedDate st /\ lastKnownStatus st' = lastKnownStatus st.
Proof.
  unfold reconcileScore.
  destruct h, a; try destruct (lastKnownScores st !! k) as [[? ?]|];
    simpl; repeat split; reflexivity.
Qed.

Lemma reconcileStatus_frame (k : string) (cur : StatusVal) (st : State) :
  let st' := snd (reconcileStatus k cur st) in
  isLoading st' = isLoading st /\ activeLeagues st' = activeLeagues st
  /\ lastFetchTime st' = lastFetchTime st /\ cachedMatches st' = cachedMatches st
  /\ cachedDate st' = cachedDate st /\ lastKnownScores st' = lastKnownScores st.
Proof.
  unfold reconcileStatus.
  destruct (negb (status_truthy cur) || is_NS cur);
    [destruct (lastKnownStatus st !! k) as [p|]; [destruct (status_truthy p)|]|];
    simpl; repeat split; reflexivity.
Qed.


Lemma is_NS_eq (v : StatusVal) : is_NS v = true -> v = SStr "NS".
Proof.
  destruct v as [s|n]; simpl; [|discriminate].
  intros H. apply String.eqb_eq in H. congruence.
Qed.

Lemma status_map_wf_initial : status_map_wf initial_state.
Proof. intros k v H. simpl in H. rewrite lookup_empty in H. discriminate. Qed.

Lemma reconcileStatus_wf (k : string) (cur : StatusVal) (st : State) :
  status_map_wf st -> status_map_wf (snd (reconcileStatus k cur st)).
Proof.
  intros Hwf. unfold reconcileStatus.
  destruct (status_truthy cur) eqn:Ht, (is_NS cur) eqn:Hn; simpl;
    try (destruct (lastKnownStatus st !! k) as [p|];
         [destruct (status_truthy p)|]; exact Hwf).
  intros k' v. simpl. rewrite lookup_insert.
  destruct (decide (k = k')) as [->|Hne]; simpl.
  - intros [= <-]. split; assumption.
  - apply Hwf.
Qed.

Lemma normalizeMatch_wf (leagueName : string) (m : RawMatch) (st : State) :
  status_map_wf st -> status_map_wf (snd (normalizeMatch leagueName m st)).
Proof.
  intros Hwf. unfold normalizeMatch.
  pose proof (reconcileScore_frame (matchId m) (m_score_fullTime_home m)
                (m_score_fullTime_away m) st) as Hf.
  destruct (reconcileScore (matchId m) (m_score_fullTime_home m)
              (m_score_fullTime_away m) st) as [[gh ga] st1].
  simpl in Hf. destruct Hf as (_ & _ & _ & _ & _ & Hs).
  assert (Hwf1 : status_map_wf st1) by (unfold status_map_wf; rewrite Hs; exact Hwf).
  pose proof (reconcileStatus_wf (matchId m) (mapFDStatusToShort (m_status m)) st1 Hwf1) as H.
  destruct (reconcileStatus (matchId m) (mapFDStatusToShort (m_status m)) st1).
  exact H.
Qed.

Lemma normalized_wf (leagueName : string) (ms : list RawMatch) (st : State) :
  status_map_wf st -> status_map_wf (snd (normalized leagueName ms st)).
Proof.
  revert st. induction ms as [|m rest IH]; intros st Hwf; simpl; [exact Hwf|].
  pose proof (normalizeMatch_wf leagueName m st Hwf) as H1.
  destruct (normalizeMatch leagueName m st) as [c st1].
  specialize (IH st1 H1).
  destruct (normalized leagueName rest st1) as [cs st2]. exact IH.
Qed.

(** The status shown and the status map after one call of the callback,
    read off the status map before it. *)
Lemma normalizeMatch_status_spec (leagueName : string) (m : RawMatch) (st : State) :
  let cur := mapFDStatusToShort (m_status m) in
  let c := fst (normalizeMatch leagueName m st) in
  let st' := snd (normalizeMatch leagueName m st) in
  if is_NS cur then
    lastKnownStatus st' = lastKnownStatus st
    /\ fixture_status_short c =
       match lastKnownStatus st !! matchId m with
       | Some prior => if status_truthy prior then prior else cur
       | None => cur
       end
  else
    lastKnownStatus st' = <[matchId m := cur]> (lastKnownStatus st)
    /\ fixture_status_short c = cur.
Proof.
  cbv zeta. unfold normalizeMatch.
  pose proof (reconcileScore_frame (matchId m) (m_score_fullTime_home m)
                (m_score_fullTime_away m) st) as Hf.
  destruct (reconcileScore (matchId m) (m_score_fullTime_home m)
              (m_score_fullTime_away m) st) as [[gh ga] st1].
  simpl in Hf. destruct Hf as (_ & _ & _ & _ & _ & Hs).
  unfold reconcileStatus.
  rewrite (mapFDStatusToShort_truthy (m_status m)). simpl negb. simpl orb.
  rewrite Hs.
  destruct (is_NS (mapFDStatusToShort (m_status m))).
  - destruct (lastKnownStatus st !! matchId m) as [p|];
      [destruct (status_truthy p)|]; simpl; split; auto.
  - simpl. split; reflexivity.
Qed.

(** C3, as the code has it.  When the normalized status is ['NS'] and a
    status is recorded for the id, the recorded one is shown; when none is
    recorded, ['NS'] is shown; in both cases the map is left alone.  When
    the normalized status is not ['NS'], it is shown and recorded.  A match
    recorded as ['LIVE'] and fetched again with a blank or unmapped status
    stays ['LIVE']. *)
Theorem status_regression_guard (leagueName : string) (m : RawMatch) (st : State) :
  status_map_wf st ->
  let cur := mapFDStatusToShort (m_status m) in
  let c := fst (normalizeMatch leagueName m st) in
  let st' := snd (normalizeMatch leagueName m st) in
  (is_NS cur = true ->
   forall prior, lastKnownStatus st !! matchId m = Some prior ->
                 fixture_status_short c = prior
                 /\ lastKnownStatus st' = lastKnownStatus st)
  /\ (is_NS cur = true ->
      lastKnownStatus st !! matchId m = None ->
      fixture_status_short c = SStr "NS"
      /\ lastKnownStatus st' = lastKnownStatus st)
  /\ (is_NS cur = false ->
      fixture_status_short c = cur
      /\ lastKnownStatus st' = <[matchId m := cur]> (lastKnownStatus st))
  /\ (STATUS_MAP_get (field_to_string (m_status m)) = None ->
      lastKnownStatus st !! matchId m = Some (SStr "LIVE") ->
      fixture_status_short c = SStr "LIVE")
  /\ status_map_wf st'.
Proof.
  intros Hwf. cbv zeta.
  pose proof (normalizeMatch_wf leagueName m st Hwf) as Hwf'.
  pose proof (normalizeMatch_status_spec leagueName m st) as H. cbv zeta in H.
  assert (Hblank : STATUS_MAP_get (field_to_string (m_status m)) = None ->
                   mapFDStatusToShort (m_status m) = SStr "NS").
  { unfold mapFDStatusToShort. intros ->. reflexivity. }
  destruct (is_NS (mapFDStatusToShort (m_status m))) eqn:Hn.
  - destruct H as [Hmap Hc]. apply is_NS_eq in Hn.
    split_and!; try discriminate; try assumption.
    + intros _ prior Hp. rewrite Hp in Hc.
      destruct (Hwf _ _ Hp) as [Hpt _]. rewrite Hpt in Hc. auto.
    + intros _ Hp. rewrite Hp in Hc. split; congruence.
    + intros _ Hp. rewrite Hp in Hc. exact Hc.
  - destruct H as [Hmap Hc].
    split_and!; try discriminate; try assumption.
    + auto.
    + intros Hb. apply Hblank in Hb. rewrite Hb in Hn. discriminate.
Qed.

(** The scores shown and the score map after one call of the callback,
    read off the score map before it. *)
Lemma normalizeMatch_score_spec (leagueName : string) (m : RawMatch) (st : State) :
  let c := fst (normalizeMatch leagueName m st) in
  let st' := snd (normalizeMatch leagueName m st) in
  match m_score_fullTime_home m, m_score_fullTime_away m with
  | Val h, Val a =>
      lastKnownScores st' = <[matchId m := (h, a)]> (lastKnownScores st)
      /\ goals_home c = Goals h /\ goals_away c = Goals a
  | _, _ =>
      lastKnownScores st' = lastKnownScores st
      /\ match lastKnownScores st !! matchId m with
         | Some (h, a) => goals_home c = Goals h /\ goals_away c = Goals a
         | None => goals_home c = Dash /\ goals_away c = Dash
         end
  end.
Proof.
  cbv zeta. unfold normalizeMatch.
  pose proof (reconcileStatus_frame (matchId m) (mapFDStatusToShort (m_status m))) as Hst.
  destruct (reconcileScore (matchId m) (m_score_fullTime_home m)
              (m_score_fullTime_away m) st) as [[gh ga] st1] eqn:Es.
  specialize (Hst st1).
  destruct (reconcileStatus (matchId m) (mapFDStatusToShort (m_status m)) st1)
    as [cur st2].
  simpl in Hst. destruct Hst as (_ & _ & _ & _ & _ & Hsc). simpl.
  rewrite Hsc. unfold reconcileScore in Es.
  destruct (m_score_fullTime_home m), (m_score_fullTime_away m);
    try destruct (lastKnownScores st !! matchId m) as [[x y]|];
    injection Es as <- <- <-; simpl; auto.
Qed.

(** C1: the score pair of a reconciled match.  Both scores present: they
    are shown as they are and recorded under the match id.  One missing:
    the pair recorded for the id is shown if there is one, two dashes
    otherwise, and the map is left alone.  A dash never stands next to a
    number. *)
Theorem score_pair_reconciled (leagueName : string) (m : RawMatch) (st : State) :
  let c := fst (normalizeMatch leagueName m st) in
  let st' := snd (normalizeMatch leagueName m st) in
  (forall h a,
      m_score_fullTime_home m = Val h -> m_score_fullTime_away m = Val a ->
      goals_home c = Goals h /\ goals_away c = Goals a
      /\ lastKnownScores st' = <[matchId m := (h, a)]> (lastKnownScores st)
      /\ lastKnownScores st' !! matchId m = Some (h, a))
  /\ (is_nullish (m_score_fullTime_home m) || is_nullish (m_score_fullTime_away m)
      = true ->
      lastKnownScores st' = lastKnownScores st
      /\ (forall h a, lastKnownScores st !! matchId m = Some (h, a) ->
                      goals_home c = Goals h /\ goals_away c = Goals a)
      /\ (lastKnownScores st !! matchId m = None ->
          goals_home c = Dash /\ goals_away c = Dash))
  /\ (goals_home c = Dash <-> goals_away c = Dash)
  /\ is_inherited (matchId m) = false.
Proof.
  cbv zeta.
  pose proof (normalizeMatch_score_spec leagueName m st) as H. cbv zeta in H.
  split_and!.
  - intros h a Hh Ha. rewrite Hh, Ha in H. destruct H as (E & ? & ?).
    split_and!; try assumption. rewrite E. apply lookup_insert_eq.
  - intros Hn.
    assert (H' : lastKnownScores (snd (normalizeMatch leagueName m st))
                 = lastKnownScores st
                 /\ match lastKnownScores st !! matchId m with
                    | Some (h, a) =>
                        goals_home (fst (normalizeMatch leagueName m st)) = Goals h
                        /\ goals_away (fst (normalizeMatch leagueName m st)) = Goals a
                    | None =>
                        goals_home (fst (normalizeMatch leagueName m st)) = Dash
                        /\ goals_away (fst (normalizeMatch leagueName m st)) = Dash
                    end).
    { destruct (m_score_fullTime_home m), (m_score_fullTime_away m);
        try discriminate Hn; exact H. }
    destruct H' as [E Hg]. split; [exact E|]. split.
    + intros h a Hl. rewrite Hl in Hg. exact Hg.
    + intros Hl. rewrite Hl in Hg. exact Hg.
  - assert (H' : (exists h a,
                     goals_home (fst (normalizeMatch leagueName m st)) = Goals h
                     /\ goals_away (fst (normalizeMatch leagueName m st)) = Goals a)
                 \/ (goals_home (fst (normalizeMatch leagueName m st)) = Dash
                     /\ goals_away (fst (normalizeMatch leagueName m st)) = Dash)).
    { destruct (m_score_fullTime_home m), (m_score_fullTime_away m);
        destruct H as [_ Hg];
        try (destruct (lastKnownScores st !! matchId m) as [[x y]|]); eauto. }
    destruct H' as [(h & a & -> & ->)|[-> ->]]; split; congruence.
  - apply matchId_not_inherited.
Qed.

Lemma normalizeMatch_fields (leagueName : string) (m : RawMatch) (st : State) :
  let c := fst (normalizeMatch leagueName m st) in
  league_name c = str_or (m_competition_name m) leagueName
  /\ teams_home c = team_view (m_homeTeam m)
  /\ teams_away c = team_view (m_awayTeam m)
  /\ fixture_date c = m_utcDate m.
Proof.
  cbv zeta. unfold normalizeMatch.
  destruct (reconcileScore _ _ _ _) as [[gh ga] st1].
  destruct (reconcileStatus _ _ _) as [cur st2]. simpl. auto.
Qed.

Lemma normalizeMatch_frame (leagueName : string) (m : RawMatch) (st : State) :
  let st' := snd (normalizeMatch leagueName m st) in
  isLoading st' = isLoading st /\ activeLeagues st' = activeLeagues st
  /\ lastFetchTime st' = lastFetchTime st /\ cachedMatches st' = cachedMatches st
  /\ cachedDate st' = cachedDate st.
Proof.
  cbv zeta. unfold normalizeMatch.
  pose proof (reconcileScore_frame (matchId m) (m_score_fullTime_home m)
                (m_score_fullTime_away m) st) as H1.
  destruct (reconcileScore _ _ _ _) as [[gh ga] st1].
  pose proof (reconcileStatus_frame (matchId m) (mapFDStatusToShort (m_status m)) st1) as H2.
  destruct (reconcileStatus _ _ _) as [cur st2].
  simpl in *. intuition congruence.
Qed.

Lemma Match_ext (c d : Match) :
  league_name c = league_name d -> teams_home c = teams_home d ->
  teams_away c = teams_away d -> goals_home c = goals_home d ->
  goals_away c = goals_away d -> fixture_date c = fixture_date d ->
  fixture_status_short c = fixture_status_short d -> c = d.
Proof. destruct c, d; simpl; intros; subst; reflexivity. Qed.

Lemma State_ext (s t : State) :
  isLoading s = isLoading t -> activeLeagues s = activeLeagues t ->
  lastFetchTime s = lastFetchTime t -> cachedMatches s = cachedMatches t ->
  cachedDate s = cachedDate t -> lastKnownScores s = lastKnownScores t ->
  lastKnownStatus s = lastKnownStatus t -> s = t.
Proof. destruct s, t; simpl; intros; subst; reflexivity. Qed.

(** The callback touches the two maps at the id of its match only. *)
Lemma normalizeMatch_other_keys (leagueName : string) (m : RawMatch) (st : State)
    (k : string) :
  k <> matchId m ->
  lastKnownScores (snd (normalizeMatch leagueName m st)) !! k = lastKnownScores st !! k
  /\ lastKnownStatus (snd (normalizeMatch leagueName m st)) !! k
     = lastKnownStatus st !! k.
Proof.
  intros Hk.
  pose proof (normalizeMatch_score_spec leagueName m st) as Hs.
  pose proof (normalizeMatch_status_spec leagueName m st) as Ht.
  cbv zeta in *. split.
  - destruct (m_score_fullTime_home m), (m_score_fullTime_away m);
      destruct Hs as [-> _]; try reflexivity.
    apply lookup_insert_ne. congruence.
  - destruct (is_NS (mapFDStatusToShort (m_status m)));
      destruct Ht as [-> _]; try reflexivity.
    apply lookup_insert_ne. congruence.
Qed.

Lemma normalized_other_keys (leagueName : string) (ms : list RawMatch) (st : State)
    (k : string) :
  ~ In k (map matchId ms) ->
  lastKnownScores (snd (normalized leagueName ms st)) !! k = lastKnownScores st !! k
  /\ lastKnownStatus (snd (normalized leagueName ms st)) !! k
     = lastKnownStatus st !! k.
Proof.
  revert st. induction ms as [|m rest IH]; intros st Hk; simpl; [auto|].
  simpl in Hk.
  pose proof (normalizeMatch_other_keys leagueName m st k) as H1.
  destruct (normalizeMatch leagueName m st) as [c st1].
  specialize (IH st1). destruct (normalized leagueName rest st1) as [cs st2].
  simpl in *. destruct IH as [-> ->]; [tauto|]. apply H1. intros ->. tauto.
Qed.

Lemma normalized_frame (leagueName : string) (ms : list RawMatch) (st : State) :
  let st' := snd (normalized leagueName ms st) in
  isLoading st' = isLoading st /\ activeLeagues st' = activeLeagues st
  /\ lastFetchTime st' = lastFetchTime st /\ cachedMatches st' = cachedMatches st
  /\ cachedDate st' = cachedDate st.
Proof.
  revert st. induction ms as [|m rest IH]; intros st; simpl; [auto 6|].
  pose proof (normalizeMatch_frame leagueName m st) as H1.
  destruct (normalizeMatch leagueName m st) as [c st1].
  specialize (IH st1). destruct (normalized leagueName rest st1) as [cs st2].
  simpl in *. intuition congruence.
Qed.

Lemma normalized_length (leagueName : string) (ms : list RawMatch) (st : State) :
  length (fst (normalized leagueName ms st)) = length ms.
Proof.
  revert st. induction ms as [|m rest IH]; intros st; simpl; [reflexivity|].
  destruct (normalizeMatch leagueName m st) as [c st1].
  specialize (IH st1). destruct (normalized leagueName rest st1) as [cs st2].
  simpl in *. congruence.
Qed.

(** Running the callback again on a state that agrees, at the id of the
    match, with the state the first run left: same output, maps unchanged. *)
Lemma normalizeMatch_rerun (leagueName : string) (m : RawMatch) (st st2 : State) :
  lastKnownScores st2 !! matchId m
  = lastKnownScores (snd (normalizeMatch leagueName m st)) !! matchId m ->
  lastKnownStatus st2 !! matchId m
  = lastKnownStatus (snd (normalizeMatch leagueName m st)) !! matchId m ->
  fst (normalizeMatch leagueName m st2) = fst (normalizeMatch leagueName m st)
  /\ lastKnownScores (snd (normalizeMatch leagueName m st2)) = lastKnownScores st2
  /\ lastKnownStatus (snd (normalizeMatch leagueName m st2)) = lastKnownStatus st2.
Proof.
  intros Hsc Hst.
  pose proof (normalizeMatch_score_spec leagueName m st) as Hs1.
  pose proof (normalizeMatch_score_spec leagueName m st2) as Hs2.
  pose proof (normalizeMatch_status_spec leagueName m st) as Ht1.
  pose proof (normalizeMatch_status_spec leagueName m st2) as Ht2.
  pose proof (normalizeMatch_fields leagueName m st) as (F1 & F2 & F3 & F4).
  pose proof (normalizeMatch_fields leagueName m st2) as (G1 & G2 & G3 & G4).
  cbv zeta in *.
  assert (Hscore :
            goals_home (fst (normalizeMatch leagueName m st2))
            = goals_home (fst (normalizeMatch leagueName m st))
            /\ goals_away (fst (normalizeMatch leagueName m st2))
               = goals_away (fst (normalizeMatch leagueName m st))
            /\ lastKnownScores (snd (normalizeMatch leagueName m st2))
               = lastKnownScores st2).
  { destruct (m_score_fullTime_home m) as [| |h], (m_score_fullTime_away m) as [| |a];
      try (destruct Hs1 as [E1 Hg1], Hs2 as [E2 Hg2];
           rewrite E1 in Hsc; rewrite Hsc in Hg2;
           destruct (lastKnownScores st !! matchId m) as [[x y]|];
           intuition congruence).
    destruct Hs1 as (E1 & ? & ?), Hs2 as (E2 & ? & ?).
    rewrite E1, lookup_insert_eq in Hsc.
    rewrite E2. split_and!; try congruence. apply insert_id. exact Hsc. }
  assert (Hstatus :
            fixture_status_short (fst (normalizeMatch leagueName m st2))
            = fixture_status_short (fst (normalizeMatch leagueName m st))
            /\ lastKnownStatus (snd (normalizeMatch leagueName m st2))
               = lastKnownStatus st2).
  { destruct (is_NS (mapFDStatusToShort (m_status m))).
    - destruct Ht1 as [E1 Hc1], Ht2 as [E2 Hc2].
      rewrite E1 in Hst. rewrite Hst in Hc2. split; congruence.
    - destruct Ht1 as [E1 Hc1], Ht2 as [E2 Hc2].
      rewrite E1, lookup_insert_eq in Hst.
      rewrite E2. split; [congruence|]. apply insert_id. exact Hst. }
  destruct Hscore as (? & ? & ?), Hstatus as (? & ?).
  split_and!; try assumption.
  apply Match_ext; congruence.
Qed.

Lemma normalized_rerun (leagueName : string) (ms : list RawMatch) :
  List.NoDup (map matchId ms) ->
  forall st st2,
    (forall k, In k (map matchId ms) ->
               lastKnownScores st2 !! k
               = lastKnownScores (snd (normalized leagueName ms st)) !! k
               /\ lastKnownStatus st2 !! k
                  = lastKnownStatus (snd (normalized leagueName ms st)) !! k) ->
    fst (normalized leagueName ms st2) = fst (normalized leagueName ms st)
    /\ lastKnownScores (snd (normalized leagueName ms st2)) = lastKnownScores st2
    /\ lastKnownStatus (snd (normalized leagueName ms st2)) = lastKnownStatus st2.
Proof.
  induction ms as [|m rest IH]; intros Hnd st st2 Hagree; simpl; [auto|].
  simpl in Hnd. apply NoDup_cons_iff in Hnd as [Hnotin Hnd].
  specialize (IH Hnd).
  simpl in Hagree.
  pose proof (normalizeMatch_rerun leagueName m st st2) as Hre.
  pose proof (normalized_other_keys leagueName rest
                (snd (normalizeMatch leagueName m st)) (matchId m) Hnotin) as Hfr.
  destruct (normalizeMatch leagueName m st) as [c st1] eqn:E1.
  destruct (normalizeMatch leagueName m st2) as [c2 st2'] eqn:E2.
  specialize (IH st1 st2').
  destruct (normalized leagueName rest st1) as [cs stf] eqn:E3.
  destruct (normalized leagueName rest st2') as [cs2 stf2] eqn:E4.
  simpl in *.
  destruct Hfr as [Hfr1 Hfr2].
  destruct (Hagree (matchId m) (or_introl eq_refl)) as [Ha1 Ha2].
  rewrite E3 in Hfr1, Hfr2. simpl in Hfr1, Hfr2.
  destruct Hre as (-> & Hk1 & Hk2); [congruence | congruence |].
  destruct IH as (-> & Hr1 & Hr2).
  { intros k Hk. rewrite Hk1, Hk2. apply Hagree. right. exact Hk. }
  split_and!; congruence.
Qed.

(** C8, as the code has it.  On a batch whose match ids are pairwise
    distinct, a second run of the reconciliation, started from the maps
    the first run left, returns the same list of matches and leaves the
    state as the first run left it. *)
Theorem reconciliation_idempotent (leagueName : string) (ms : list RawMatch) (st : State) :
  List.NoDup (map matchId ms) ->
  let first := normalized leagueName ms st in
  let second := normalized leagueName ms (snd first) in
  fst second = fst first /\ snd second = snd first.
Proof.
  intros Hnd. cbv zeta.
  destruct (normalized_rerun leagueName ms Hnd st
              (snd (normalized leagueName ms st))) as (Hout & Hsc & Hst).
  { intros k _. split; reflexivity. }
  split; [exact Hout|].
  pose proof (normalized_frame leagueName ms (snd (normalized leagueName ms st))) as Hf.
  cbv zeta in Hf. destruct Hf as (? & ? & ? & ? & ?).
  apply State_ext; assumption.
Qed.
Section Properties.

Variable parseDate : nullable string -> option Z.
Variable londonYMD : Z -> string.

(** ** Fetch orchestrator *)

(** One iteration: the request is sent, the flag is raised by a [429] and
    by nothing else, the batch counts what it holds, and the state changes
    in the two maps only. *)
Lemma leagueIteration_spec (inp : LoadInput) (today tomorrow : string)
    (league : string * Z) (b : Batch) (st : State) (tr : list Event) :
  let '(b', st', tr') :=
    leagueIteration parseDate londonYMD inp today tomorrow league (b, st, tr) in
  tr' = (tr ++ [request_of today tomorrow league])%list
  /\ hasRateLimit b' = hasRateLimit b || is_rate_limited inp today tomorrow league
  /\ (totalMatches b = length (allMatches b) ->
      totalMatches b' = length (allMatches b'))
  /\ (isLoading st' = isLoading st /\ activeLeagues st' = activeLeagues st
      /\ lastFetchTime st' = lastFetchTime st /\ cachedMatches st' = cachedMatches st
      /\ cachedDate st' = cachedDate st)
  /\ (status_map_wf st -> status_map_wf st')
  /\ (no_contribution parseDate londonYMD inp today tomorrow league = true ->
      allMatches b' = allMatches b /\ totalMatches b' = totalMatches b /\ st' = st).
Proof.
  destruct league as [leagueName leagueCode].
  unfold leagueIteration, leagueBody, no_contribution, is_rate_limited, request_of.
  simpl fst. simpl snd.
  destruct (respond inp leagueCode today tomorrow) as [|status body].
  { rewrite orb_false_r. split_and!; auto. }
  destruct (Z.eqb_spec status 429) as [->|Hs].
  { rewrite orb_true_r. simpl. split_and!; auto. }
  rewrite orb_false_r.
  destruct (res_ok status); simpl.
  2:{ split_and!; auto; destruct body; auto. }
  destruct body as [| |raw]; simpl.
  1:{ split_and!; auto. }
  1:{ split_and!; auto. }
  destruct (filter_today parseDate londonYMD today raw) as [fd|].
  2:{ split_and!; auto. }
  pose proof (normalized_frame leagueName fd st) as Hfr.
  pose proof (normalized_wf leagueName fd st) as Hwf.
  pose proof (normalized_length leagueName fd st) as Hlen.
  destruct (normalized leagueName fd st) as [cs st1] eqn:En.
  simpl in Hfr, Hwf, Hlen. destruct Hfr as (? & ? & ? & ? & ?).
  destruct cs as [|c cs]; simpl.
  - destruct fd; [|discriminate Hlen]. simpl in En. injection En as <-.
    split_and!; auto.
  - split_and!; auto.
    + intros ->. rewrite length_app. reflexivity.
    + destruct fd; [discriminate Hlen|]. discriminate.
Qed.

(** The loop from any point on: every league is requested, in order. *)
Lemma fetch_fold_spec (inp : LoadInput) (today tomorrow : string)
    (ls : list (string * Z)) :
  forall (b : Batch) (st : State) (tr : list Event),
    let '(b', st', tr') :=
      fold_left (fun acc league =>
                   leagueIteration parseDate londonYMD inp today tomorrow league acc)
                ls (b, st, tr) in
    tr' = (tr ++ map (request_of today tomorrow) ls)%list
    /\ hasRateLimit b'
       = hasRateLimit b || existsb (is_rate_limited inp today tomorrow) ls
    /\ (totalMatches b = length (allMatches b) ->
        totalMatches b' = length (allMatches b'))
    /\ (isLoading st' = isLoading st /\ activeLeagues st' = activeLeagues st
        /\ lastFetchTime st' = lastFetchTime st
        /\ cachedMatches st' = cachedMatches st
        /\ cachedDate st' = cachedDate st)
    /\ (status_map_wf st -> status_map_wf st')
    /\ (forallb (no_contribution parseDate londonYMD inp today tomorrow) ls = true ->
        allMatches b' = allMatches b /\ totalMatches b' = totalMatches b
        /\ st' = st).
Proof.
  induction ls as [|league rest IH]; intros b st tr.
  - simpl. rewrite app_nil_r, orb_false_r. split_and!; auto.
  - cbn [fold_left].
    pose proof (leagueIteration_spec inp today tomorrow league b st tr) as H1.
    destruct (leagueIteration parseDate londonYMD inp today tomorrow league (b, st, tr))
      as [[b1 st1] tr1].
    specialize (IH b1 st1 tr1).
    destruct (fold_left _ rest (b1, st1, tr1)) as [[b2 st2] tr2].
    destruct H1 as (Ht1 & Hr1 & Hc1 & (F1 & F2 & F3 & F4 & F5) & Hw1 & Hn1).
    destruct IH as (Ht2 & Hr2 & Hc2 & (G1 & G2 & G3 & G4 & G5) & Hw2 & Hn2).
    split_and!; try congruence; auto.
    + rewrite Ht2, Ht1. simpl. rewrite <- app_assoc. reflexivity.
    + rewrite Hr2, Hr1. simpl. rewrite orb_assoc. reflexivity.
    + simpl. intros Hall. apply andb_true_iff in Hall as [Ha Hb].
      destruct (Hn1 Ha) as (? & ? & ?). destruct (Hn2 Hb) as (? & ? & ?).
      split_and!; congruence.
Qed.

(** An iteration whose response carries matches of today adds their
    reconciliation to the batch. *)
Lemma leagueIteration_contribution (inp : LoadInput) (today tomorrow : string)
    (leagueName : string) (leagueCode : Z) (status : Z) (raw fd : list RawMatch)
    (b : Batch) (st : State) (tr : list Event) :
  respond inp leagueCode today tomorrow = Response status (BodyMatches raw) ->
  res_ok status = true ->
  filter_today parseDate londonYMD today raw = Normal fd ->
  fd <> [] ->
  leagueIteration parseDate londonYMD inp today tomorrow (leagueName, leagueCode)
    (b, st, tr)
  = ({| allMatches := (allMatches b ++ fst (normalized leagueName fd st))%list;
        totalMatches := totalMatches b + length fd;
        hasRateLimit := hasRateLimit b |},
     snd (normalized leagueName fd st),
     (tr ++ [request_of today tomorrow (leagueName, leagueCode)])%list).
Proof.
  intros Hresp Hok Hfilter Hne.
  unfold leagueIteration, leagueBody, request_of. rewrite Hresp.
  assert (Hs : (status =? 429)%Z = false).
  { unfold res_ok in Hok. apply andb_true_iff in Hok as [H1 H2].
    apply Z.eqb_neq. lia. }
  rewrite Hs, Hok. simpl negb. cbv iota. rewrite Hfilter.
  pose proof (normalized_length leagueName fd st) as Hlen.
  destruct (normalized leagueName fd st) as [cs st1]. simpl in *.
  destruct cs as [|c cs].
  - destruct fd; [congruence | discriminate Hlen].
  - simpl. rewrite <- Hlen. reflexivity.
Qed.

(** A batch in which league [B] answers with three matches of today,
    league [A] answers [429], and no other league brings a match. *)
Lemma fetchBatch_scenario (inp : LoadInput) (today tomorrow : string)
    (pre post : list (string * Z)) (A B : string * Z) (status : Z)
    (m1 m2 m3 : RawMatch) (st : State) :
  In A (pre ++ post) ->
  is_rate_limited inp today tomorrow A = true ->
  (forall L, In L (pre ++ post) ->
             no_contribution parseDate londonYMD inp today tomorrow L = true) ->
  respond inp (snd B) today tomorrow = Response status (BodyMatches [m1; m2; m3]) ->
  res_ok status = true ->
  filter_today parseDate londonYMD today [m1; m2; m3] = Normal [m1; m2; m3] ->
  let '(b, st', tr) :=
    fetchBatch parseDate londonYMD inp today tomorrow (pre ++ B :: post) st in
  tr = map (request_of today tomorrow) (pre ++ B :: post)
  /\ hasRateLimit b = true
  /\ allMatches b = fst (normalized (fst B) [m1; m2; m3] st)
  /\ length (allMatches b) = 3%nat
  /\ totalMatches b = 3%nat
  /\ st' = snd (normalized (fst B) [m1; m2; m3] st).
Proof.
  intros HA H429 Hnone Hresp Hok Hfilter.
  unfold fetchBatch. rewrite fold_left_app. cbn [fold_left].
  pose proof (fetch_fold_spec inp today tomorrow pre empty_batch st []) as Hpre.
  destruct (fold_left _ pre (empty_batch, st, [])) as [[b1 st1] tr1].
  destruct Hpre as (Ht1 & Hr1 & _ & _ & _ & Hn1).
  destruct Hn1 as (Ha1 & Hc1 & ->).
  { apply forallb_forall. intros L HL. apply Hnone, in_or_app. left. exact HL. }
  destruct B as [nameB codeB]. simpl in Hresp.
  rewrite (leagueIteration_contribution inp today tomorrow nameB codeB status
             [m1; m2; m3] [m1; m2; m3] b1 st tr1 Hresp Hok Hfilter)
    by discriminate.
  match goal with
  | |- context [fold_left ?f post (?b2, ?st2, ?tr2)] =>
      pose proof (fetch_fold_spec inp today tomorrow post b2 st2 tr2) as Hpost;
      destruct (fold_left f post (b2, st2, tr2)) as [[b3 st3] tr3]
  end.
  destruct Hpost as (Ht3 & Hr3 & _ & _ & _ & Hn3).
  destruct Hn3 as (Ha3 & Hc3 & ->).
  { apply forallb_forall. intros L HL. apply Hnone, in_or_app. right. exact HL. }
  simpl in *.
  assert (Hall : allMatches b3 = fst (normalized nameB [m1; m2; m3] st)).
  { rewrite Ha3, Ha1. reflexivity. }
  split_and!.
  - rewrite Ht3, Ht1, map_app. simpl. rewrite <- app_assoc. reflexivity.
  - rewrite Hr3, Hr1. simpl.
    apply in_app_or in HA as [HA|HA].
    + assert (E : existsb (is_rate_limited inp today tomorrow) pre = true)
        by (apply existsb_exists; eauto).
      rewrite E. reflexivity.
    + assert (E : existsb (is_rate_limited inp today tomorrow) post = true)
        by (apply existsb_exists; eauto).
      rewrite E. apply orb_true_r.
  - exact Hall.
  - rewrite Hall. apply (normalized_length nameB [m1; m2; m3] st).
  - rewrite Hc3, Hc1. reflexivity.
  - reflexivity.
Qed.

(** What an iteration adds to the batch and does to the state does not
    depend on the rate-limit flag. *)
Lemma leagueIteration_flag (inp : LoadInput) (today tomorrow : string)
    (league : string * Z) (b b0 : Batch) (st : State) (tr tr0 : list Event) :
  allMatches b = allMatches b0 -> totalMatches b = totalMatches b0 ->
  let '(b', st', _) :=
    leagueIteration parseDate londonYMD inp today tomorrow league (b, st, tr) in
  let '(b0', st0', _) :=
    leagueIteration parseDate londonYMD inp today tomorrow league (b0, st, tr0) in
  allMatches b' = allMatches b0' /\ totalMatches b' = totalMatches b0' /\ st' = st0'.
Proof.
  intros Ha Hc. destruct league as [leagueName leagueCode].
  unfold leagueIteration, leagueBody.
  destruct (respond inp leagueCode today tomorrow) as [|status body]; [auto|].
  destruct (status =? 429)%Z; [simpl; auto|].
  destruct (res_ok status); simpl; [|auto].
  destruct body as [| |raw]; simpl; auto.
  destruct (filter_today parseDate londonYMD today raw) as [fd|]; auto.
  destruct (normalized leagueName fd st) as [cs st1]. destruct cs; simpl; auto.
  rewrite Ha, Hc. auto.
Qed.

(** Leaving the rate-limited leagues out of the loop changes neither the
    matches of the batch nor the state it leaves. *)
Lemma fetch_fold_skip (inp : LoadInput) (today tomorrow : string)
    (ls : list (string * Z)) :
  forall (b b0 : Batch) (st : State) (tr tr0 : list Event),
    allMatches b = allMatches b0 -> totalMatches b = totalMatches b0 ->
    let '(b', st', _) :=
      fold_left (fun acc league =>
                   leagueIteration parseDate londonYMD inp today tomorrow league acc)
                ls (b, st, tr) in
    let '(b0', st0', _) :=
      fold_left (fun acc league =>
                   leagueIteration parseDate londonYMD inp today tomorrow league acc)
                (List.filter (fun L => negb (is_rate_limited inp today tomorrow L)) ls)
                (b0, st, tr0) in
    allMatches b' = allMatches b0' /\ totalMatches b' = totalMatches b0' /\ st' = st0'.
Proof.
  induction ls as [|league rest IH]; intros b b0 st tr tr0 Ha Hc.
  - simpl. auto.
  - cbn [fold_left List.filter].
    destruct (is_rate_limited inp today tomorrow league) eqn:Hrl; cbn [negb].
    + pose proof (leagueIteration_spec inp today tomorrow league b st tr) as H1.
      destruct (leagueIteration parseDate londonYMD inp today tomorrow league (b, st, tr))
        as [[b1 st1] tr1].
      destruct H1 as (_ & _ & _ & _ & _ & Hn).
      destruct Hn as (Ha1 & Hc1 & ->).
      { unfold no_contribution. unfold is_rate_limited in Hrl.
        destruct (respond inp (snd league) today tomorrow) as [|s body];
          [reflexivity|]. rewrite Hrl. destruct body; reflexivity. }
      apply IH; congruence.
    + cbn [fold_left].
      pose proof (leagueIteration_flag inp today tomorrow league b b0 st tr tr0 Ha Hc)
        as H1.
      destruct (leagueIteration parseDate londonYMD inp today tomorrow league (b, st, tr))
        as [[b1 st1] tr1].
      destruct (leagueIteration parseDate londonYMD inp today tomorrow league (b0, st, tr0))
        as [[b2 st2] tr2].
      destruct H1 as (Ha1 & Hc1 & ->).
      apply IH; assumption.
Qed.

(** C5: in every batch all leagues are requested, in order; the
    rate-limit flag is set exactly when some league answers [429]; the
    matches and the state are those of the batch without the rate-limited
    leagues.  When league [B] answers with three matches of today, league
    [A] answers [429] and no other league brings a match, the batch holds
    the reconciliation of the three matches of [B], nothing else, and the
    flag is set.  The loop returns in every case. *)
Theorem rate_limited_league_skipped (inp : LoadInput) (today tomorrow : string)
    (ls : list (string * Z)) (st : State) :
  let '(b, st', tr) := fetchBatch parseDate londonYMD inp today tomorrow ls st in
  tr = map (request_of today tomorrow) ls
  /\ hasRateLimit b = existsb (is_rate_limited inp today tomorrow) ls
  /\ (let '(b0, st0, _) :=
        fetchBatch parseDate londonYMD inp today tomorrow
          (List.filter (fun L => negb (is_rate_limited inp today tomorrow L)) ls) st in
      allMatches b = allMatches b0 /\ totalMatches b = totalMatches b0 /\ st' = st0)
  /\ (forall pre post A B status m1 m2 m3,
         ls = (pre ++ B :: post)%list ->
         In A (pre ++ post) ->
         is_rate_limited inp today tomorrow A = true ->
         (forall L, In L (pre ++ post) ->
                    no_contribution parseDate londonYMD inp today tomorrow L = true) ->
         respond inp (snd B) today tomorrow
         = Response status (BodyMatches [m1; m2; m3]) ->
         res_ok status = true ->
         filter_today parseDate londonYMD today [m1; m2; m3] = Normal [m1; m2; m3] ->
         hasRateLimit b = true
         /\ allMatches b = fst (normalized (fst B) [m1; m2; m3] st)
         /\ length (allMatches b) = 3%nat
         /\ totalMatches b = 3%nat).
Proof.
  pose proof (fetch_fold_spec inp today tomorrow ls empty_batch st []) as Hspec.
  pose proof (fetch_fold_skip inp today tomorrow ls empty_batch empty_batch st [] []
                eq_refl eq_refl) as Hskip.
  pose proof (fun pre post A B status m1 m2 m3 =>
                fetchBatch_scenario inp today tomorrow pre post A B status m1 m2 m3 st)
    as Hsc.
  unfold fetchBatch in *.
  destruct (fold_left _ ls (empty_batch, st, [])) as [[b st'] tr] eqn:E.
  destruct Hspec as (Ht & Hr & _).
  split_and!.
  - exact Ht.
  - exact Hr.
  - destruct (fold_left _ (List.filter _ ls) (empty_batch, st, [])) as [[b0 st0] tr0].
    exact Hskip.
  - intros pre post A B status m1 m2 m3 -> HA H429 Hnone Hresp Hok Hfilter.
    specialize (Hsc pre post A B status m1 m2 m3 HA H429 Hnone Hresp Hok Hfilter).
    rewrite E in Hsc. tauto.
Qed.

(** ** Cache layer *)

Lemma nonempty_ltb {A} (l : list A) : (0 <? length l)%nat = true <-> l <> [].
Proof.
  destruct l; simpl; split; intros H; try congruence; try reflexivity.
  discriminate.
Qed.

Lemma shouldUseCache_iff (today : string) (now : Z) (st : State) :
  shouldUseCache today now st = true
  <-> cachedMatches st <> [] /\ cachedDate st = today
      /\ (now - lastFetchTime st < 120000)%Z.
Proof.
  unfold shouldUseCache, CACHE_DURATION.
  rewrite !andb_true_iff, nonempty_ltb, String.eqb_eq, Z.ltb_lt. tauto.
Qed.

Lemma sameDayCache_iff (today : string) (st : State) :
  (0 <? length (cachedMatches st))%nat && String.eqb (cachedDate st) today = true
  <-> cachedMatches st <> [] /\ cachedDate st = today.
Proof. rewrite andb_true_iff, nonempty_ltb, String.eqb_eq. tauto. Qed.

(** What a call does when it is not already loading and does not reuse
    the cache: the batch runs from the state at entry, its requests open
    the trace, and one of three outcomes follows. *)
Lemma loadTodaysMatches_fetch (inp : LoadInput) (st : State) :
  let today := todayLondonISO londonYMD (at_today inp) in
  let tomorrow := tomorrowLondonISO londonYMD (at_tomorrow inp) in
  let now := at_now inp in
  isLoading st = false ->
  shouldUseCache today now st = false ->
  let '(b, st1, trf) :=
    fetchBatch parseDate londonYMD inp today tomorrow leagues
      (with_isLoading true st) in
  let st' := fst (loadTodaysMatches parseDate londonYMD inp st) in
  let tr := snd (loadTodaysMatches parseDate londonYMD inp st) in
  trf = map (request_of today tomorrow) leagues
  /\ isLoading st' = false
  /\ activeLeagues st' = activeLeagues st
  /\ lastKnownScores st' = lastKnownScores st1
  /\ lastKnownStatus st' = lastKnownStatus st1
  /\ ((0 < totalMatches b)%nat
      /\ tr = (trf ++ [EvHideNoMatches; EvDisplay (allMatches b); EvLastUpdated])%list
      /\ cachedMatches st' = allMatches b /\ cachedDate st' = today
      /\ lastFetchTime st' = now
      \/ totalMatches b = 0%nat
         /\ (cachedMatches st <> [] /\ cachedDate st = today)
         /\ tr = (trf ++ [EvHideNoMatches; EvDisplay (cachedMatches st);
                          EvLastUpdated])%list
         /\ cachedMatches st' = cachedMatches st /\ cachedDate st' = cachedDate st
         /\ lastFetchTime st' = lastFetchTime st
      \/ totalMatches b = 0%nat
         /\ ~ (cachedMatches st <> [] /\ cachedDate st = today)
         /\ tr = (trf ++ [EvShowNoMatches; EvLastUpdated])%list
         /\ cachedMatches st' = cachedMatches st /\ cachedDate st' = cachedDate st
         /\ lastFetchTime st' = lastFetchTime st).
Proof.
  cbv zeta. intros Hload Hreuse.
  unfold loadTodaysMatches, loadBody. rewrite Hload.
  change (shouldUseCache (todayLondonISO londonYMD (at_today inp)) (at_now inp)
            (with_isLoading true st))
    with (shouldUseCache (todayLondonISO londonYMD (at_today inp)) (at_now inp) st).
  rewrite Hreuse.
  pose proof (fetch_fold_spec inp (todayLondonISO londonYMD (at_today inp))
                (tomorrowLondonISO londonYMD (at_tomorrow inp)) leagues
                empty_batch (with_isLoading true st) []) as Hspec.
  unfold fetchBatch.
  destruct (fold_left _ leagues (empty_batch, with_isLoading true st, []))
    as [[b st1] trf].
  destruct Hspec as (Ht & _ & _ & (F1 & F2 & F3 & F4 & F5) & _ & _).
  simpl in Ht, F1, F2, F3, F4, F5.
  rewrite F4, F5.
  pose proof (sameDayCache_iff (todayLondonISO londonYMD (at_today inp)) st) as Hsd.
  destruct (0 <? totalMatches b)%nat eqn:Etot.
  - apply Nat.ltb_lt in Etot. simpl. split_and!; auto.
    left. split_and!; auto.
  - apply Nat.ltb_ge in Etot. assert (totalMatches b = 0%nat) by lia.
    destruct ((0 <? length (cachedMatches st))%nat
              && String.eqb (cachedDate st) (todayLondonISO londonYMD (at_today inp)))
      eqn:Esd.
    + assert (Hc : cachedMatches st <> [] /\
                   cachedDate st = todayLondonISO londonYMD (at_today inp))
        by (apply Hsd; reflexivity).
      rewrite <- andb_assoc, Esd.
      destruct (hasRateLimit b); simpl; split_and!; auto;
        right; left; split_and!; tauto.
    + assert (Hc : ~ (cachedMatches st <> [] /\
                      cachedDate st = todayLondonISO londonYMD (at_today inp)))
        by (rewrite <- Hsd; congruence).
      rewrite <- andb_assoc, Esd, andb_false_r.
      simpl; split_and!; auto. right; right; split_and!; tauto.
Qed.

Lemma loadTodaysMatches_hit (inp : LoadInput) (st : State) :
  isLoading st = false ->
  shouldUseCache (todayLondonISO londonYMD (at_today inp)) (at_now inp) st = true ->
  loadTodaysMatches parseDate londonYMD inp st
  = (st, [EvHideNoMatches; EvDisplay (cachedMatches st); EvLastUpdated]).
Proof.
  intros Hload Hreuse. unfold loadTodaysMatches, loadBody. rewrite Hload.
  change (shouldUseCache (todayLondonISO londonYMD (at_today inp)) (at_now inp)
            (with_isLoading true st))
    with (shouldUseCache (todayLondonISO londonYMD (at_today inp)) (at_now inp) st).
  rewrite Hreuse. simpl. f_equal.
  destruct st; simpl in *; subst; reflexivity.
Qed.

Lemma requests_are_fetches (today tomorrow : string) (ls : list (string * Z))
    (tail : list Event) :
  forallb (fun e => negb (is_fetch e)) tail = true ->
  List.filter is_fetch (map (request_of today tomorrow) ls ++ tail)
  = map (request_of today tomorrow) ls.
Proof.
  intros Htail. induction ls as [|l ls IH]; simpl.
  - induction tail as [|e tail IHt]; simpl in *; [reflexivity|].
    apply andb_true_iff in Htail as [He Ht].
    destruct (is_fetch e); [discriminate|]. auto.
  - rewrite IH. reflexivity.
Qed.

Lemma requests_not_shown (today tomorrow : string) (ls : list (string * Z))
    (e : Event) :
  is_fetch e = false -> ~ In e (map (request_of today tomorrow) ls).
Proof.
  intros He Hin. apply in_map_iff in Hin as (l & <- & _). discriminate.
Qed.

(** C4: a call that is not already loading shows the cached matches
    without a single request exactly when the cache is non-empty, is of
    today, and was fetched less than [CACHE_DURATION] = 120000 ms ago;
    otherwise every league is requested.  The decision looks at the cached
    list only to see whether it is empty, so the statuses of the cached
    matches play no part. *)
Theorem cache_reuse_decision (inp : LoadInput) (st : State) :
  isLoading st = false ->
  let today := todayLondonISO londonYMD (at_today inp) in
  let tomorrow := tomorrowLondonISO londonYMD (at_tomorrow inp) in
  let now := at_now inp in
  let reuse := cachedMatches st <> [] /\ cachedDate st = today
               /\ (now - lastFetchTime st < 120000)%Z in
  let tr := snd (loadTodaysMatches parseDate londonYMD inp st) in
  (shouldUseCache today now st = true <-> reuse)
  /\ (reuse -> tr = [EvHideNoMatches; EvDisplay (cachedMatches st); EvLastUpdated])
  /\ (~ reuse -> List.filter is_fetch tr = map (request_of today tomorrow) leagues)
  /\ (List.filter is_fetch tr = [] /\ In (EvDisplay (cachedMatches st)) tr <-> reuse)
  /\ (forall st2,
         (cachedMatches st2 = [] <-> cachedMatches st = []) ->
         cachedDate st2 = cachedDate st -> lastFetchTime st2 = lastFetchTime st ->
         shouldUseCache today now st2 = shouldUseCache today now st)
  /\ CACHE_DURATION = 120000%Z.
Proof.
  intros Hload. cbv zeta.
  pose proof (shouldUseCache_iff (todayLondonISO londonYMD (at_today inp))
                (at_now inp) st) as Hiff.
  assert (Hhit : shouldUseCache (todayLondonISO londonYMD (at_today inp))
                   (at_now inp) st = true ->
                 snd (loadTodaysMatches parseDate londonYMD inp st)
                 = [EvHideNoMatches; EvDisplay (cachedMatches st); EvLastUpdated]).
  { intros H. rewrite (loadTodaysMatches_hit inp st Hload H). reflexivity. }
  assert (Hmiss : shouldUseCache (todayLondonISO londonYMD (at_today inp))
                    (at_now inp) st = false ->
                  List.filter is_fetch (snd (loadTodaysMatches parseDate londonYMD inp st))
                  = map (request_of (todayLondonISO londonYMD (at_today inp))
                           (tomorrowLondonISO londonYMD (at_tomorrow inp))) leagues).
  { intros H.
    pose proof (loadTodaysMatches_fetch inp st Hload H) as Hf. cbv zeta in Hf.
    destruct (fetchBatch _ _ _ _ _ _ _) as [[b st1] trf].
    destruct Hf as (-> & _ & _ & _ & _ & [Ho|[Ho|Ho]]).
    - destruct Ho as (_ & -> & _). apply requests_are_fetches. reflexivity.
    - destruct Ho as (_ & _ & -> & _). apply requests_are_fetches. reflexivity.
    - destruct Ho as (_ & _ & -> & _). apply requests_are_fetches. reflexivity. }
  split_and!.
  - exact Hiff.
  - intros Hr. apply Hhit, Hiff, Hr.
  - intros Hr. apply Hmiss.
    destruct (shouldUseCache _ _ st); [|reflexivity]. exfalso. apply Hr, Hiff. reflexivity.
  - split.
    + intros [Hnone _].
      destruct (shouldUseCache (todayLondonISO londonYMD (at_today inp))
                  (at_now inp) st) eqn:E; [apply Hiff; reflexivity|].
      rewrite (Hmiss eq_refl) in Hnone. discriminate Hnone.
    + intros Hr. rewrite (Hhit (proj2 Hiff Hr)). simpl. split; [reflexivity | tauto].
  - intros st2 Hemp Hdate Htime. unfold shouldUseCache. rewrite Hdate, Htime.
    destruct (cachedMatches st2), (cachedMatches st); simpl; try reflexivity.
    + destruct Hemp as [Hemp _]. specialize (Hemp eq_refl). discriminate.
    + destruct Hemp as [_ Hemp]. specialize (Hemp eq_refl). discriminate.
  - reflexivity.
Qed.

(** C10: when the reuse condition holds, a call leaves the state as it
    found it, the five cache and reconciliation variables in particular,
    and, unless a load is already running, shows the cached matches.
    [lastFetchTime] still holds the time of the last fetch, so a later call
    made [CACHE_DURATION] or more after that fetch does not reuse the
    cache. *)
Theorem cache_hit_leaves_state (inp : LoadInput) (st : State) :
  shouldUseCache (todayLondonISO londonYMD (at_today inp)) (at_now inp) st = true ->
  let st' := fst (loadTodaysMatches parseDate londonYMD inp st) in
  cachedMatches st' = cachedMatches st
  /\ cachedDate st' = cachedDate st
  /\ lastFetchTime st' = lastFetchTime st
  /\ lastKnownScores st' = lastKnownScores st
  /\ lastKnownStatus st' = lastKnownStatus st
  /\ st' = st
  /\ (isLoading st = false ->
      snd (loadTodaysMatches parseDate londonYMD inp st)
      = [EvHideNoMatches; EvDisplay (cachedMatches st); EvLastUpdated])
  /\ (forall later : LoadInput,
         (CACHE_DURATION <= at_now later - lastFetchTime st)%Z ->
         shouldUseCache (todayLondonISO londonYMD (at_today later)) (at_now later) st'
         = false).
Proof.
  intros Hreuse. cbv zeta.
  assert (Hst : fst (loadTodaysMatches parseDate londonYMD inp st) = st).
  { destruct (isLoading st) eqn:Hload.
    - unfold loadTodaysMatches. rewrite Hload. reflexivity.
    - rewrite (loadTodaysMatches_hit inp st Hload Hreuse). reflexivity. }
  rewrite Hst. split_and!; try reflexivity.
  - intros Hload. rewrite (loadTodaysMatches_hit inp st Hload Hreuse). reflexivity.
  - intros later Hlate.
    destruct (shouldUseCache _ (at_now later) st) eqn:E; [|reflexivity].
    apply shouldUseCache_iff in E as (_ & _ & E).
    unfold CACHE_DURATION in Hlate. lia.
Qed.

(** C7: a call that is not already loading shows the "no matches" message
    exactly when the batch brought no match and there is no non-empty cache
    of today.  With a non-empty cache of today, a batch without matches,
    rate-limited or not, ends in the cached matches being shown, and the
    cache is kept. *)
Theorem empty_state_iff (inp : LoadInput) (st : State) :
  isLoading st = false ->
  let today := todayLondonISO londonYMD (at_today inp) in
  let tomorrow := tomorrowLondonISO londonYMD (at_tomorrow inp) in
  let b := fst (fst (fetchBatch parseDate londonYMD inp today tomorrow leagues
                       (with_isLoading true st))) in
  let usable := cachedMatches st <> [] /\ cachedDate st = today in
  let st' := fst (loadTodaysMatches parseDate londonYMD inp st) in
  let tr := snd (loadTodaysMatches parseDate londonYMD inp st) in
  (In EvShowNoMatches tr <-> totalMatches b = 0%nat /\ ~ usable)
  /\ (usable -> totalMatches b = 0%nat ->
      In (EvDisplay (cachedMatches st)) tr
      /\ ~ In EvShowNoMatches tr
      /\ cachedMatches st' = cachedMatches st
      /\ cachedDate st' = cachedDate st).
Proof.
  intros Hload. cbv zeta.
  destruct (shouldUseCache (todayLondonISO londonYMD (at_today inp)) (at_now inp) st)
    eqn:E.
  - rewrite (loadTodaysMatches_hit inp st Hload E). simpl.
    apply shouldUseCache_iff in E as (H1 & H2 & _).
    split_and!.
    + split; [intros [H|[H|[H|[]]]]; discriminate H | tauto].
    + intros _ _. split_and!; auto. intros [H|[H|[H|[]]]]; discriminate H.
  - pose proof (loadTodaysMatches_fetch inp st Hload E) as Hf. cbv zeta in Hf.
    destruct (fetchBatch _ _ _ _ _ _ _) as [[b st1] trf]. simpl fst.
    destruct Hf as (Ht & _ & _ & _ & _ & Ho).
    assert (Hreq : forall e, is_fetch e = false -> ~ In e trf).
    { intros e He. rewrite Ht. apply requests_not_shown. exact He. }
    destruct Ho as [(Hpos & -> & _)|[(Hz & Hu & -> & Hcm & Hcd & _)
                                    |(Hz & Hu & -> & Hcm & Hcd & _)]].
    + split.
      * split; [|lia]. intros Hin. apply in_app_or in Hin as [Hin|Hin].
        -- exfalso. apply (Hreq EvShowNoMatches eq_refl Hin).
        -- simpl in Hin. destruct Hin as [H|[H|[H|[]]]]; discriminate H.
      * intros _ Hz. lia.
    + split.
      * split; [|tauto]. intros Hin. apply in_app_or in Hin as [Hin|Hin].
        -- exfalso. apply (Hreq EvShowNoMatches eq_refl Hin).
        -- simpl in Hin. destruct Hin as [H|[H|[H|[]]]]; discriminate H.
      * intros _ _. split_and!; auto.
        -- apply in_or_app. right. simpl. tauto.
        -- intros Hin. apply in_app_or in Hin as [Hin|Hin].
           ++ apply (Hreq EvShowNoMatches eq_refl Hin).
           ++ simpl in Hin. destruct Hin as [H|[H|[H|[]]]]; discriminate H.
    + split.
      * split; [tauto|]. intros _. apply in_or_app. right. simpl. tauto.
      * intros Hus. tauto.
Qed.

Lemma loadTodaysMatches_wf (inp : LoadInput) (st : State) :
  status_map_wf st ->
  status_map_wf (fst (loadTodaysMatches parseDate londonYMD inp st)).
Proof.
  intros Hwf. unfold loadTodaysMatches, loadBody.
  destruct (isLoading st); [exact Hwf|].
  destruct (shouldUseCache _ _ _); [exact Hwf|].
  pose proof (fetch_fold_spec inp (todayLondonISO londonYMD (at_today inp))
                (tomorrowLondonISO londonYMD (at_tomorrow inp)) leagues
                empty_batch (with_isLoading true st) []) as Hspec.
  unfold fetchBatch.
  destruct (fold_left _ leagues (empty_batch, with_isLoading true st, []))
    as [[b st1] trf].
  destruct Hspec as (_ & _ & _ & _ & Hw & _).
  specialize (Hw Hwf).
  destruct (0 <? totalMatches b)%nat; [exact Hw|].
  destruct (hasRateLimit b && _ && _); [exact Hw|].
  destruct (_ && _); exact Hw.
Qed.

(** ** Adaptive scheduler *)

Lemma clear_timer_lookup (h : option positive) (t : gmap positive Timer)
    (i : positive) :
  is_Some (clear_timer h t !! i) -> is_Some (t !! i) /\ h <> Some i.
Proof.
  destruct h as [j|]; simpl; [|intros H; split; [exact H | discriminate]].
  rewrite lookup_delete. destruct (decide (j = i)) as [->|Hne]; simpl.
  - intros [x Hx]. discriminate.
  - intros H. split; [exact H | congruence].
Qed.

Lemma timers_tracked_initial (now : Z) : timers_tracked (initial_sched londonYMD now).
Proof. intros h [x Hx]. simpl in Hx. rewrite lookup_empty in Hx. discriminate. Qed.

Lemma timers_tracked_adjustInterval (ms : Z) (sc : Sched) :
  timers_tracked sc -> timers_tracked (adjustInterval ms sc).
Proof.
  intros Htr. unfold adjustInterval.
  destruct (_ && _); [exact Htr|].
  intros h. simpl. rewrite lookup_insert.
  destruct (decide (nextTimer sc = h)) as [->|Hne]; simpl; [auto|].
  intros Hh. apply clear_timer_lookup in Hh as [Hh Hne'].
  destruct (Htr h Hh) as [Ha|Hk]; [congruence | auto].
Qed.

Lemma timers_tracked_scheduleKickoffRefresh (now : Z) (ms : list Match) (sc : Sched) :
  timers_tracked sc -> timers_tracked (scheduleKickoffRefresh parseDate now ms sc).
Proof.
  intros Htr. unfold scheduleKickoffRefresh.
  assert (Hclr : forall h, is_Some (clear_timer (kickoffTimeout sc) (timers sc) !! h) ->
                           autoRefreshInterval sc = Some h).
  { intros h Hh. apply clear_timer_lookup in Hh as [Hh Hne].
    destruct (Htr h Hh) as [Ha|Hk]; [exact Ha | congruence]. }
  destruct (earliestKickoff parseDate now ms None) as [k|].
  - destruct (0 <? k - now)%Z.
    + intros h. simpl. rewrite lookup_insert.
      destruct (decide (nextTimer sc = h)) as [->|Hne]; simpl; auto.
    + intros h. simpl. auto.
  - intros h. simpl. auto.
Qed.

Lemma timers_tracked_tickRollover (inp : TickInput) (st : State) (sc : Sched) :
  timers_tracked sc ->
  timers_tracked (snd (tickRollover londonYMD inp (st, sc)))
  /\ nextTimer (snd (tickRollover londonYMD inp (st, sc))) = nextTimer sc
  /\ autoRefreshInterval (snd (tickRollover londonYMD inp (st, sc)))
     = autoRefreshInterval sc.
Proof.
  intros Htr. unfold tickRollover.
  destruct (negb _); simpl; [|auto].
  split_and!; auto.
  intros h Hh. simpl in *. apply clear_timer_lookup in Hh as [Hh _]. auto.
Qed.

Lemma tickAfterLoad_empty (inp : TickInput) (st : State) (sc : Sched) :
  timers_tracked sc ->
  cachedMatches st = [] ->
  let sc' := fst (tickAfterLoad parseDate inp st sc) in
  timers sc' = ∅ /\ nextTimer sc' = nextTimer sc
  /\ autoRefreshInterval sc' = autoRefreshInterval sc
  /\ kickoffTimeout sc' = kickoffTimeout sc
  /\ snd (tickAfterLoad parseDate inp st sc) = [].
Proof.
  intros Htr Hemp. unfold tickAfterLoad. rewrite Hemp. simpl.
  split_and!; try reflexivity.
  apply map_empty. intros h.
  destruct (clear_timer (kickoffTimeout sc)
              (clear_timer (autoRefreshInterval sc) (timers sc)) !! h) eqn:E;
    [|reflexivity].
  exfalso.
  assert (Hs : is_Some (clear_timer (kickoffTimeout sc)
                          (clear_timer (autoRefreshInterval sc) (timers sc)) !! h))
    by (rewrite E; eauto).
  apply clear_timer_lookup in Hs as [Hs Hk].
  apply clear_timer_lookup in Hs as [Hs Ha].
  destruct (Htr h Hs); congruence.
Qed.

Lemma timers_tracked_tickAfterLoad (inp : TickInput) (st : State) (sc : Sched) :
  timers_tracked sc -> timers_tracked (fst (tickAfterLoad parseDate inp st sc)).
Proof.
  intros Htr. unfold tickAfterLoad.
  destruct (length (cachedMatches st) =? 0)%nat; simpl.
  - intros h Hh. simpl in Hh.
    apply clear_timer_lookup in Hh as [Hh _].
    apply clear_timer_lookup in Hh as [Hh _]. auto.
  - apply timers_tracked_scheduleKickoffRefresh, timers_tracked_adjustInterval, Htr.
Qed.

Lemma tick_unfold (inp : TickInput) (st : State) (sc : Sched) :
  let w1 := tickRollover londonYMD inp (st, sc) in
  let l := loadTodaysMatches parseDate londonYMD (tick_load inp) (fst w1) in
  let a := tickAfterLoad parseDate inp (fst l) (snd w1) in
  tick parseDate londonYMD inp (st, sc) = (fst l, fst a, (snd l ++ snd a)%list).
Proof.
  cbv zeta. unfold tick.
  destruct (tickRollover londonYMD inp (st, sc)) as [st1 sc1]. simpl.
  destruct (loadTodaysMatches parseDate londonYMD (tick_load inp) st1) as [st2 tr].
  simpl. destruct (tickAfterLoad parseDate inp st2 sc1) as [sc2 tr']. reflexivity.
Qed.

Lemma timers_tracked_tick (inp : TickInput) (st : State) (sc : Sched) :
  timers_tracked sc ->
  timers_tracked (snd (fst (tick parseDate londonYMD inp (st, sc)))).
Proof.
  intros Htr. rewrite tick_unfold. cbn [fst snd].
  apply timers_tracked_tickAfterLoad.
  apply (timers_tracked_tickRollover inp st sc Htr).
Qed.

Lemma timers_tracked_auto_refresh (w w' : State * Sched) :
  auto_refresh parseDate londonYMD w w' ->
  timers_tracked (snd w) -> timers_tracked (snd w').
Proof.
  intros Hstep. destruct Hstep as [st sc h ms inp Hh|st sc h ms now inp Hh sc'];
    simpl; intros Htr.
  - apply timers_tracked_tick. exact Htr.
  - assert (Htr' : timers_tracked sc').
    { intros i Hi. subst sc'. simpl in *.
      rewrite lookup_delete in Hi. destruct (decide (h = i)); simpl in Hi.
      - destruct Hi as [x Hx]. discriminate.
      - auto. }
    destruct (30 * 1000 <? now - lastFetchTime st)%Z; simpl.
    + apply timers_tracked_tick. exact Htr'.
    + exact Htr'.
Qed.

(** The invariant of the status map holds along the run of the scheduler. *)
Lemma tick_wf (inp : TickInput) (st : State) (sc : Sched) :
  status_map_wf st ->
  status_map_wf (fst (fst (tick parseDate londonYMD inp (st, sc)))).
Proof.
  intros Hwf. rewrite tick_unfold. cbn [fst snd].
  apply loadTodaysMatches_wf. unfold tickRollover.
  destruct (negb _); exact Hwf.
Qed.



(** C6, as the code has it.  When the London date read by [tick] differs
    from the one of the previous tick, the cache is discarded (no cached
    match, empty date, fetch time zero), all configured leagues are active
    again, the pending kickoff one-shot is cancelled and the new date is
    remembered, all before [loadTodaysMatches] runs, which then cannot
    reuse a cache.  The last-known scores and statuses are kept as they
    are. *)
Theorem day_rollover_resets_cache (inp : TickInput) (st : State) (sc : Sched) :
  todayLondonISO londonYMD (tick_at_today inp) <> lastLondonDate sc ->
  let st1 := fst (tickRollover londonYMD inp (st, sc)) in
  let sc1 := snd (tickRollover londonYMD inp (st, sc)) in
  cachedMatches st1 = [] /\ cachedDate st1 = "" /\ lastFetchTime st1 = 0%Z
  /\ activeLeagues st1 = all_leagues
  /\ (forall leagueName, leagueName ∈ activeLeagues st1 <-> In leagueName (map fst leagues))
  /\ lastKnownScores st1 = lastKnownScores st
  /\ lastKnownStatus st1 = lastKnownStatus st
  /\ lastLondonDate sc1 = todayLondonISO londonYMD (tick_at_today inp)
  /\ (forall h, kickoffTimeout sc = Some h -> timers sc1 !! h = None)
  /\ (forall today now, shouldUseCache today now st1 = false)
  /\ fst (fst (tick parseDate londonYMD inp (st, sc)))
     = fst (loadTodaysMatches parseDate londonYMD (tick_load inp) st1).
Proof.
  intros Hchg. cbv zeta. rewrite tick_unfold. cbn [fst snd].
  unfold tickRollover.
  destruct (String.eqb_spec (todayLondonISO londonYMD (tick_at_today inp))
              (lastLondonDate sc)) as [E|_]; [contradiction|].
  simpl. split_and!; try reflexivity.
  - intros leagueName. unfold all_leagues.
    rewrite elem_of_list_to_set, list_elem_of_In. reflexivity.
  - intros h ->. simpl. apply lookup_delete_eq.
Qed.

End Properties.

(** * Instances *)

Lemma score_pair_reconciled_witness :
  (goals_home (fst (normalizeMatch "PL" sample_live initial_state)) = Goals 2
   /\ goals_away (fst (normalizeMatch "PL" sample_live initial_state)) = Goals 1
   /\ lastKnownScores (snd (normalizeMatch "PL" sample_live initial_state)) !! "101"
      = Some (2%Z, 1%Z))
  /\ (goals_home (fst (normalizeMatch "PL" sample_blank sample_known)) = Goals 2
      /\ goals_away (fst (normalizeMatch "PL" sample_blank sample_known)) = Goals 1)
  /\ (goals_home (fst (normalizeMatch "PL" sample_blank initial_state)) = Dash
      /\ goals_away (fst (normalizeMatch "PL" sample_blank initial_state)) = Dash).
Proof.
  destruct (score_pair_reconciled "PL" sample_live initial_state) as (H1 & _).
  destruct (score_pair_reconciled "PL" sample_blank sample_known) as (_ & H2 & _).
  destruct (score_pair_reconciled "PL" sample_blank initial_state) as (_ & H3 & _).
  destruct (H1 2%Z 1%Z eq_refl eq_refl) as (A1 & A2 & _ & A3).
  destruct (H2 eq_refl) as (_ & B & _).
  destruct (H3 eq_refl) as (_ & _ & C).
  split_and!.
  - exact A1.
  - exact A2.
  - exact A3.
  - apply (B 2%Z 1%Z). vm_compute. reflexivity.
  - apply (B 2%Z 1%Z). vm_compute. reflexivity.
  - apply C. vm_compute. reflexivity.
  - apply C. vm_compute. reflexivity.
Defined.

Lemma sample_known_wf : status_map_wf sample_known.
Proof.
  intros k v H. simpl in H. apply lookup_singleton_Some in H as [_ <-].
  split; reflexivity.
Qed.

Lemma status_regression_guard_witness :
  status_map_wf sample_known
  /\ fixture_status_short (fst (normalizeMatch "PL" sample_blank sample_known))
     = SStr "LIVE"
  /\ lastKnownStatus (snd (normalizeMatch "PL" sample_blank sample_known))
     = lastKnownStatus sample_known
  /\ fixture_status_short (fst (normalizeMatch "PL" sample_blank initial_state))
     = SStr "NS"
  /\ lastKnownStatus (snd (normalizeMatch "PL" sample_live initial_state)) !! "101"
     = Some (SStr "LIVE").
Proof.
  destruct (status_regression_guard "PL" sample_blank sample_known sample_known_wf)
    as (H1 & _ & _ & H4 & _).
  destruct (status_regression_guard "PL" sample_blank initial_state status_map_wf_initial)
    as (_ & H2 & _).
  destruct (status_regression_guard "PL" sample_live initial_state status_map_wf_initial)
    as (_ & _ & H3 & _).
  split_and!.
  - exact sample_known_wf.
  - apply H4; vm_compute; reflexivity.
  - apply (H1 eq_refl (SStr "LIVE")). vm_compute. reflexivity.
  - apply H2; vm_compute; reflexivity.
  - destruct (H3 eq_refl) as [_ ->]. vm_compute. reflexivity.
Defined.

(** C3 as stated fails where the status is the default and nothing is
    recorded for the id: this is one of the "other cases", and the map
    stays without an entry for the id. *)
Lemma status_default_without_prior_not_recorded :
  let cur := mapFDStatusToShort (m_status sample_blank) in
  let st' := snd (normalizeMatch "PL" sample_blank initial_state) in
  ~ (~ (is_NS cur = true
        /\ is_Some (lastKnownStatus initial_state !! matchId sample_blank)) ->
     lastKnownStatus st' !! matchId sample_blank = Some cur).
Proof.
  cbv zeta. intros H.
  assert (Hother : ~ (is_NS (mapFDStatusToShort (m_status sample_blank)) = true
                      /\ is_Some (lastKnownStatus initial_state
                                    !! matchId sample_blank))).
  { intros [_ [v Hv]]. vm_compute in Hv. discriminate Hv. }
  specialize (H Hother). vm_compute in H. discriminate H.
Qed.

Lemma sample_three_ids : List.NoDup (map matchId sample_three).
Proof.
  assert (E : map matchId sample_three = ["201"; "202"; "203"])
    by (vm_compute; reflexivity).
  rewrite E. repeat constructor; simpl; intuition discriminate.
Qed.

Lemma reconciliation_idempotent_witness :
  List.NoDup (map matchId sample_three)
  /\ fst (normalized "BL1" sample_three (snd (normalized "BL1" sample_three sample_known)))
     = fst (normalized "BL1" sample_three sample_known).
Proof.
  split; [exact sample_three_ids|].
  apply (reconciliation_idempotent "BL1" sample_three sample_known sample_three_ids).
Defined.

(** C8 as stated fails on a batch that holds the same id twice: the first
    run shows the first element without scores and records the scores of
    the second one; the second run shows them for the first element too. *)
Lemma reconciliation_duplicate_ids :
  let batch := [sample_blank; sample_live] in
  let first := normalized "PL" batch initial_state in
  let second := normalized "PL" batch (snd first) in
  matchId sample_blank = matchId sample_live
  /\ fst second <> fst first.
Proof.
  cbv zeta. split; [vm_compute; reflexivity|].
  intros H. vm_compute in H. discriminate H.
Qed.

Lemma cache_reuse_decision_witness :
  isLoading sample_cached = false
  /\ snd (loadTodaysMatches sample_parseDate sample_londonYMD
            (sample_load 5000 sample_respond) sample_cached)
     = [EvHideNoMatches; EvDisplay (cachedMatches sample_cached); EvLastUpdated]
  /\ List.filter is_fetch
       (snd (loadTodaysMatches sample_parseDate sample_londonYMD
               (sample_load 500000 sample_respond) sample_cached))
     = map (request_of "day 0" "day 1") leagues.
Proof.
  destruct (cache_reuse_decision sample_parseDate sample_londonYMD
              (sample_load 5000 sample_respond) sample_cached eq_refl)
    as (_ & Hhit & _).
  destruct (cache_reuse_decision sample_parseDate sample_londonYMD
              (sample_load 500000 sample_respond) sample_cached eq_refl)
    as (_ & _ & Hmiss & _).
  split_and!.
  - reflexivity.
  - apply Hhit. split_and!; [discriminate | reflexivity | vm_compute; reflexivity].
  - apply Hmiss. intros (_ & _ & Hlt). vm_compute in Hlt. discriminate Hlt.
Defined.

Lemma cache_hit_leaves_state_witness :
  shouldUseCache (todayLondonISO sample_londonYMD 5000) 5000 sample_cached = true
  /\ fst (loadTodaysMatches sample_parseDate sample_londonYMD
            (sample_load 5000 sample_respond) sample_cached)
     = sample_cached.
Proof.
  split; [vm_compute; reflexivity|].
  apply (cache_hit_leaves_state sample_parseDate sample_londonYMD
           (sample_load 5000 sample_respond) sample_cached).
  vm_compute. reflexivity.
Defined.

Lemma rate_limited_league_skipped_witness :
  let batch := fst (fst (fetchBatch sample_parseDate sample_londonYMD
                           (sample_load 5000 sample_respond) "day 0" "day 1"
                           leagues initial_state)) in
  is_rate_limited (sample_load 5000 sample_respond) "day 0" "day 1" ("PL", 2021%Z)
  = true
  /\ hasRateLimit batch = true
  /\ allMatches batch = fst (normalized "BL1" sample_three initial_state)
  /\ length (allMatches batch) = 3%nat.
Proof.
  cbv zeta.
  pose proof (rate_limited_league_skipped sample_parseDate sample_londonYMD
                (sample_load 5000 sample_respond) "day 0" "day 1"
                leagues initial_state) as H.
  destruct (fetchBatch sample_parseDate sample_londonYMD
              (sample_load 5000 sample_respond) "day 0" "day 1" leagues initial_state)
    as [[b st'] tr].
  destruct H as (_ & _ & _ & Hsc).
  destruct (Hsc [("PL", 2021%Z)] [("CL", 2001%Z); ("PD", 2014%Z)]
              ("PL", 2021%Z) ("BL1", 2002%Z) 200%Z
              (sample_match 201 (Val 0%Z) (Val 0%Z) (Val "IN_PLAY"))
              (sample_match 202 Null Null (Val "TIMED"))
              (sample_match 203 (Val 3%Z) (Val 2%Z) (Val "FINISHED")))
    as (H1 & H2 & H3 & _).
  - reflexivity.
  - simpl. left. reflexivity.
  - vm_compute. reflexivity.
  - intros L [<-|[<-|[<-|[]]]]; vm_compute; reflexivity.
  - reflexivity.
  - reflexivity.
  - vm_compute. reflexivity.
  - simpl. split_and!; [vm_compute; reflexivity | exact H1 | exact H2 | exact H3].
Defined.

Lemma empty_state_iff_witness :
  isLoading initial_state = false
  /\ In EvShowNoMatches
       (snd (loadTodaysMatches sample_parseDate sample_londonYMD
               (sample_load 5000 sample_respond_nothing) initial_state))
  /\ In (EvDisplay (cachedMatches sample_cached))
       (snd (loadTodaysMatches sample_parseDate sample_londonYMD
               (sample_load 500000 sample_respond_nothing) sample_cached)).
Proof.
  destruct (empty_state_iff sample_parseDate sample_londonYMD
              (sample_load 5000 sample_respond_nothing) initial_state eq_refl)
    as [Hiff _].
  destruct (empty_state_iff sample_parseDate sample_londonYMD
              (sample_load 500000 sample_respond_nothing) sample_cached eq_refl)
    as [_ Hserve].
  split_and!.
  - reflexivity.
  - apply Hiff. split; [vm_compute; reflexivity|]. intros [H _]. apply H. reflexivity.
  - apply Hserve.
    + split; [discriminate | reflexivity].
    + vm_compute. reflexivity.
Defined.



Lemma day_rollover_resets_cache_witness :
  let inp := sample_tick 90000000 sample_respond in
  let st1 := fst (tickRollover sample_londonYMD inp (sample_cached, sample_sched)) in
  todayLondonISO sample_londonYMD (tick_at_today inp) <> lastLondonDate sample_sched
  /\ cachedMatches st1 = [] /\ cachedDate st1 = "" /\ lastFetchTime st1 = 0%Z
  /\ lastKnownScores st1 = lastKnownScores sample_cached.
Proof.
  cbv zeta.
  assert (Hchg : todayLondonISO sample_londonYMD
                   (tick_at_today (sample_tick 90000000 sample_respond))
                 <> lastLondonDate sample_sched)
    by (vm_compute; discriminate).
  destruct (day_rollover_resets_cache sample_parseDate sample_londonYMD
              (sample_tick 90000000 sample_respond) sample_cached sample_sched Hchg)
    as (H1 & H2 & H3 & _ & _ & H4 & _).
  split_and!; assumption.
Defined.

(** C6 as stated fails on the last-known maps: after the rollover of a
    tick on a new day they still hold what they held. *)
Lemma day_rollover_keeps_last_known :
  let inp := sample_tick 90000000 sample_respond in
  let st1 := fst (tickRollover sample_londonYMD inp (sample_cached, sample_sched)) in
  let st2 := fst (fst (tick sample_parseDate sample_londonYMD inp
                         (sample_cached, sample_sched))) in
  todayLondonISO sample_londonYMD (tick_at_today inp) <> lastLondonDate sample_sched
  /\ ~ (lastKnownScores st1 = ∅ /\ lastKnownStatus st1 = ∅)
  /\ lastKnownScores st1 !! "101" = Some (2%Z, 1%Z)
  /\ lastKnownStatus st1 !! "101" = Some (SStr "LIVE")
  /\ lastKnownScores st2 !! "101" = Some (2%Z, 1%Z).
Proof.
  cbv zeta. split_and!.
  - vm_compute. discriminate.
  - intros [H _]. apply (f_equal (fun m => m !! "101")) in H.
    vm_compute in H. discriminate H.
  - vm_compute. reflexivity.
  - vm_compute. reflexivity.
  - vm_compute. reflexivity.
Qed.

(** * Further properties *)

(** ** State reconciler *)

(** What the callback returns depends on the maps at the id of its match
    only. *)
Lemma normalizeMatch_fst_ext (leagueName : string) (m : RawMatch) (st st2 : State) :
  lastKnownScores st2 !! matchId m = lastKnownScores st !! matchId m ->
  lastKnownStatus st2 !! matchId m = lastKnownStatus st !! matchId m ->
  fst (normalizeMatch leagueName m st2) = fst (normalizeMatch leagueName m st)
  /\ lastKnownScores (snd (normalizeMatch leagueName m st2)) !! matchId m
     = lastKnownScores (snd (normalizeMatch leagueName m st)) !! matchId m
  /\ lastKnownStatus (snd (normalizeMatch leagueName m st2)) !! matchId m
     = lastKnownStatus (snd (normalizeMatch leagueName m st)) !! matchId m.
Proof.
  intros Hsc Hst.
  pose proof (normalizeMatch_score_spec leagueName m st) as Hs1.
  pose proof (normalizeMatch_score_spec leagueName m st2) as Hs2.
  pose proof (normalizeMatch_status_spec leagueName m st) as Ht1.
  pose proof (normalizeMatch_status_spec leagueName m st2) as Ht2.
  pose proof (normalizeMatch_fields leagueName m st) as (F1 & F2 & F3 & F4).
  pose proof (normalizeMatch_fields leagueName m st2) as (G1 & G2 & G3 & G4).
  cbv zeta in *.
  assert (Hscore :
            goals_home (fst (normalizeMatch leagueName m st2))
            = goals_home (fst (normalizeMatch leagueName m st))
            /\ goals_away (fst (normalizeMatch leagueName m st2))
               = goals_away (fst (normalizeMatch leagueName m st))
            /\ lastKnownScores (snd (normalizeMatch leagueName m st2)) !! matchId m
               = lastKnownScores (snd (normalizeMatch leagueName m st)) !! matchId m).
  { destruct (m_score_fullTime_home m) as [| |h], (m_score_fullTime_away m) as [| |a];
      try (destruct Hs1 as [E1 Hg1], Hs2 as [E2 Hg2];
           rewrite E1, E2; rewrite Hsc in Hg2;
           destruct (lastKnownScores st !! matchId m) as [[x y]|];
           intuition congruence).
    destruct Hs1 as (E1 & ? & ?), Hs2 as (E2 & ? & ?).
    rewrite E1, E2, !lookup_insert_eq. split_and!; congruence. }
  assert (Hstatus :
            fixture_status_short (fst (normalizeMatch leagueName m st2))
            = fixture_status_short (fst (normalizeMatch leagueName m st))
            /\ lastKnownStatus (snd (normalizeMatch leagueName m st2)) !! matchId m
               = lastKnownStatus (snd (normalizeMatch leagueName m st)) !! matchId m).
  { destruct (is_NS (mapFDStatusToShort (m_status m))).
    - destruct Ht1 as [E1 Hc1], Ht2 as [E2 Hc2].
      rewrite E1, E2. rewrite Hst in Hc2. split; congruence.
    - destruct Ht1 as [E1 Hc1], Ht2 as [E2 Hc2].
      rewrite E1, E2, !lookup_insert_eq. split; congruence. }
  destruct Hscore as (? & ? & ?), Hstatus as (? & ?).
  split_and!; try assumption.
  apply Match_ext; congruence.
Qed.

Lemma normalized_cons (leagueName : string) (m : RawMatch) (rest : list RawMatch)
    (st : State) :
  normalized leagueName (m :: rest) st
  = (fst (normalizeMatch leagueName m st)
       :: fst (normalized leagueName rest (snd (normalizeMatch leagueName m st))),
     snd (normalized leagueName rest (snd (normalizeMatch leagueName m st)))).
Proof.
  cbn [normalized]. destruct (normalizeMatch leagueName m st) as [c st1].
  cbn [fst snd]. destruct (normalized leagueName rest st1) as [cs st2]. reflexivity.
Qed.

Lemma normalized_independent_aux (leagueName : string) (ms : list RawMatch) :
  List.NoDup (map matchId ms) ->
  forall st,
    fst (normalized leagueName ms st)
    = map (fun m => fst (normalizeMatch leagueName m st)) ms
    /\ (forall m, In m ms ->
          lastKnownScores (snd (normalized leagueName ms st)) !! matchId m
          = lastKnownScores (snd (normalizeMatch leagueName m st)) !! matchId m
          /\ lastKnownStatus (snd (normalized leagueName ms st)) !! matchId m
             = lastKnownStatus (snd (normalizeMatch leagueName m st)) !! matchId m).
Proof.
  induction ms as [|m rest IH]; intros Hnd st.
  - simpl. split; [reflexivity | intros m []].
  - simpl in Hnd. apply NoDup_cons_iff in Hnd as [Hnotin Hnd].
    destruct (IH Hnd (snd (normalizeMatch leagueName m st))) as [IHout IHmap].
    rewrite normalized_cons. cbn [fst snd map].
    assert (Hother : forall m', In m' rest ->
              lastKnownScores (snd (normalizeMatch leagueName m st)) !! matchId m'
              = lastKnownScores st !! matchId m'
              /\ lastKnownStatus (snd (normalizeMatch leagueName m st)) !! matchId m'
                 = lastKnownStatus st !! matchId m').
    { intros m' Hin. apply normalizeMatch_other_keys.
      intros E. apply Hnotin. rewrite <- E. apply in_map. exact Hin. }
    split.
    + f_equal. rewrite IHout. apply map_ext_in. intros m' Hin.
      destruct (Hother m' Hin) as [H1 H2].
      apply (normalizeMatch_fst_ext leagueName m' st _ H1 H2).
    + intros m' [<-|Hin].
      * apply (normalized_other_keys leagueName rest _ (matchId m) Hnotin).
      * destruct (IHmap m' Hin) as [-> ->].
        destruct (Hother m' Hin) as [H1 H2].
        destruct (normalizeMatch_fst_ext leagueName m' st _ H1 H2) as (_ & ? & ?).
        split; assumption.
Qed.

(** X1: in a batch whose match ids are pairwise distinct, no match
    depends on another one: each element of the output is what the callback
    returns for that match alone on the maps as they were before the batch,
    and after the batch the maps hold, at the id of each match, what that
    match alone would have left there. *)
Theorem reconciliation_independent (leagueName : string) (ms : list RawMatch)
    (st : State) :
  List.NoDup (map matchId ms) ->
  fst (normalized leagueName ms st)
  = map (fun m => fst (normalizeMatch leagueName m st)) ms
  /\ (forall m, In m ms ->
        lastKnownScores (snd (normalized leagueName ms st)) !! matchId m
        = lastKnownScores (snd (normalizeMatch leagueName m st)) !! matchId m
        /\ lastKnownStatus (snd (normalized leagueName ms st)) !! matchId m
           = lastKnownStatus (snd (normalizeMatch leagueName m st)) !! matchId m)
  /\ (forall k, ~ In k (map matchId ms) ->
        lastKnownScores (snd (normalized leagueName ms st)) !! k
        = lastKnownScores st !! k
        /\ lastKnownStatus (snd (normalized leagueName ms st)) !! k
           = lastKnownStatus st !! k).
Proof.
  intros Hnd.
  destruct (normalized_independent_aux leagueName ms Hnd st) as [Hout Hmap].
  split_and!; [exact Hout | exact Hmap |].
  intros k Hk. apply normalized_other_keys. exact Hk.
Qed.


(** X3: what a batch with pairwise distinct ids has seen is what a later
    response with holes shows.  If a match of the batch came with both
    scores, a later match of the same id with a missing score is shown with
    those scores; if it came with a status other than ['NS'], a later match
    of the same id whose status resolves to ['NS'] is shown with that
    status. *)
Theorem last_known_facts_round_trip (leagueName later : string)
    (ms : list RawMatch) (m m' : RawMatch) (st : State) :
  List.NoDup (map matchId ms) ->
  In m ms ->
  matchId m' = matchId m ->
  let after := snd (normalized leagueName ms st) in
  let shown := fst (normalizeMatch later m' after) in
  (forall h a,
      m_score_fullTime_home m = Val h -> m_score_fullTime_away m = Val a ->
      is_nullish (m_score_fullTime_home m') || is_nullish (m_score_fullTime_away m')
      = true ->
      goals_home shown = Goals h /\ goals_away shown = Goals a)
  /\ (is_NS (mapFDStatusToShort (m_status m)) = false ->
      is_NS (mapFDStatusToShort (m_status m')) = true ->
      fixture_status_short shown = mapFDStatusToShort (m_status m)).
Proof.
  intros Hnd Hin Hid. cbv zeta.
  destruct (normalized_independent_aux leagueName ms Hnd st) as [_ Hmap].
  destruct (Hmap m Hin) as [Hsc Hst].
  split.
  - intros h a Hh Ha Hnull.
    pose proof (normalizeMatch_score_spec leagueName m st) as H1.
    cbv zeta in H1. rewrite Hh, Ha in H1. destruct H1 as (E & _).
    rewrite E, lookup_insert_eq in Hsc.
    pose proof (normalizeMatch_score_spec later m'
                  (snd (normalized leagueName ms st))) as H2.
    cbv zeta in H2. rewrite Hid, Hsc in H2.
    destruct (m_score_fullTime_home m'), (m_score_fullTime_away m');
      try discriminate Hnull; apply H2.
  - intros Hn Hn'.
    pose proof (normalizeMatch_status_spec leagueName m st) as H1.
    cbv zeta in H1. rewrite Hn in H1. destruct H1 as (E & _).
    rewrite E, lookup_insert_eq in Hst.
    pose proof (normalizeMatch_status_spec later m'
                  (snd (normalized leagueName ms st))) as H2.
    cbv zeta in H2. rewrite Hn', Hid, Hst in H2. destruct H2 as [_ ->].
    rewrite (mapFDStatusToShort_truthy (m_status m)). reflexivity.
Qed.

(** Every match the callback builds is well formed, whatever the state. *)
Lemma normalizeMatch_match_wf (leagueName : string) (m : RawMatch) (st : State) :
  match_wf (fst (normalizeMatch leagueName m st)).
Proof.
  pose proof (normalizeMatch_score_spec leagueName m st) as Hs.
  pose proof (normalizeMatch_status_spec leagueName m st) as Ht.
  pose proof (normalizeMatch_fields leagueName m st) as (_ & F2 & F3 & _).
  pose proof (mapFDStatusToShort_truthy (m_status m)) as Hcur.
  cbv zeta in *.
  assert (Hname : forall t, name (team_view t) <> "").
  { intros t. unfold team_view, str_or. simpl.
    destruct (chain t team_name) as [| |s]; try discriminate.
    destruct (String.eqb_spec s ""); [discriminate | assumption]. }
  unfold match_wf. rewrite F2, F3. split_and!; try apply Hname.
  - assert (H' : (exists h a,
                     goals_home (fst (normalizeMatch leagueName m st)) = Goals h
                     /\ goals_away (fst (normalizeMatch leagueName m st)) = Goals a)
                 \/ (goals_home (fst (normalizeMatch leagueName m st)) = Dash
                     /\ goals_away (fst (normalizeMatch leagueName m st)) = Dash)).
    { destruct (m_score_fullTime_home m), (m_score_fullTime_away m);
        destruct Hs as [_ Hg];
        try (destruct (lastKnownScores st !! matchId m) as [[x y]|]); eauto. }
    destruct H' as [(h & a & -> & ->)|[-> ->]]; split; congruence.
  - destruct (is_NS (mapFDStatusToShort (m_status m))); destruct Ht as [_ ->];
      [|exact Hcur].
    destruct (lastKnownStatus st !! matchId m) as [p|]; [|exact Hcur].
    destruct (status_truthy p) eqn:Hp; [exact Hp | exact Hcur].
Qed.

(** With a plain provider status and a map of short codes, the status
    shown is a short code and the map stays one of short codes. *)
Lemma normalizeMatch_canonical (leagueName : string) (m : RawMatch) (st : State) :
  plain_status m = true ->
  status_map_canonical st ->
  is_canonical (fixture_status_short (fst (normalizeMatch leagueName m st))) = true
  /\ status_map_canonical (snd (normalizeMatch leagueName m st)).
Proof.
  intros Hplain Hcan.
  pose proof (normalizeMatch_status_spec leagueName m st) as Ht. cbv zeta in Ht.
  assert (Hcur : is_canonical (mapFDStatusToShort (m_status m)) = true).
  { apply mapFDStatusToShort_canonical. unfold plain_status in Hplain.
    destruct (is_inherited (field_to_string (m_status m))); [discriminate|reflexivity]. }
  destruct (is_NS (mapFDStatusToShort (m_status m))); destruct Ht as [Emap ->].
  - split.
    + destruct (lastKnownStatus st !! matchId m) as [p|] eqn:Hp; [|exact Hcur].
      destruct (status_truthy p); [|exact Hcur]. apply (Hcan _ _ Hp).
    + unfold status_map_canonical. rewrite Emap. exact Hcan.
  - split; [exact Hcur|].
    unfold status_map_canonical. rewrite Emap. intros k v.
    rewrite lookup_insert. destruct (decide (matchId m = k)); simpl.
    + intros [= <-]. exact Hcur.
    + apply Hcan.
Qed.

(** A property of the state kept by the callback on the matches of a
    list, and a property of the matches it then builds, hold along the
    whole list. *)
Lemma normalized_invariant (I : State -> Prop) (Q : Match -> Prop)
    (leagueName : string) (ms : list RawMatch) :
  (forall m st, In m ms -> I st ->
                Q (fst (normalizeMatch leagueName m st))
                /\ I (snd (normalizeMatch leagueName m st))) ->
  forall st, I st ->
             Forall Q (fst (normalized leagueName ms st))
             /\ I (snd (normalized leagueName ms st)).
Proof.
  induction ms as [|m rest IH]; intros Hstep st HI.
  - simpl. split; [constructor | exact HI].
  - rewrite normalized_cons. cbn [fst snd].
    destruct (Hstep m st (or_introl eq_refl) HI) as [HQ HI1].
    destruct (IH (fun m' st' Hin => Hstep m' st' (or_intror Hin))
                 (snd (normalizeMatch leagueName m st)) HI1) as [HQs HI2].
    split; [constructor; assumption | exact HI2].
Qed.

Section FurtherProperties.

Variable parseDate : nullable string -> option Z.
Variable londonYMD : Z -> string.

(** ** Fetch orchestrator *)

Lemma filter_today_throws (today : string) (raw : list RawMatch) :
  filter_today parseDate londonYMD today raw = Throw
  <-> exists m, In m raw /\ parseDate (m_utcDate m) = None.
Proof.
  induction raw as [|m rest IH]; simpl.
  - split; [discriminate | intros (m & [] & _)].
  - destruct (parseDate (m_utcDate m)) as [t|] eqn:E.
    + destruct (filter_today parseDate londonYMD today rest) as [kept|].
      * split; [discriminate|].
        intros (m' & [<-|Hin] & Hm'); [congruence|].
        assert (H : @Normal (list RawMatch) kept = Throw) by (apply IH; eauto).
        discriminate H.
      * split; [|reflexivity]. intros _.
        destruct (proj1 IH eq_refl) as (m' & Hin & Hm'). eauto.
    + split; [|reflexivity]. intros _. eauto.
Qed.

Lemma filter_today_kept (today : string) (raw fd : list RawMatch) :
  filter_today parseDate londonYMD today raw = Normal fd ->
  forall m, In m fd <-> In m raw /\ dated parseDate londonYMD today (m_utcDate m).
Proof.
  revert fd. induction raw as [|m rest IH]; simpl; intros fd H.
  - injection H as <-. intros m. simpl. tauto.
  - destruct (parseDate (m_utcDate m)) as [t|] eqn:E; [|discriminate].
    destruct (filter_today parseDate londonYMD today rest) as [kept|]; [|discriminate].
    injection H as <-. specialize (IH kept eq_refl). intros m'.
    destruct (String.eqb_spec (londonYMD t) today) as [Ht|Ht]; simpl; rewrite IH.
    + split.
      * intros [<-|[Hin Hd]]; [|tauto]. split; [tauto|]. exists t. auto.
      * intros [[<-|Hin] Hd]; tauto.
    + split; [tauto|].
      intros [[<-|Hin] Hd]; [|tauto].
      destruct Hd as (t' & Ht' & Hday). congruence.
Qed.

(** The two ways an iteration can end: nothing is added and the state is
    as before, or the response held matches of today and their
    reconciliation is appended. *)
Lemma leagueIteration_cases (inp : LoadInput) (today tomorrow : string)
    (leagueName : string) (leagueCode : Z) (b : Batch) (st : State)
    (tr : list Event) :
  let '(b', st', _) :=
    leagueIteration parseDate londonYMD inp today tomorrow (leagueName, leagueCode)
      (b, st, tr) in
  (allMatches b' = allMatches b /\ totalMatches b' = totalMatches b /\ st' = st)
  \/ (exists status raw fd,
         respond inp leagueCode today tomorrow = Response status (BodyMatches raw)
         /\ res_ok status = true
         /\ filter_today parseDate londonYMD today raw = Normal fd
         /\ fd <> []
         /\ allMatches b' = (allMatches b ++ fst (normalized leagueName fd st))%list
         /\ totalMatches b' = (totalMatches b + length fd)%nat
         /\ st' = snd (normalized leagueName fd st)).
Proof.
  unfold leagueIteration, leagueBody.
  destruct (respond inp leagueCode today tomorrow) as [|status body] eqn:Hresp;
    [left; auto|].
  destruct (status =? 429)%Z; [left; simpl; auto|].
  destruct (res_ok status) eqn:Hok; simpl; [|left; auto].
  destruct body as [| |raw]; simpl; [left; auto | left; auto |].
  destruct (filter_today parseDate londonYMD today raw) as [fd|] eqn:Hf; [|left; auto].
  pose proof (normalized_length leagueName fd st) as Hlen.
  destruct (normalized leagueName fd st) as [cs st1] eqn:En. simpl in Hlen.
  destruct cs as [|c cs]; simpl.
  - left. destruct fd; [|discriminate Hlen]. simpl in En. injection En as <-. auto.
  - right. exists status, raw, fd. rewrite ?En. simpl in Hlen |- *.
    split_and!; auto; try lia.
    intros ->. discriminate Hlen.
Qed.

(** A property of the state and a property of the matches that the
    callback keeps for the matches of today found in the responses hold
    for the whole batch. *)
Lemma fetch_fold_invariant (inp : LoadInput) (today tomorrow : string)
    (R : RawMatch -> Prop) (I : State -> Prop) (Q : Match -> Prop) :
  (forall leagueCode status raw m,
      respond inp leagueCode today tomorrow = Response status (BodyMatches raw) ->
      In m raw -> R m) ->
  (forall leagueName m st,
      R m -> dated parseDate londonYMD today (m_utcDate m) -> I st ->
      Q (fst (normalizeMatch leagueName m st))
      /\ I (snd (normalizeMatch leagueName m st))) ->
  forall (ls : list (string * Z)) (b : Batch) (st : State) (tr : list Event),
    I st -> Forall Q (allMatches b) ->
    let '(b', st', _) :=
      fold_left (fun acc league =>
                   leagueIteration parseDate londonYMD inp today tomorrow league acc)
                ls (b, st, tr) in
    I st' /\ Forall Q (allMatches b').
Proof.
  intros HR Hstep. induction ls as [|[leagueName leagueCode] rest IH];
    intros b st tr HI HQ.
  - simpl. auto.
  - cbn [fold_left].
    pose proof (leagueIteration_cases inp today tomorrow leagueName leagueCode b st tr)
      as Hc.
    destruct (leagueIteration parseDate londonYMD inp today tomorrow
                (leagueName, leagueCode) (b, st, tr)) as [[b1 st1] tr1].
    destruct Hc as [(Ea & _ & ->)|(status & raw & fd & Hresp & _ & Hf & _ & Ea & _ & ->)].
    + apply IH; [exact HI | rewrite Ea; exact HQ].
    + destruct (normalized_invariant I Q leagueName fd) with (st := st)
        as [HQ1 HI1]; [|exact HI|].
      { intros m st0 Hin HI0.
        apply (filter_today_kept today raw fd Hf) in Hin as [Hin Hd].
        apply Hstep; [eapply HR; eauto | exact Hd | exact HI0]. }
      apply IH; [exact HI1|]. rewrite Ea. apply Forall_app. auto.
Qed.

Lemma batch_today_aux (inp : LoadInput) (today tomorrow : string)
    (ls : list (string * Z)) (st : State) :
  let b := fst (fst (fetchBatch parseDate londonYMD inp today tomorrow ls st)) in
  Forall (fun c => dated parseDate londonYMD today (fixture_date c)) (allMatches b).
Proof.
  cbv zeta. unfold fetchBatch.
  pose proof (fetch_fold_invariant inp today tomorrow (fun _ => True) (fun _ => True)
                (fun c => dated parseDate londonYMD today (fixture_date c))) as Hinv.
  specialize (Hinv ltac:(intros; exact Logic.I)).
  specialize (Hinv ltac:(intros leagueName m st0 _ Hd _; split; [|exact Logic.I];
                         rewrite (proj2 (proj2 (proj2
                                    (normalizeMatch_fields leagueName m st0))));
                         exact Hd)).
  specialize (Hinv ls empty_batch st [] Logic.I ltac:(constructor)).
  destruct (fold_left _ ls (empty_batch, st, [])) as [[b st'] tr].
  apply Hinv.
Qed.

(** X4: a batch holds only matches of today, whatever the provider sent
    inside the requested window, and [totalMatches] is the number of
    matches it holds. *)
Theorem batch_holds_matches_of_today (inp : LoadInput) (today tomorrow : string)
    (ls : list (string * Z)) (st : State) :
  let b := fst (fst (fetchBatch parseDate londonYMD inp today tomorrow ls st)) in
  Forall (fun c => dated parseDate londonYMD today (fixture_date c)) (allMatches b)
  /\ totalMatches b = length (allMatches b).
Proof.
  cbv zeta. split; [apply batch_today_aux|].
  unfold fetchBatch.
  pose proof (fetch_fold_spec parseDate londonYMD inp today tomorrow ls
                empty_batch st []) as Hspec.
  destruct (fold_left _ ls (empty_batch, st, [])) as [[b st'] tr].
  destruct Hspec as (_ & _ & Hcount & _). apply Hcount. reflexivity.
Qed.

(** X5: one match with an invalid date drops its whole league: when a
    successful response holds a match whose [utcDate] does not parse, the
    iteration adds nothing to the batch and leaves the state alone, also
    when the other matches of the response are of today. *)
Theorem invalid_date_drops_league (inp : LoadInput) (today tomorrow : string)
    (leagueName : string) (leagueCode status : Z) (raw : list RawMatch)
    (m : RawMatch) (b : Batch) (st : State) (tr : list Event) :
  respond inp leagueCode today tomorrow = Response status (BodyMatches raw) ->
  res_ok status = true ->
  In m raw ->
  parseDate (m_utcDate m) = None ->
  leagueIteration parseDate londonYMD inp today tomorrow (leagueName, leagueCode)
    (b, st, tr)
  = (b, st, (tr ++ [request_of today tomorrow (leagueName, leagueCode)])%list).
Proof.
  intros Hresp Hok Hin Hbad.
  assert (Hthrow : filter_today parseDate londonYMD today raw = Throw)
    by (apply filter_today_throws; eauto).
  unfold leagueIteration, leagueBody, request_of. rewrite Hresp.
  assert (Hs : (status =? 429)%Z = false).
  { unfold res_ok in Hok. apply andb_true_iff in Hok as [H1 H2].
    apply Z.eqb_neq. lia. }
  rewrite Hs, Hok. simpl. rewrite Hthrow. reflexivity.
Qed.

(** ** Cache layer *)

(** The state of the batch inside a call: only the two maps differ from
    the state at entry. *)
Lemma fetchBatch_frame (inp : LoadInput) (today tomorrow : string)
    (ls : list (string * Z)) (st : State) :
  let '(b, st1, tr) := fetchBatch parseDate londonYMD inp today tomorrow ls st in
  tr = map (request_of today tomorrow) ls
  /\ totalMatches b = length (allMatches b)
  /\ isLoading st1 = isLoading st /\ activeLeagues st1 = activeLeagues st
  /\ lastFetchTime st1 = lastFetchTime st /\ cachedMatches st1 = cachedMatches st
  /\ cachedDate st1 = cachedDate st.
Proof.
  unfold fetchBatch.
  pose proof (fetch_fold_spec parseDate londonYMD inp today tomorrow ls
                empty_batch st []) as H.
  destruct (fold_left _ ls (empty_batch, st, [])) as [[b st1] tr].
  destruct H as (Ht & _ & Hc & (? & ? & ? & ? & ?) & _).
  split_and!; auto.
Qed.

(** Every list a call shows is the cache as the call leaves it. *)
Lemma loadTodaysMatches_display (inp : LoadInput) (st : State) (ms : list Match) :
  In (EvDisplay ms) (snd (loadTodaysMatches parseDate londonYMD inp st)) ->
  ms = cachedMatches (fst (loadTodaysMatches parseDate londonYMD inp st)).
Proof.
  destruct (isLoading st) eqn:Hload.
  { unfold loadTodaysMatches. rewrite Hload. simpl. tauto. }
  destruct (shouldUseCache (todayLondonISO londonYMD (at_today inp)) (at_now inp) st)
    eqn:E.
  { rewrite (loadTodaysMatches_hit parseDate londonYMD inp st Hload E). simpl.
    intros [H|[H|[H|[]]]]; congruence. }
  pose proof (loadTodaysMatches_fetch parseDate londonYMD inp st Hload E) as Hf.
  cbv zeta in Hf.
  destruct (fetchBatch _ _ _ _ _ _ _) as [[b st1] trf].
  destruct Hf as (Ht & _ & _ & _ & _ & Ho).
  assert (Hreq : ~ In (EvDisplay ms) trf).
  { rewrite Ht. apply requests_not_shown. reflexivity. }
  destruct Ho as [(_ & -> & -> & _)|[(_ & _ & -> & -> & _)|(_ & _ & -> & _)]];
    intros Hin; apply in_app_or in Hin as [Hin|Hin]; try contradiction;
    simpl in Hin; repeat (destruct Hin as [H|Hin]; [congruence|]); destruct Hin.
Qed.

(** X6: whatever a call shows is what it leaves in the cache: every list
    handed to [displayMatches] is [cachedMatches] as it stands when the
    call returns. *)
Theorem displayed_list_is_cache (inp : LoadInput) (st : State) (ms : list Match) :
  In (EvDisplay ms) (snd (loadTodaysMatches parseDate londonYMD inp st)) ->
  ms = cachedMatches (fst (loadTodaysMatches parseDate londonYMD inp st)).
Proof. apply loadTodaysMatches_display. Qed.

(** The cache after a call: untouched, or replaced by a batch with matches
    and stamped with the date and the time of the call. *)
Lemma loadTodaysMatches_cache (inp : LoadInput) (st : State) :
  let today := todayLondonISO londonYMD (at_today inp) in
  let tomorrow := tomorrowLondonISO londonYMD (at_tomorrow inp) in
  let st' := fst (loadTodaysMatches parseDate londonYMD inp st) in
  let '(b, st1, _) :=
    fetchBatch parseDate londonYMD inp today tomorrow leagues
      (with_isLoading true st) in
  (cachedMatches st' = cachedMatches st /\ cachedDate st' = cachedDate st
   /\ lastFetchTime st' = lastFetchTime st
   /\ (st' = st
       \/ lastKnownScores st' = lastKnownScores st1
          /\ lastKnownStatus st' = lastKnownStatus st1))
  \/ (isLoading st = false
      /\ shouldUseCache today (at_now inp) st = false
      /\ (0 < totalMatches b)%nat
      /\ cachedMatches st' = allMatches b /\ cachedDate st' = today
      /\ lastFetchTime st' = at_now inp
      /\ lastKnownScores st' = lastKnownScores st1
      /\ lastKnownStatus st' = lastKnownStatus st1).
Proof.
  cbv zeta.
  destruct (isLoading st) eqn:Hload.
  { destruct (fetchBatch _ _ _ _ _ _ _) as [[b st1] trf].
    left. unfold loadTodaysMatches. rewrite Hload. simpl. auto 6. }
  destruct (shouldUseCache (todayLondonISO londonYMD (at_today inp)) (at_now inp) st)
    eqn:E.
  { destruct (fetchBatch _ _ _ _ _ _ _) as [[b st1] trf].
    left. rewrite (loadTodaysMatches_hit parseDate londonYMD inp st Hload E).
    simpl. auto 6. }
  pose proof (loadTodaysMatches_fetch parseDate londonYMD inp st Hload E) as Hf.
  cbv zeta in Hf.
  destruct (fetchBatch _ _ _ _ _ _ _) as [[b st1] trf].
  destruct Hf as (_ & _ & _ & Hsc & Hst & Ho).
  destruct Ho as [(Hpos & _ & ? & ? & ?)|[(_ & _ & _ & ? & ? & ?)|(_ & _ & _ & ? & ? & ?)]].
  - right. split_and!; auto.
  - left. split_and!; auto.
  - left. split_and!; auto.
Qed.

Lemma loadTodaysMatches_requests (inp : LoadInput) (st : State) :
  isLoading st = false ->
  shouldUseCache (todayLondonISO londonYMD (at_today inp)) (at_now inp) st = false ->
  List.filter is_fetch (snd (loadTodaysMatches parseDate londonYMD inp st))
  = map (request_of (todayLondonISO londonYMD (at_today inp))
           (tomorrowLondonISO londonYMD (at_tomorrow inp))) leagues.
Proof.
  intros Hload E.
  pose proof (loadTodaysMatches_fetch parseDate londonYMD inp st Hload E) as Hf.
  cbv zeta in Hf.
  destruct (fetchBatch _ _ _ _ _ _ _) as [[b st1] trf].
  destruct Hf as (-> & _ & _ & _ & _ & [Ho|[Ho|Ho]]).
  - destruct Ho as (_ & -> & _). apply requests_are_fetches. reflexivity.
  - destruct Ho as (_ & _ & -> & _). apply requests_are_fetches. reflexivity.
  - destruct Ho as (_ & _ & -> & _). apply requests_are_fetches. reflexivity.
Qed.

Lemma loadTodaysMatches_isLoading (inp : LoadInput) (st : State) :
  isLoading (fst (loadTodaysMatches parseDate londonYMD inp st)) = isLoading st.
Proof.
  unfold loadTodaysMatches. destruct (isLoading st) eqn:E; [exact E|].
  destruct (loadBody _ _ _ _) as [st' tr]. reflexivity.
Qed.

(** X7: a second call inside the cache window sends nothing.  After a
    call that fetched a batch with matches, a call on the same London day
    and less than [CACHE_DURATION] later shows the same list again, sends
    no request and changes nothing. *)
Theorem second_call_served_from_cache (first second : LoadInput) (st : State) :
  let today := todayLondonISO londonYMD (at_today first) in
  let tomorrow := tomorrowLondonISO londonYMD (at_tomorrow first) in
  let b := fst (fst (fetchBatch parseDate londonYMD first today tomorrow leagues
                       (with_isLoading true st))) in
  let st1 := fst (loadTodaysMatches parseDate londonYMD first st) in
  isLoading st = false ->
  shouldUseCache today (at_now first) st = false ->
  (0 < totalMatches b)%nat ->
  todayLondonISO londonYMD (at_today second) = today ->
  (at_now second - at_now first < CACHE_DURATION)%Z ->
  loadTodaysMatches parseDate londonYMD second st1
  = (st1, [EvHideNoMatches; EvDisplay (allMatches b); EvLastUpdated]).
Proof.
  cbv zeta. intros Hload E Hpos Hday Hclock.
  pose proof (loadTodaysMatches_fetch parseDate londonYMD first st Hload E) as Hf.
  pose proof (fetchBatch_frame first (todayLondonISO londonYMD (at_today first))
                (tomorrowLondonISO londonYMD (at_tomorrow first)) leagues
                (with_isLoading true st)) as Hfr.
  cbv zeta in Hf.
  destruct (fetchBatch _ _ _ _ _ _ _) as [[b st1] trf]. cbn [fst] in *.
  destruct Hfr as (_ & Hcount & _).
  destruct Hf as (_ & Hl & _ & _ & _ & Ho).
  destruct Ho as [(_ & _ & Hcm & Hcd & Hft)|[(Hz & _)|(Hz & _)]]; try lia.
  rewrite loadTodaysMatches_hit; [rewrite Hcm; reflexivity | exact Hl |].
  apply (shouldUseCache_iff londonYMD). rewrite Hcm, Hcd, Hft, Hday.
  split_and!; [|reflexivity | unfold CACHE_DURATION in Hclock; lia].
  intros Hnil. rewrite Hnil in Hcount. simpl in Hcount. lia.
Qed.

(** X8: an empty result is not remembered.  When nothing is cached and
    the batch brings no match, the call leaves the cache empty and
    [lastFetchTime] as it was, so every later call, however soon, requests
    all leagues again. *)
Theorem empty_batch_not_cached (inp : LoadInput) (st : State) :
  let today := todayLondonISO londonYMD (at_today inp) in
  let tomorrow := tomorrowLondonISO londonYMD (at_tomorrow inp) in
  let b := fst (fst (fetchBatch parseDate londonYMD inp today tomorrow leagues
                       (with_isLoading true st))) in
  let st1 := fst (loadTodaysMatches parseDate londonYMD inp st) in
  isLoading st = false ->
  cachedMatches st = [] ->
  totalMatches b = 0%nat ->
  cachedMatches st1 = []
  /\ lastFetchTime st1 = lastFetchTime st
  /\ In EvShowNoMatches (snd (loadTodaysMatches parseDate londonYMD inp st))
  /\ (forall later : LoadInput,
         List.filter is_fetch (snd (loadTodaysMatches parseDate londonYMD later st1))
         = map (request_of (todayLondonISO londonYMD (at_today later))
                  (tomorrowLondonISO londonYMD (at_tomorrow later))) leagues).
Proof.
  cbv zeta. intros Hload Hemp Hzero.
  assert (E : shouldUseCache (todayLondonISO londonYMD (at_today inp)) (at_now inp) st
              = false).
  { unfold shouldUseCache. rewrite Hemp. reflexivity. }
  pose proof (loadTodaysMatches_fetch parseDate londonYMD inp st Hload E) as Hf.
  cbv zeta in Hf.
  destruct (fetchBatch _ _ _ _ _ _ _) as [[b st1] trf]. cbn [fst] in *.
  destruct Hf as (_ & Hl & _ & _ & _ & Ho).
  destruct Ho as [(Hpos & _)|[(_ & [Hne _] & _)|(_ & _ & Htr & Hcm & _ & Hft)]];
    [lia | congruence |].
  rewrite Hemp in Hcm. split_and!; auto.
  - rewrite Htr. apply in_or_app. right. simpl. tauto.
  - intros later. apply loadTodaysMatches_requests; [exact Hl|].
    unfold shouldUseCache. rewrite Hcm. reflexivity.
Qed.

(** X9: a cache of another day is never shown.  When [cachedDate] is not
    today, a call that is not already loading shows a list only if the
    batch brought matches, and then it is that batch. *)
Theorem stale_day_cache_not_shown (inp : LoadInput) (st : State) (ms : list Match) :
  let today := todayLondonISO londonYMD (at_today inp) in
  let tomorrow := tomorrowLondonISO londonYMD (at_tomorrow inp) in
  let b := fst (fst (fetchBatch parseDate londonYMD inp today tomorrow leagues
                       (with_isLoading true st))) in
  isLoading st = false ->
  cachedDate st <> today ->
  In (EvDisplay ms) (snd (loadTodaysMatches parseDate londonYMD inp st)) ->
  (0 < totalMatches b)%nat /\ ms = allMatches b.
Proof.
  cbv zeta. intros Hload Hday.
  assert (E : shouldUseCache (todayLondonISO londonYMD (at_today inp)) (at_now inp) st
              = false).
  { destruct (shouldUseCache _ _ st) eqn:E; [|reflexivity].
    apply (shouldUseCache_iff londonYMD) in E as (_ & E & _). contradiction. }
  pose proof (loadTodaysMatches_fetch parseDate londonYMD inp st Hload E) as Hf.
  cbv zeta in Hf.
  destruct (fetchBatch _ _ _ _ _ _ _) as [[b st1] trf]. cbn [fst] in *.
  destruct Hf as (Ht & _ & _ & _ & _ & Ho).
  assert (Hreq : ~ In (EvDisplay ms) trf).
  { rewrite Ht. apply requests_not_shown. reflexivity. }
  destruct Ho as [(Hpos & -> & _)|[(_ & [_ Hd] & _)|(_ & _ & -> & _)]];
    [|contradiction|].
  - intros Hin. apply in_app_or in Hin as [Hin|Hin]; [contradiction|].
    simpl in Hin. destruct Hin as [H|[H|[H|[]]]]; try discriminate H.
    injection H as <-. auto.
  - intros Hin. apply in_app_or in Hin as [Hin|Hin]; [contradiction|].
    simpl in Hin. destruct Hin as [H|[H|[]]]; discriminate H.
Qed.

(** An iteration on a provider that answers like [inp] except that it
    says [503] where [inp] says [429]: same matches, same state. *)
Lemma leagueIteration_quiet (inp quiet : LoadInput) (today tomorrow : string)
    (league : string * Z) (b b0 : Batch) (st : State) (tr : list Event) :
  (forall code dateFrom dateTo,
      respond quiet code dateFrom dateTo
      = match respond inp code dateFrom dateTo with
        | Response status body =>
            if (status =? 429)%Z then Response 503 body else Response status body
        | NetworkError => NetworkError
        end) ->
  allMatches b0 = allMatches b -> totalMatches b0 = totalMatches b ->
  let '(b0', st0', tr0') :=
    leagueIteration parseDate londonYMD quiet today tomorrow league (b0, st, tr) in
  let '(b', st', tr') :=
    leagueIteration parseDate londonYMD inp today tomorrow league (b, st, tr) in
  allMatches b0' = allMatches b' /\ totalMatches b0' = totalMatches b'
  /\ st0' = st' /\ tr0' = tr'.
Proof.
  intros Hq Ha Hc. destruct league as [leagueName leagueCode].
  unfold leagueIteration, leagueBody. rewrite Hq.
  destruct (respond inp leagueCode today tomorrow) as [|status body]; [auto|].
  destruct (Z.eqb_spec status 429) as [->|Hs]; [simpl; auto|].
  apply Z.eqb_neq in Hs. rewrite Hs.
  destruct (res_ok status); simpl; [|auto].
  destruct body as [| |raw]; simpl; auto.
  destruct (filter_today parseDate londonYMD today raw) as [fd|]; auto.
  destruct (normalized leagueName fd st) as [cs st1]. destruct cs; simpl; auto.
  rewrite Ha, Hc. auto.
Qed.

Lemma fetch_fold_quiet (inp quiet : LoadInput) (today tomorrow : string)
    (ls : list (string * Z)) :
  (forall code dateFrom dateTo,
      respond quiet code dateFrom dateTo
      = match respond inp code dateFrom dateTo with
        | Response status body =>
            if (status =? 429)%Z then Response 503 body else Response status body
        | NetworkError => NetworkError
        end) ->
  forall (b b0 : Batch) (st : State) (tr : list Event),
    allMatches b0 = allMatches b -> totalMatches b0 = totalMatches b ->
    let '(b0', st0', tr0') :=
      fold_left (fun acc league =>
                   leagueIteration parseDate londonYMD quiet today tomorrow league acc)
                ls (b0, st, tr) in
    let '(b', st', tr') :=
      fold_left (fun acc league =>
                   leagueIteration parseDate londonYMD inp today tomorrow league acc)
                ls (b, st, tr) in
    allMatches b0' = allMatches b' /\ totalMatches b0' = totalMatches b'
    /\ st0' = st' /\ tr0' = tr'.
Proof.
  intros Hq. induction ls as [|league rest IH]; intros b b0 st tr Ha Hc.
  - simpl. auto.
  - cbn [fold_left].
    pose proof (leagueIteration_quiet inp quiet today tomorrow league b b0 st tr
                  Hq Ha Hc) as H1.
    destruct (leagueIteration parseDate londonYMD quiet today tomorrow league (b0, st, tr))
      as [[b2 st2] tr2].
    destruct (leagueIteration parseDate londonYMD inp today tomorrow league (b, st, tr))
      as [[b1 st1] tr1].
    destruct H1 as (Ha1 & Hc1 & -> & ->).
    apply IH; assumption.
Qed.

(** X10: the rate-limit flag changes nothing that can be observed.  A
    call against a provider that answers [503] wherever another one
    answers [429] shows the same things, sends the same requests and
    leaves the same state: after a batch without matches the cache is
    served, or the message shown, by the same test in both cases. *)
Theorem rate_limit_flag_unobservable (inp quiet : LoadInput) (st : State) :
  at_today quiet = at_today inp ->
  at_tomorrow quiet = at_tomorrow inp ->
  at_now quiet = at_now inp ->
  (forall code dateFrom dateTo,
      respond quiet code dateFrom dateTo
      = match respond inp code dateFrom dateTo with
        | Response status body =>
            if (status =? 429)%Z then Response 503 body else Response status body
        | NetworkError => NetworkError
        end) ->
  loadTodaysMatches parseDate londonYMD quiet st
  = loadTodaysMatches parseDate londonYMD inp st.
Proof.
  intros E1 E2 E3 Hq. unfold loadTodaysMatches, loadBody.
  destruct (isLoading st); [reflexivity|].
  rewrite E1, E2, E3.
  destruct (shouldUseCache _ _ _); [reflexivity|].
  pose proof (fetch_fold_quiet inp quiet (todayLondonISO londonYMD (at_today inp))
                (tomorrowLondonISO londonYMD (at_tomorrow inp)) leagues Hq
                empty_batch empty_batch (with_isLoading true st) []
                eq_refl eq_refl) as H.
  unfold fetchBatch.
  destruct (fold_left _ leagues (empty_batch, with_isLoading true st, []))
    as [[b0 st0] tr0].
  destruct (fold_left _ leagues (empty_batch, with_isLoading true st, []))
    as [[b st1] tr1].
  destruct H as (Ha & Hc & -> & ->). rewrite Ha, Hc.
  destruct (0 <? totalMatches b)%nat; [reflexivity|].
  destruct ((0 <? length (cachedMatches st1))%nat
            && String.eqb (cachedDate st1) (todayLondonISO londonYMD (at_today inp)))
    eqn:Eu.
  - rewrite <- !andb_assoc, Eu.
    destruct (hasRateLimit b0), (hasRateLimit b); reflexivity.
  - rewrite <- !andb_assoc, Eu, !andb_false_r. reflexivity.
Qed.

(** A list is shown only with the cache stamped with today. *)
Lemma loadTodaysMatches_display_date (inp : LoadInput) (st : State) (ms : list Match) :
  In (EvDisplay ms) (snd (loadTodaysMatches parseDate londonYMD inp st)) ->
  cachedDate (fst (loadTodaysMatches parseDate londonYMD inp st))
  = todayLondonISO londonYMD (at_today inp).
Proof.
  destruct (isLoading st) eqn:Hload.
  { unfold loadTodaysMatches. rewrite Hload. simpl. tauto. }
  destruct (shouldUseCache (todayLondonISO londonYMD (at_today inp)) (at_now inp) st)
    eqn:E.
  { rewrite (loadTodaysMatches_hit parseDate londonYMD inp st Hload E). simpl.
    intros _. apply (shouldUseCache_iff londonYMD) in E. tauto. }
  pose proof (loadTodaysMatches_fetch parseDate londonYMD inp st Hload E) as Hf.
  cbv zeta in Hf.
  destruct (fetchBatch _ _ _ _ _ _ _) as [[b st1] trf].
  destruct Hf as (Ht & _ & _ & _ & _ & Ho).
  assert (Hreq : ~ In (EvDisplay ms) trf).
  { rewrite Ht. apply requests_not_shown. reflexivity. }
  destruct Ho as [(_ & _ & _ & -> & _)|[(_ & [_ Hd] & _ & _ & -> & _)|(_ & _ & -> & _)]];
    [reflexivity | intros _; exact Hd |].
  intros Hin. apply in_app_or in Hin as [Hin|Hin]; [contradiction|].
  simpl in Hin. destruct Hin as [H|[H|[]]]; discriminate H.
Qed.

(** A property of the maps and a property of the matches kept by the
    callback hold for the state and the cache a call leaves. *)
Lemma loadTodaysMatches_invariant (inp : LoadInput) (st : State)
    (R : RawMatch -> Prop) (I : State -> Prop) (Q : Match -> Prop) :
  (forall s t, lastKnownScores s = lastKnownScores t ->
               lastKnownStatus s = lastKnownStatus t -> I s -> I t) ->
  (forall leagueCode status raw m,
      respond inp leagueCode (todayLondonISO londonYMD (at_today inp))
        (tomorrowLondonISO londonYMD (at_tomorrow inp))
      = Response status (BodyMatches raw) ->
      In m raw -> R m) ->
  (forall leagueName m s,
      R m -> dated parseDate londonYMD (todayLondonISO londonYMD (at_today inp))
               (m_utcDate m) ->
      I s ->
      Q (fst (normalizeMatch leagueName m s))
      /\ I (snd (normalizeMatch leagueName m s))) ->
  I st -> Forall Q (cachedMatches st) ->
  I (fst (loadTodaysMatches parseDate londonYMD inp st))
  /\ Forall Q (cachedMatches (fst (loadTodaysMatches parseDate londonYMD inp st))).
Proof.
  intros Hext HR Hstep HI HQ.
  pose proof (loadTodaysMatches_cache inp st) as Hc. cbv zeta in Hc.
  pose proof (fetch_fold_invariant inp (todayLondonISO londonYMD (at_today inp))
                (tomorrowLondonISO londonYMD (at_tomorrow inp)) R I Q HR Hstep
                leagues empty_batch (with_isLoading true st) []) as Hinv.
  unfold fetchBatch in Hc.
  destruct (fold_left _ leagues (empty_batch, with_isLoading true st, []))
    as [[b st1] trf].
  destruct Hinv as [HI1 HQ1]; [eapply Hext; [| |exact HI]; reflexivity | constructor |].
  destruct Hc as [(-> & _ & _ & [->|[Es Et]])|(_ & _ & _ & -> & _ & _ & Es & Et)].
  - auto.
  - split; [|exact HQ]. apply (Hext st1); auto.
  - split; [|exact HQ1]. apply (Hext st1); auto.
Qed.

(** X11: every match ever shown is well formed.  If the cached matches
    have their two scores both known or both ['-'], non-empty team names
    and a truthy status, so have the matches of every list a call shows
    and the matches it leaves cached. *)
Theorem displayed_matches_well_formed (inp : LoadInput) (st : State) :
  Forall match_wf (cachedMatches st) ->
  Forall match_wf (cachedMatches (fst (loadTodaysMatches parseDate londonYMD inp st)))
  /\ (forall ms, In (EvDisplay ms) (snd (loadTodaysMatches parseDate londonYMD inp st)) ->
                 Forall match_wf ms).
Proof.
  intros Hwf.
  destruct (loadTodaysMatches_invariant inp st (fun _ => True) (fun _ => True) match_wf)
    as [_ H]; auto.
  - intros leagueName m s _ _ _. split; [apply normalizeMatch_match_wf | exact Logic.I].
  - split; [exact H|]. intros ms Hin.
    rewrite (loadTodaysMatches_display inp st ms Hin). exact H.
Qed.

(** X12: as long as the provider sends no status that is a name of
    [Object.prototype], only the seven short codes are recorded and shown:
    if the recorded statuses and the cached ones are short codes, so are
    the recorded statuses after a call, the statuses it leaves cached and
    the statuses of every list it shows. *)
Theorem displayed_statuses_canonical (inp : LoadInput) (st : State) :
  (forall leagueCode status raw m,
      respond inp leagueCode (todayLondonISO londonYMD (at_today inp))
        (tomorrowLondonISO londonYMD (at_tomorrow inp))
      = Response status (BodyMatches raw) ->
      In m raw -> plain_status m = true) ->
  status_map_canonical st ->
  Forall (fun c => is_canonical (fixture_status_short c) = true) (cachedMatches st) ->
  let st' := fst (loadTodaysMatches parseDate londonYMD inp st) in
  status_map_canonical st'
  /\ Forall (fun c => is_canonical (fixture_status_short c) = true) (cachedMatches st')
  /\ (forall ms, In (EvDisplay ms) (snd (loadTodaysMatches parseDate londonYMD inp st)) ->
                 Forall (fun c => is_canonical (fixture_status_short c) = true) ms).
Proof.
  intros Hplain Hmap Hcached. cbv zeta.
  destruct (loadTodaysMatches_invariant inp st (fun m => plain_status m = true)
              status_map_canonical
              (fun c => is_canonical (fixture_status_short c) = true))
    as [H1 H2]; auto.
  - intros s t _ Et. unfold status_map_canonical. rewrite Et. auto.
  - intros leagueName m s Hm _ Hs. apply normalizeMatch_canonical; assumption.
  - split_and!; [exact H1 | exact H2 |]. intros ms Hin.
    rewrite (loadTodaysMatches_display inp st ms Hin). exact H2.
Qed.

(** X13: every match shown is a match of today.  If the cached matches
    are of the day the cache is stamped with, so they are after a call, and
    every match of every list the call shows has a date that parses and
    falls on today in London. *)
Theorem displayed_matches_of_today (inp : LoadInput) (st : State) :
  Forall (fun c => dated parseDate londonYMD (cachedDate st) (fixture_date c))
         (cachedMatches st) ->
  let today := todayLondonISO londonYMD (at_today inp) in
  let st' := fst (loadTodaysMatches parseDate londonYMD inp st) in
  Forall (fun c => dated parseDate londonYMD (cachedDate st') (fixture_date c))
         (cachedMatches st')
  /\ (forall ms, In (EvDisplay ms) (snd (loadTodaysMatches parseDate londonYMD inp st)) ->
                 Forall (fun c => dated parseDate londonYMD today (fixture_date c)) ms).
Proof.
  intros Hcached. cbv zeta.
  assert (Hkeep : Forall (fun c => dated parseDate londonYMD
                                     (cachedDate (fst (loadTodaysMatches parseDate
                                                         londonYMD inp st)))
                                     (fixture_date c))
                         (cachedMatches (fst (loadTodaysMatches parseDate londonYMD
                                                inp st)))).
  { pose proof (loadTodaysMatches_cache inp st) as Hc. cbv zeta in Hc.
    pose proof (batch_today_aux inp (todayLondonISO londonYMD (at_today inp))
                  (tomorrowLondonISO londonYMD (at_tomorrow inp)) leagues
                  (with_isLoading true st)) as Hb.
    destruct (fetchBatch _ _ _ _ _ _ _) as [[b st1] trf]. cbn [fst] in Hb.
    destruct Hc as [(-> & -> & _)|(_ & _ & _ & -> & -> & _)]; assumption. }
  split; [exact Hkeep|]. intros ms Hin.
  rewrite <- (loadTodaysMatches_display_date inp st ms Hin).
  rewrite (loadTodaysMatches_display inp st ms Hin). exact Hkeep.
Qed.

(** ** Adaptive scheduler *)

Lemma clear_timer_Some (h : option positive) (t : gmap positive Timer)
    (i : positive) (x : Timer) :
  clear_timer h t !! i = Some x <-> t !! i = Some x /\ h <> Some i.
Proof.
  destruct h as [j|]; simpl.
  - rewrite lookup_delete. destruct (decide (j = i)) as [->|Hne]; simpl.
    + split; [discriminate | intros [_ H]; congruence].
    + split; [intros H; split; [exact H | congruence] | tauto].
  - split; [intros H; split; [exact H | discriminate] | tauto].
Qed.

(** The loop of [scheduleKickoffRefresh]: the result is the smallest of
    the accumulator and the kickoffs that count. *)
Lemma earliestKickoff_spec (now : Z) (ms : list Match) :
  forall acc : option Z,
    match earliestKickoff parseDate now ms acc with
    | None => acc = None /\ forall m k, In m ms -> ~ kickoff_soon parseDate now m k
    | Some k =>
        (acc = Some k \/ exists m, In m ms /\ kickoff_soon parseDate now m k)
        /\ (forall a, acc = Some a -> (k <= a)%Z)
        /\ (forall m k', In m ms -> kickoff_soon parseDate now m k' -> (k <= k')%Z)
    end.
Proof.
  induction ms as [|m rest IH]; intros acc.
  - simpl. destruct acc as [a|].
    + split_and!; [auto | intros a' [= ->]; lia | intros m k' []].
    + split; [reflexivity | intros m k []].
  - cbn [earliestKickoff].
    assert (Hskip : (forall k, ~ kickoff_soon parseDate now m k) ->
              match earliestKickoff parseDate now rest acc with
              | None => acc = None
                        /\ forall m0 k, In m0 (m :: rest) ->
                                        ~ kickoff_soon parseDate now m0 k
              | Some k =>
                  (acc = Some k
                   \/ exists m0, In m0 (m :: rest) /\ kickoff_soon parseDate now m0 k)
                  /\ (forall a, acc = Some a -> (k <= a)%Z)
                  /\ (forall m0 k', In m0 (m :: rest) ->
                                    kickoff_soon parseDate now m0 k' -> (k <= k')%Z)
              end).
    { intros Hno. specialize (IH acc).
      destruct (earliestKickoff parseDate now rest acc) as [k|].
      - destruct IH as (Hsrc & Hacc & Hmin). split_and!.
        + destruct Hsrc as [?|(m0 & Hin & Hk)]; [auto|]. right. exists m0. simpl. auto.
        + exact Hacc.
        + intros m0 k' [<-|Hin] Hk; [exfalso; eapply Hno; eauto | eauto].
      - destruct IH as [Hacc Hnone]. split; [exact Hacc|].
        intros m0 k [<-|Hin]; [apply Hno | apply Hnone; exact Hin]. }
    destruct (not_scheduled m) eqn:Hns.
    { apply Hskip. intros k (H & _). congruence. }
    destruct (parseDate (fixture_date m)) as [kickoff|] eqn:Hp.
    2:{ apply Hskip. intros k (_ & H & _). congruence. }
    destruct ((0 <? kickoff - now)%Z && (kickoff - now <=? 3 * 60000)%Z) eqn:Hwin.
    2:{ apply Hskip. intros k (_ & H & Hr). rewrite Hp in H. injection H as <-.
        apply andb_false_iff in Hwin as [H|H];
          [apply Z.ltb_ge in H | apply Z.leb_gt in H]; lia. }
    apply andb_true_iff in Hwin as [H1 H2].
    apply Z.ltb_lt in H1. apply Z.leb_le in H2.
    assert (Hm : kickoff_soon parseDate now m kickoff).
    { unfold kickoff_soon. split_and!; auto; lia. }
    destruct acc as [e|].
    + specialize (IH (Some (if (kickoff <? e)%Z then kickoff else e))).
      destruct (earliestKickoff parseDate now rest
                  (Some (if (kickoff <? e)%Z then kickoff else e))) as [k|].
      * destruct IH as (Hsrc & Hacc & Hmin).
        specialize (Hacc _ eq_refl).
        destruct (Z.ltb_spec kickoff e) as [Hlt|Hge].
        -- split_and!.
           ++ destruct Hsrc as [[= <-]|(m0 & Hin & Hk)].
              ** right. exists m. simpl. auto.
              ** right. exists m0. simpl. auto.
           ++ intros a [= <-]. lia.
           ++ intros m0 k' [<-|Hin] Hk; [|eauto].
              destruct Hk as (_ & Hk & _). rewrite Hp in Hk. injection Hk as <-. lia.
        -- split_and!.
           ++ destruct Hsrc as [[= <-]|(m0 & Hin & Hk)]; [auto|].
              right. exists m0. simpl. auto.
           ++ intros a [= <-]. lia.
           ++ intros m0 k' [<-|Hin] Hk; [|eauto].
              destruct Hk as (_ & Hk & _). rewrite Hp in Hk. injection Hk as <-. lia.
      * destruct IH as [Hacc _]. discriminate Hacc.
    + specialize (IH (Some kickoff)).
      destruct (earliestKickoff parseDate now rest (Some kickoff)) as [k|].
      * destruct IH as (Hsrc & Hacc & Hmin). specialize (Hacc _ eq_refl).
        split_and!.
        -- destruct Hsrc as [[= <-]|(m0 & Hin & Hk)].
           ++ right. exists m. simpl. auto.
           ++ right. exists m0. simpl. auto.
        -- discriminate.
        -- intros m0 k' [<-|Hin] Hk; [|eauto].
           destruct Hk as (_ & Hk & _). rewrite Hp in Hk. injection Hk as <-. lia.
      * destruct IH as [Hacc _]. discriminate Hacc.
Qed.

Lemma sched_wf_initial (now : Z) : sched_wf (initial_sched londonYMD now).
Proof.
  unfold sched_wf, initial_sched. simpl.
  split_and!; intros; try discriminate; rewrite lookup_empty in *; discriminate.
Qed.

(** Dropping timers from the table, whatever happens to the remembered
    date, keeps the scheduler well formed. *)
Lemma sched_wf_shrink (sc : Sched) (date : string) (t : gmap positive Timer) :
  (forall h x, t !! h = Some x -> timers sc !! h = Some x) ->
  sched_wf sc ->
  sched_wf {| autoRefreshInterval := autoRefreshInterval sc;
              lastLondonDate := date;
              kickoffTimeout := kickoffTimeout sc;
              currentIntervalMs := currentIntervalMs sc;
              timers := t;
              nextTimer := nextTimer sc |}.
Proof.
  intros Hsub (W1 & W2 & W3 & W4 & W5 & W6). unfold sched_wf. simpl.
  split_and!; eauto.
Qed.

Lemma sched_wf_adjustInterval (ms : Z) (sc : Sched) :
  (ms = 60000 \/ ms = 300000)%Z ->
  sched_wf sc -> sched_wf (adjustInterval ms sc).
Proof.
  intros Hms Hwf. unfold adjustInterval.
  destruct (_ && _); [exact Hwf|].
  destruct Hwf as (W1 & W2 & W3 & W4 & W5 & W6). unfold sched_wf. simpl.
  split_and!.
  - intros h t. rewrite lookup_insert.
    destruct (decide (nextTimer sc = h)) as [<-|Hne]; simpl; [intros _; lia|].
    intros H. apply clear_timer_Some in H as [H _]. apply W1 in H. lia.
  - intros h [= <-]. lia.
  - intros h H. apply W3 in H. lia.
  - intros h [= <-] H. apply W3 in H. lia.
  - intros h ms'. rewrite lookup_insert.
    destruct (decide (nextTimer sc = h)) as [<-|Hne]; simpl.
    + intros [= <-]. auto.
    + intros H. apply clear_timer_Some in H as [H Hnot].
      apply W5 in H as (H & _). contradiction.
  - intros h d. rewrite lookup_insert.
    destruct (decide (nextTimer sc = h)) as [<-|Hne]; simpl; [discriminate|].
    intros H. apply clear_timer_Some in H as [H _]. apply W6 in H. exact H.
Qed.

Lemma sched_wf_scheduleKickoffRefresh (now : Z) (ms : list Match) (sc : Sched) :
  sched_wf sc -> sched_wf (scheduleKickoffRefresh parseDate now ms sc).
Proof.
  intros Hwf. unfold scheduleKickoffRefresh.
  pose proof (earliestKickoff_spec now ms None) as Hspec.
  assert (Hsub : forall h x, clear_timer (kickoffTimeout sc) (timers sc) !! h = Some x ->
                             timers sc !! h = Some x).
  { intros h x H. apply clear_timer_Some in H. tauto. }
  destruct (earliestKickoff parseDate now ms None) as [k|].
  2:{ apply (sched_wf_shrink sc (lastLondonDate sc) _ Hsub Hwf). }
  destruct (0 <? k - now)%Z.
  2:{ apply (sched_wf_shrink sc (lastLondonDate sc) _ Hsub Hwf). }
  destruct Hspec as ([Hk|(m & Hin & (_ & _ & Hbound))] & _); [discriminate|].
  destruct Hwf as (W1 & W2 & W3 & W4 & W5 & W6). unfold sched_wf. simpl.
  split_and!.
  - intros h t. rewrite lookup_insert.
    destruct (decide (nextTimer sc = h)) as [<-|Hne]; simpl; [intros _; lia|].
    intros H. apply Hsub, W1 in H. lia.
  - intros h H. apply W2 in H. lia.
  - intros h [= <-]. lia.
  - intros h H [= <-]. apply W2 in H. lia.
  - intros h ms'. rewrite lookup_insert.
    destruct (decide (nextTimer sc = h)) as [<-|Hne]; simpl; [discriminate|].
    intros H. apply Hsub, W5 in H. exact H.
  - intros h d. rewrite lookup_insert.
    destruct (decide (nextTimer sc = h)) as [<-|Hne]; simpl.
    + intros [= <-]. auto.
    + intros H. apply clear_timer_Some in H as [H Hnot].
      apply W6 in H as (H & _). contradiction.
Qed.

Lemma sched_wf_tickRollover (inp : TickInput) (st : State) (sc : Sched) :
  sched_wf sc -> sched_wf (snd (tickRollover londonYMD inp (st, sc))).
Proof.
  intros Hwf. unfold tickRollover. destruct (negb _); simpl; [|exact Hwf].
  apply sched_wf_shrink; [|exact Hwf].
  intros h x H. apply clear_timer_Some in H. tauto.
Qed.

Lemma sched_wf_tickAfterLoad (inp : TickInput) (st : State) (sc : Sched) :
  sched_wf sc -> sched_wf (fst (tickAfterLoad parseDate inp st sc)).
Proof.
  intros Hwf. unfold tickAfterLoad.
  destruct (length (cachedMatches st) =? 0)%nat; simpl.
  - apply sched_wf_shrink; [|exact Hwf].
    intros h x H. apply clear_timer_Some in H as [H _].
    apply clear_timer_Some in H. tauto.
  - apply sched_wf_scheduleKickoffRefresh, sched_wf_adjustInterval; [|exact Hwf].
    destruct (_ || _); [left | right]; reflexivity.
Qed.

Lemma sched_wf_tick (inp : TickInput) (st : State) (sc : Sched) :
  sched_wf sc -> sched_wf (snd (fst (tick parseDate londonYMD inp (st, sc)))).
Proof.
  intros Hwf. rewrite tick_unfold. cbn [fst snd].
  apply sched_wf_tickAfterLoad, sched_wf_tickRollover, Hwf.
Qed.

Lemma interval_live_adjustInterval (ms : Z) (sc : Sched) :
  interval_live sc -> interval_live (adjustInterval ms sc).
Proof.
  intros Hl. unfold adjustInterval. destruct (_ && _); [exact Hl|].
  intros h. simpl. intros [= <-]. apply lookup_insert_eq.
Qed.

Lemma interval_live_scheduleKickoffRefresh (now : Z) (ms : list Match) (sc : Sched) :
  sched_wf sc -> interval_live sc ->
  interval_live (scheduleKickoffRefresh parseDate now ms sc).
Proof.
  intros (W1 & W2 & W3 & W4 & W5 & W6) Hl.
  assert (Hkeep : forall h, autoRefreshInterval sc = Some h ->
            clear_timer (kickoffTimeout sc) (timers sc) !! h
            = Some (Recurring (currentIntervalMs sc))).
  { intros h Ha. apply clear_timer_Some. split; [apply Hl, Ha | apply W4, Ha]. }
  unfold scheduleKickoffRefresh.
  destruct (earliestKickoff parseDate now ms None) as [k|]; [|exact Hkeep].
  destruct (0 <? k - now)%Z; [|exact Hkeep].
  intros h Ha. simpl in *. rewrite lookup_insert_ne; [apply Hkeep, Ha|].
  apply W2 in Ha. lia.
Qed.

(** A tick on a well-formed scheduler whose interval timer, if it has
    one, is live: afterwards the scheduler is well formed, and either no
    timer is left (no cached match) or the interval timer is live. *)
Lemma tick_scheduler (inp : TickInput) (st : State) (sc : Sched) :
  sched_wf sc -> interval_live sc ->
  let st' := fst (fst (tick parseDate londonYMD inp (st, sc))) in
  let sc' := snd (fst (tick parseDate londonYMD inp (st, sc))) in
  sched_wf sc'
  /\ (cachedMatches st' = [] -> timers sc' = ∅)
  /\ (cachedMatches st' <> [] ->
      interval_live sc'
      /\ exists h,
          autoRefreshInterval sc' = Some h
          /\ currentIntervalMs sc'
             = (if hasLiveMatches (cachedMatches st')
                   || hasUpcomingSoon parseDate (tick_at_now inp) (cachedMatches st')
                then 60000 else 300000)%Z
          /\ (currentIntervalMs sc = currentIntervalMs sc' ->
              is_Some (autoRefreshInterval sc) ->
              autoRefreshInterval sc' = autoRefreshInterval sc)).
Proof.
  intros Hwf Hl. cbv zeta.
  pose proof (sched_wf_tick inp st sc Hwf) as Hwf'.
  rewrite tick_unfold in *. cbn [fst snd] in *.
  pose proof (sched_wf_tickRollover inp st sc Hwf) as Hwf1.
  assert (Hl1 : interval_live (snd (tickRollover londonYMD inp (st, sc)))
                /\ autoRefreshInterval (snd (tickRollover londonYMD inp (st, sc)))
                   = autoRefreshInterval sc
                /\ currentIntervalMs (snd (tickRollover londonYMD inp (st, sc)))
                   = currentIntervalMs sc).
  { unfold tickRollover. destruct (negb _); simpl; [|auto].
    split_and!; auto. intros h Ha. simpl in *.
    apply clear_timer_Some. split; [apply Hl, Ha|].
    destruct Hwf as (_ & _ & _ & W4 & _). apply W4, Ha. }
  destruct Hl1 as (Hl1 & Ea & Ec).
  set (sc1 := snd (tickRollover londonYMD inp (st, sc))) in *.
  set (st2 := fst (loadTodaysMatches parseDate londonYMD (tick_load inp)
                     (fst (tickRollover londonYMD inp (st, sc))))) in *.
  split_and!; [exact Hwf'| |].
  - intros Hemp.
    assert (Htr : timers_tracked sc1).
    { intros h [x Hx]. destruct Hwf1 as (_ & _ & _ & _ & W5 & W6).
      destruct x as [ms|ms]; [left; eapply W5; eauto | right; eapply W6; eauto]. }
    apply (tickAfterLoad_empty parseDate inp st2 sc1 Htr Hemp).
  - intros Hne. unfold tickAfterLoad.
    destruct (cachedMatches st2) as [|c cs] eqn:Ecm; [congruence|].
    cbn [length Nat.eqb fst].
    set (ms := (if hasLiveMatches (c :: cs)
                   || hasUpcomingSoon parseDate (tick_at_now inp) (c :: cs)
                then 60 * 1000 else 5 * 60 * 1000)%Z).
    assert (Hms : (ms = 60000 \/ ms = 300000)%Z).
    { subst ms. destruct (_ || _); [left | right]; reflexivity. }
    pose proof (sched_wf_adjustInterval ms sc1 Hms Hwf1) as Hwf2.
    pose proof (interval_live_adjustInterval ms sc1 Hl1) as Hl2.
    split.
    + apply interval_live_scheduleKickoffRefresh; assumption.
    + assert (Hadj : exists h, autoRefreshInterval (adjustInterval ms sc1) = Some h
                               /\ currentIntervalMs (adjustInterval ms sc1) = ms
                               /\ (currentIntervalMs sc1 = ms ->
                                   is_Some (autoRefreshInterval sc1) ->
                                   autoRefreshInterval (adjustInterval ms sc1)
                                   = autoRefreshInterval sc1)).
      { unfold adjustInterval.
        destruct (Z.eqb_spec (currentIntervalMs sc1) ms) as [Heq|Hneq]; simpl.
        - destruct (autoRefreshInterval sc1) as [h|] eqn:Eh.
          + rewrite bool_decide_eq_true_2 by eauto. exists h. rewrite Eh. auto.
          + rewrite bool_decide_eq_false_2 by (intros [x Hx]; discriminate).
            simpl. eexists. split_and!; [reflexivity | reflexivity |].
            intros _ [x Hx]. discriminate.
        - eexists. split_and!; [reflexivity | reflexivity |]. intros H. contradiction. }
      destruct Hadj as (h & Hh & Hcur & Hsame).
      assert (Hkeep : autoRefreshInterval
                        (scheduleKickoffRefresh parseDate (tick_at_schedule inp)
                           (c :: cs) (adjustInterval ms sc1))
                      = autoRefreshInterval (adjustInterval ms sc1)
                      /\ currentIntervalMs
                           (scheduleKickoffRefresh parseDate (tick_at_schedule inp)
                              (c :: cs) (adjustInterval ms sc1))
                         = currentIntervalMs (adjustInterval ms sc1)).
      { unfold scheduleKickoffRefresh.
        destruct (earliestKickoff _ _ _ _) as [k|]; [|auto].
        destruct (0 <? k - tick_at_schedule inp)%Z; auto. }
      destruct Hkeep as [Ka Kc].
      exists h. rewrite Ka, Kc, Hh, Hcur. split_and!; auto.
      intros Hc Hs. rewrite <- Hh. rewrite <- Ea. apply Hsame; [|rewrite Ea; exact Hs].
      rewrite Ec. exact Hc.
Qed.

(** X14: the kickoff one-shot is aimed at the earliest kickoff that
    counts.  After [scheduleKickoffRefresh] on a well-formed scheduler, a
    live one-shot is the one held in [kickoffTimeout], and its delay leads
    to the kickoff of a cached match shown as not started that lies in the
    next three minutes, the earliest such kickoff; there is a live
    one-shot whenever such a match exists; the recurring timer is left
    alone. *)
Theorem kickoff_one_shot_is_earliest (now : Z) (ms : list Match) (sc : Sched) :
  sched_wf sc ->
  let sc' := scheduleKickoffRefresh parseDate now ms sc in
  (forall h d,
      timers sc' !! h = Some (OneShot d) ->
      kickoffTimeout sc' = Some h
      /\ (exists m, In m ms /\ kickoff_soon parseDate now m (now + d))
      /\ (forall m k, In m ms -> kickoff_soon parseDate now m k -> (now + d <= k)%Z))
  /\ ((exists m k, In m ms /\ kickoff_soon parseDate now m k) ->
      exists h d, timers sc' !! h = Some (OneShot d))
  /\ (forall h x, timers sc !! h = Some (Recurring x) ->
                  timers sc' !! h = Some (Recurring x)).
Proof.
  intros Hwf. cbv zeta.
  pose proof Hwf as (W1 & W2 & W3 & W4 & W5 & W6).
  pose proof (earliestKickoff_spec now ms None) as Hspec.
  assert (Hold : forall h d,
            clear_timer (kickoffTimeout sc) (timers sc) !! h <> Some (OneShot d)).
  { intros h d H. apply clear_timer_Some in H as [H Hnot].
    apply W6 in H as [H _]. contradiction. }
  assert (Hrec : forall h x, timers sc !! h = Some (Recurring x) ->
            clear_timer (kickoffTimeout sc) (timers sc) !! h = Some (Recurring x)).
  { intros h x H. apply clear_timer_Some. split; [exact H|].
    apply W5 in H as (H & _). apply W4, H. }
  unfold scheduleKickoffRefresh.
  destruct (earliestKickoff parseDate now ms None) as [k|].
  - destruct Hspec as ([Hk|(m & Hin & Hm)] & _ & Hmin); [discriminate|].
    assert (Hpos : (0 <? k - now)%Z = true).
    { destruct Hm as (_ & _ & Hr). apply Z.ltb_lt. lia. }
    rewrite Hpos. simpl. split_and!.
    + intros h d. rewrite lookup_insert.
      destruct (decide (nextTimer sc = h)) as [<-|Hne]; simpl.
      * intros [= <-]. replace (now + (k - now))%Z with k by lia.
        split_and!; [reflexivity | eauto | exact Hmin].
      * intros H. exfalso. eapply Hold, H.
    + intros _. exists (nextTimer sc), (k - now)%Z. apply lookup_insert_eq.
    + intros h x H. rewrite lookup_insert_ne; [apply Hrec, H|].
      apply W1 in H. lia.
  - destruct Hspec as [_ Hnone]. simpl. split_and!.
    + intros h d H. exfalso. eapply Hold, H.
    + intros (m & k & Hin & Hk). exfalso. eapply Hnone; eauto.
    + exact Hrec.
Qed.

(** X15: the refresh interval follows the urgency of the cache.  After a
    tick that leaves cached matches, on a well-formed scheduler whose
    interval timer, if any, is live, a recurring timer is live; it runs
    every minute when a cached match is ['LIVE'] or ['HT'] or one shown as
    not started kicks off within the next three minutes, and every five
    minutes otherwise; when that is the interval already running, the
    running timer is kept. *)
Theorem refresh_interval_follows_urgency (inp : TickInput) (st : State) (sc : Sched) :
  sched_wf sc -> interval_live sc ->
  let st' := fst (fst (tick parseDate londonYMD inp (st, sc))) in
  let sc' := snd (fst (tick parseDate londonYMD inp (st, sc))) in
  cachedMatches st' <> [] ->
  exists h,
    autoRefreshInterval sc' = Some h
    /\ timers sc' !! h
       = Some (Recurring
                 (if hasLiveMatches (cachedMatches st')
                     || hasUpcomingSoon parseDate (tick_at_now inp) (cachedMatches st')
                  then 60000 else 300000)%Z)
    /\ (forall h' x, timers sc' !! h' = Some (Recurring x) -> h' = h)
    /\ (currentIntervalMs sc
        = (if hasLiveMatches (cachedMatches st')
              || hasUpcomingSoon parseDate (tick_at_now inp) (cachedMatches st')
           then 60000 else 300000)%Z ->
        is_Some (autoRefreshInterval sc) ->
        autoRefreshInterval sc' = autoRefreshInterval sc).
Proof.
  intros Hwf Hl. cbv zeta. intros Hne.
  destruct (tick_scheduler inp st sc Hwf Hl) as (Hwf' & _ & Hrun).
  destruct (Hrun Hne) as (Hl' & h & Ha & Hc & Hsame).
  exists h. split_and!.
  - exact Ha.
  - rewrite <- Hc. apply Hl', Ha.
  - intros h' x H. destruct Hwf' as (_ & _ & _ & _ & W5 & _).
    apply W5 in H as (H & _). congruence.
  - intros E Hs. apply Hsame; [congruence | exact Hs].
Qed.

(** What an automatic refresh keeps: the scheduler is well formed, and
    either no timer is live or the interval timer is. *)
Lemma auto_refresh_scheduler (w w' : State * Sched) :
  auto_refresh parseDate londonYMD w w' ->
  sched_wf (snd w) ->
  interval_live (snd w) /\ is_Some (autoRefreshInterval (snd w)) ->
  sched_wf (snd w')
  /\ (timers (snd w') = ∅
      \/ interval_live (snd w') /\ is_Some (autoRefreshInterval (snd w'))).
Proof.
  assert (Htick : forall inp st sc,
            sched_wf sc -> interval_live sc ->
            sched_wf (snd (fst (tick parseDate londonYMD inp (st, sc))))
            /\ (timers (snd (fst (tick parseDate londonYMD inp (st, sc)))) = ∅
                \/ interval_live (snd (fst (tick parseDate londonYMD inp (st, sc))))
                   /\ is_Some (autoRefreshInterval
                                 (snd (fst (tick parseDate londonYMD inp (st, sc))))))).
  { intros inp st sc Hwf Hl.
    destruct (tick_scheduler inp st sc Hwf Hl) as (Hwf' & Hstop & Hrun).
    split; [exact Hwf'|].
    destruct (cachedMatches (fst (fst (tick parseDate londonYMD inp (st, sc)))))
      as [|c cs] eqn:E.
    - left. apply Hstop. reflexivity.
    - right. destruct Hrun as (Hl' & h & Ha & _); [discriminate|].
      split; [exact Hl' | eauto]. }
  intros Hstep. destruct Hstep as [st sc h ms inp Hh|st sc h ms now inp Hh sc'];
    cbn [snd]; intros Hwf [Hl Hs].
  - apply Htick; assumption.
  - assert (Hwf' : sched_wf sc').
    { subst sc'. apply sched_wf_shrink; [|exact Hwf].
      intros i x H. apply lookup_delete_Some in H. tauto. }
    assert (Hl' : interval_live sc').
    { subst sc'. intros a Ha. simpl in *. rewrite lookup_delete_ne; [apply Hl, Ha|].
      intros <-. rewrite (Hl _ Ha) in Hh. discriminate. }
    destruct (30 * 1000 <? now - lastFetchTime st)%Z; cbn [snd].
    + apply Htick; assumption.
    + split; [exact Hwf'|]. right. split; [exact Hl' | exact Hs].
Qed.

(** X16: along the automatic refreshes that follow [startAutoRefresh],
    never two recurring timers and never two one-shots are live; a live
    recurring timer runs every minute or every five minutes and is the one
    held in [autoRefreshInterval]; a live one-shot is due within three
    minutes; and as long as any timer is live, a recurring one is. *)
Theorem scheduler_timers_along_run (clock : Z) (inp : TickInput) (st : State)
    (w : State * Sched) :
  rtc (auto_refresh parseDate londonYMD)
      (fst (startAutoRefresh parseDate londonYMD clock inp st)) w ->
  let sc := snd w in
  (forall h h' x x',
      timers sc !! h = Some (Recurring x) -> timers sc !! h' = Some (Recurring x') ->
      h = h')
  /\ (forall h x, timers sc !! h = Some (Recurring x) ->
                  (x = 60000 \/ x = 300000)%Z /\ autoRefreshInterval sc = Some h)
  /\ (forall h h' d d',
         timers sc !! h = Some (OneShot d) -> timers sc !! h' = Some (OneShot d') ->
         h = h')
  /\ (forall h d, timers sc !! h = Some (OneShot d) -> (0 < d <= 180000)%Z)
  /\ (timers sc = ∅ \/ exists h x, timers sc !! h = Some (Recurring x)).
Proof.
  intros Hrun. cbv zeta.
  assert (Hinv : sched_wf (snd w)
                 /\ (timers (snd w) = ∅
                     \/ interval_live (snd w) /\ is_Some (autoRefreshInterval (snd w)))).
  { assert (Hstart : sched_wf (snd (fst (startAutoRefresh parseDate londonYMD
                                           clock inp st)))
                     /\ (timers (snd (fst (startAutoRefresh parseDate londonYMD
                                             clock inp st))) = ∅
                         \/ interval_live (snd (fst (startAutoRefresh parseDate
                                                       londonYMD clock inp st)))
                            /\ is_Some (autoRefreshInterval
                                          (snd (fst (startAutoRefresh parseDate
                                                       londonYMD clock inp st)))))).
    { unfold startAutoRefresh.
      destruct (tick_scheduler inp st (initial_sched londonYMD clock)
                  (sched_wf_initial clock)) as (Hwf' & Hstop & Hrun').
      { intros h Hh. discriminate Hh. }
      split; [exact Hwf'|].
      destruct (cachedMatches (fst (fst (tick parseDate londonYMD inp
                                           (st, initial_sched londonYMD clock)))))
        as [|c cs] eqn:E.
      - left. apply Hstop. reflexivity.
      - right. destruct Hrun' as (Hl' & h & Ha & _); [discriminate|].
        split; [exact Hl' | eauto]. }
    revert Hstart Hrun.
    generalize (fst (startAutoRefresh parseDate londonYMD clock inp st)).
    intros w0 Hstart Hrun.
    induction Hrun as [x|x y z Hstep Hrest IH]; [exact Hstart|].
    apply IH. destruct Hstart as [Hwf [Hemp|Hlive]].
    - exfalso.
      destruct Hstep as [st0 sc0 h ms inp0 Hh|st0 sc0 h ms now inp0 Hh sc0'];
        simpl in Hemp; rewrite Hemp, lookup_empty in Hh; discriminate.
    - apply (auto_refresh_scheduler x y Hstep Hwf Hlive). }
  destruct Hinv as [(W1 & W2 & W3 & W4 & W5 & W6) Hlive].
  split_and!.
  - intros h h' x x' H H'. apply W5 in H as (H & _). apply W5 in H' as (H' & _).
    congruence.
  - intros h x H. apply W5 in H. tauto.
  - intros h h' d d' H H'. apply W6 in H as (H & _). apply W6 in H' as (H' & _).
    congruence.
  - intros h d H. apply W6 in H. tauto.
  - destruct Hlive as [Hemp|[Hl [h Hh]]]; [left; exact Hemp | right].
    exists h, (currentIntervalMs (snd w)). apply Hl, Hh.
Qed.

(** X17: a tick inside the cache window fetches nothing.  On the same
    London day and with the reuse condition holding, a tick sends no
    request and leaves the state as it is; it shows the cached matches
    again and goes on to set the interval and the kickoff one-shot. *)
Theorem tick_inside_cache_window (inp : TickInput) (st : State) (sc : Sched) :
  isLoading st = false ->
  todayLondonISO londonYMD (tick_at_today inp) = lastLondonDate sc ->
  shouldUseCache (todayLondonISO londonYMD (at_today (tick_load inp)))
    (at_now (tick_load inp)) st = true ->
  tick parseDate londonYMD inp (st, sc)
  = (st,
     scheduleKickoffRefresh parseDate (tick_at_schedule inp) (cachedMatches st)
       (adjustInterval
          (if hasLiveMatches (cachedMatches st)
              || hasUpcomingSoon parseDate (tick_at_now inp) (cachedMatches st)
           then 60000 else 300000)%Z sc),
     [EvHideNoMatches; EvDisplay (cachedMatches st); EvLastUpdated;
      EvDateTime; EvLastUpdated]).
Proof.
  intros Hload Hday Hreuse. rewrite tick_unfold.
  assert (Hroll : tickRollover londonYMD inp (st, sc) = (st, sc)).
  { unfold tickRollover. rewrite Hday, String.eqb_refl. reflexivity. }
  rewrite Hroll. cbn [fst snd].
  rewrite (loadTodaysMatches_hit parseDate londonYMD (tick_load inp) st Hload Hreuse).
  cbn [fst snd]. unfold tickAfterLoad.
  apply (shouldUseCache_iff londonYMD) in Hreuse as (Hne & _).
  destruct (cachedMatches st) as [|c cs] eqn:E; [congruence|].
  reflexivity.
Qed.

(** X18: nothing once known is forgotten.  A tick, day rollover
    included, removes no entry from the last-known maps: an id with a
    recorded score pair or a recorded status still has one afterwards. *)
Theorem last_known_never_forgotten (inp : TickInput) (st : State) (sc : Sched)
    (k : string) :
  let st' := fst (fst (tick parseDate londonYMD inp (st, sc))) in
  (is_Some (lastKnownScores st !! k) -> is_Some (lastKnownScores st' !! k))
  /\ (is_Some (lastKnownStatus st !! k) -> is_Some (lastKnownStatus st' !! k)).
Proof.
  cbv zeta. rewrite tick_unfold. cbn [fst snd].
  assert (Hroll : lastKnownScores (fst (tickRollover londonYMD inp (st, sc)))
                  = lastKnownScores st
                  /\ lastKnownStatus (fst (tickRollover londonYMD inp (st, sc)))
                     = lastKnownStatus st).
  { unfold tickRollover. destruct (negb _); simpl; auto. }
  destruct Hroll as [<- <-].
  generalize (fst (tickRollover londonYMD inp (st, sc))). intros st0.
  split; intros Hk.
  - destruct (loadTodaysMatches_invariant (tick_load inp) st0 (fun _ => True)
                (fun s => is_Some (lastKnownScores s !! k)) (fun _ => True))
      as [H _]; [| | |exact Hk| |exact H].
    + intros s t <- _. auto.
    + intros; exact Logic.I.
    + intros leagueName m s _ _ Hs. split; [exact Logic.I|].
      pose proof (normalizeMatch_score_spec leagueName m s) as H. cbv zeta in H.
      destruct (m_score_fullTime_home m), (m_score_fullTime_away m);
        destruct H as [-> _]; try exact Hs.
      rewrite lookup_insert. destruct (decide (matchId m = k)); simpl; eauto.
    + apply Forall_forall. intros; exact Logic.I.
  - destruct (loadTodaysMatches_invariant (tick_load inp) st0 (fun _ => True)
                (fun s => is_Some (lastKnownStatus s !! k)) (fun _ => True))
      as [H _]; [| | |exact Hk| |exact H].
    + intros s t _ <-. auto.
    + intros; exact Logic.I.
    + intros leagueName m s _ _ Hs. split; [exact Logic.I|].
      pose proof (normalizeMatch_status_spec leagueName m s) as H. cbv zeta in H.
      destruct (is_NS (mapFDStatusToShort (m_status m)));
        destruct H as [-> _]; try exact Hs.
      rewrite lookup_insert. destruct (decide (matchId m = k)); simpl; eauto.
    + apply Forall_forall. intros; exact Logic.I.
Qed.

(** ** Startup *)

(** [String.prototype.trim] of the host. *)
Variable trim : string -> string.



(** The first [adjustInterval] after [startAutoRefresh] starts the
    recurring timer, and [scheduleKickoffRefresh] leaves it. *)
Lemma first_interval_live (clock now ms : Z) (cached : list Match) :
  (ms = 60000 \/ ms = 300000)%Z ->
  let sc := scheduleKickoffRefresh parseDate now cached
              (adjustInterval ms (initial_sched londonYMD clock)) in
  exists h, autoRefreshInterval sc = Some h
            /\ timers sc !! h = Some (Recurring ms).
Proof.
  intros Hms. cbv zeta.
  pose proof (sched_wf_adjustInterval ms _ Hms (sched_wf_initial clock)) as Hwf.
  assert (Hl0 : interval_live (initial_sched londonYMD clock)).
  { intros h. simpl. discriminate. }
  pose proof (interval_live_adjustInterval ms _ Hl0) as Hl.
  pose proof (interval_live_scheduleKickoffRefresh now cached _ Hwf Hl) as Hl'.
  assert (Ha : adjustInterval ms (initial_sched londonYMD clock)
               = {| autoRefreshInterval := Some 1%positive;
                    lastLondonDate := todayLondonISO londonYMD clock;
                    kickoffTimeout := None;
                    currentIntervalMs := ms;
                    timers := <[1%positive := Recurring ms]> ∅;
                    nextTimer := 2%positive |}).
  { unfold adjustInterval, initial_sched. cbn. rewrite andb_false_r. reflexivity. }
  rewrite Ha in *.
  set (sc' := scheduleKickoffRefresh _ _ _ _) in *.
  assert (Hsame : autoRefreshInterval sc' = Some 1%positive
                  /\ currentIntervalMs sc' = ms).
  { subst sc'. unfold scheduleKickoffRefresh.
    destruct (earliestKickoff _ _ _ _) as [k|]; [|split; reflexivity].
    destruct (0 <? k - now)%Z; split; reflexivity. }
  destruct Hsame as (Hs1 & Hs2).
  exists 1%positive. split; [exact Hs1|]. rewrite <- Hs2. apply Hl', Hs1.
Qed.

(** X20: a startup that finds matches asks once.  Started with a key, when
    the call of [loadTodaysMatches] in [initializeApp] fetches a batch
    with matches and the first tick runs on the same London day less than
    [CACHE_DURATION] later, the requests of the whole startup are the four
    of that call: the tick shows the cached list again, leaves the state
    as the call left it, and starts the recurring timer, every minute or
    every five. *)
Theorem startup_fetches_once (inp : StartInput) (st : State) (v : nullable string) :
  let first := start_load inp in
  let second := tick_load (start_tick inp) in
  let today := todayLondonISO londonYMD (at_today first) in
  let tomorrow := tomorrowLondonISO londonYMD (at_tomorrow first) in
  let b := fst (fst (fetchBatch parseDate londonYMD first today tomorrow leagues
                       (with_isLoading true st))) in
  let st1 := fst (loadTodaysMatches parseDate londonYMD first st) in
  let r := initializeApp parseDate londonYMD trim inp st in
  start_key inp = Normal v ->
  trim (match v with Val s => s | _ => "" end) <> "" ->
  isLoading st = false ->
  shouldUseCache today (at_now first) st = false ->
  (0 < totalMatches b)%nat ->
  todayLondonISO londonYMD (tick_at_today (start_tick inp))
  = todayLondonISO londonYMD (start_clock inp) ->
  todayLondonISO londonYMD (at_today second) = today ->
  (at_now second - at_now first < CACHE_DURATION)%Z ->
  List.filter is_fetch (started_trace r) = map (request_of today tomorrow) leagues
  /\ List.filter (fun e => negb (is_fetch e)) (started_trace r)
     = [EvHideNoMatches; EvDisplay (allMatches b); EvLastUpdated;
        EvDateTime; EvLastUpdated;
        EvHideNoMatches; EvDisplay (allMatches b); EvLastUpdated;
        EvDateTime; EvLastUpdated]
  /\ started_state r = st1
  /\ exists sc h,
       started_sched r = Some sc
       /\ autoRefreshInterval sc = Some h
       /\ timers sc !! h
          = Some (Recurring
                    (if hasLiveMatches (allMatches b)
                        || hasUpcomingSoon parseDate (tick_at_now (start_tick inp))
                             (allMatches b)
                     then 60000 else 300000)%Z).
Proof.
  cbv zeta. intros Hkey Htrim Hload E Hpos Hroll Hday Hclock.
  unfold initializeApp. rewrite Hkey.
  destruct (String.eqb_spec (trim match v with Val s => s | _ => "" end) "")
    as [E0|_]; [contradiction|].
  pose proof (loadTodaysMatches_fetch parseDate londonYMD (start_load inp) st Hload E)
    as Hf.
  pose proof (fetchBatch_frame (start_load inp)
                (todayLondonISO londonYMD (at_today (start_load inp)))
                (tomorrowLondonISO londonYMD (at_tomorrow (start_load inp))) leagues
                (with_isLoading true st)) as Hfr.
  cbv zeta in Hf.
  destruct (fetchBatch _ _ _ _ _ _ _) as [[b st0] trf]. cbn [fst] in *.
  destruct Hfr as (_ & Hcount & _).
  destruct (loadTodaysMatches parseDate londonYMD (start_load inp) st) as [st1 tr1].
  cbn [fst snd] in *.
  destruct Hf as (Htrf & Hl & _ & _ & _ & Ho).
  destruct Ho as [(_ & Htr & Hcm & Hcd & Hft)|[(Hz & _)|(Hz & _)]]; try lia.
  assert (Hne : cachedMatches st1 <> []).
  { rewrite Hcm. intros Hnil. rewrite Hnil in Hcount. simpl in Hcount. lia. }
  assert (Hreuse : shouldUseCache
                     (todayLondonISO londonYMD (at_today (tick_load (start_tick inp))))
                     (at_now (tick_load (start_tick inp))) st1 = true).
  { apply (shouldUseCache_iff londonYMD). rewrite Hcd, Hft, Hday.
    split_and!; [exact Hne | reflexivity | unfold CACHE_DURATION in Hclock; lia]. }
  unfold startAutoRefresh. rewrite tick_unfold.
  assert (Hr : tickRollover londonYMD (start_tick inp)
                 (st1, initial_sched londonYMD (start_clock inp))
               = (st1, initial_sched londonYMD (start_clock inp))).
  { unfold tickRollover. cbn [snd]. unfold initial_sched at 1. cbn [lastLondonDate].
    rewrite Hroll. unfold todayLondonISO. rewrite String.eqb_refl. reflexivity. }
  rewrite Hr. cbn [fst snd].
  rewrite (loadTodaysMatches_hit parseDate londonYMD (tick_load (start_tick inp)) st1
             Hl Hreuse).
  cbn [fst snd]. unfold tickAfterLoad.
  destruct (cachedMatches st1) as [|c cs] eqn:Ec; [congruence|].
  cbn [started_trace started_state started_sched]. rewrite Htr, Htrf, <- Hcm.
  split_and!.
  - simpl. reflexivity.
  - simpl. reflexivity.
  - reflexivity.
  - destruct (first_interval_live (start_clock inp) (tick_at_schedule (start_tick inp))
                (if hasLiveMatches (c :: cs)
                    || hasUpcomingSoon parseDate (tick_at_now (start_tick inp)) (c :: cs)
                 then 60000 else 300000)%Z (c :: cs)) as (h & Ha & Ht).
    { destruct (_ || _); auto. }
    eexists _, h. split; [reflexivity|]. split; [exact Ha | exact Ht].
Qed.

End FurtherProperties.

(** * Further instances *)

Ltac show_event := vm_compute; repeat first [left; reflexivity | right].

Lemma reconciliation_independent_witness :
  List.NoDup (map matchId sample_three)
  /\ fst (normalized "BL1" sample_three sample_known)
     = map (fun m => fst (normalizeMatch "BL1" m sample_known)) sample_three.
Proof.
  split; [exact sample_three_ids|].
  apply (reconciliation_independent "BL1" sample_three sample_known sample_three_ids).
Defined.


Lemma last_known_facts_round_trip_witness :
  let after := snd (normalized "BL1" sample_three initial_state) in
  let shown := fst (normalizeMatch "BL1" (sample_match 201 Null Null Undefined) after) in
  List.NoDup (map matchId sample_three)
  /\ goals_home shown = Goals 0
  /\ goals_away shown = Goals 0
  /\ fixture_status_short shown = SStr "LIVE".
Proof.
  cbv zeta.
  assert (Hin : In (sample_match 201 (Val 0%Z) (Val 0%Z) (Val "IN_PLAY")) sample_three)
    by (left; reflexivity).
  destruct (last_known_facts_round_trip "BL1" "BL1" sample_three
              (sample_match 201 (Val 0%Z) (Val 0%Z) (Val "IN_PLAY"))
              (sample_match 201 Null Null Undefined) initial_state
              sample_three_ids Hin eq_refl) as [H1 H2].
  destruct (H1 0%Z 0%Z eq_refl eq_refl eq_refl) as [A B].
  split_and!; [exact sample_three_ids | exact A | exact B |].
  rewrite H2; reflexivity.
Defined.

Lemma invalid_date_drops_league_witness :
  In sample_undated [sample_live; sample_undated]
  /\ sample_parseDate (m_utcDate sample_undated) = None
  /\ leagueIteration sample_parseDate sample_londonYMD
       (sample_load 1000 sample_respond_undated) "day 0" "day 1" ("PL", 2021%Z)
       (empty_batch, initial_state, [])
     = (empty_batch, initial_state, [EvFetch "PL" 2021 "day 0" "day 1"]).
Proof.
  assert (Hin : In sample_undated [sample_live; sample_undated])
    by (right; left; reflexivity).
  split_and!; [exact Hin | reflexivity |].
  apply (invalid_date_drops_league sample_parseDate sample_londonYMD
           (sample_load 1000 sample_respond_undated) "day 0" "day 1" "PL" 2021%Z 200%Z
           [sample_live; sample_undated] sample_undated empty_batch initial_state []
           eq_refl eq_refl Hin eq_refl).
Defined.

Lemma displayed_list_is_cache_witness :
  let r := loadTodaysMatches sample_parseDate sample_londonYMD
             (sample_load 1000 sample_respond) initial_state in
  let shown := map (fun m => fst (normalizeMatch "BL1" m initial_state)) sample_three in
  In (EvDisplay shown) (snd r) /\ shown = cachedMatches (fst r).
Proof.
  cbv zeta.
  assert (Hin : In (EvDisplay (map (fun m => fst (normalizeMatch "BL1" m initial_state))
                                 sample_three))
                  (snd (loadTodaysMatches sample_parseDate sample_londonYMD
                          (sample_load 1000 sample_respond) initial_state)))
    by show_event.
  split; [exact Hin|].
  apply (displayed_list_is_cache sample_parseDate sample_londonYMD _ _ _ Hin).
Defined.

Lemma second_call_served_from_cache_witness :
  let st1 := fst (loadTodaysMatches sample_parseDate sample_londonYMD
                    (sample_load 1000 sample_respond) initial_state) in
  (2000 - 1000 < CACHE_DURATION)%Z
  /\ List.filter is_fetch
       (snd (loadTodaysMatches sample_parseDate sample_londonYMD
               (sample_load 2000 sample_respond_nothing) st1)) = []
  /\ fst (loadTodaysMatches sample_parseDate sample_londonYMD
            (sample_load 2000 sample_respond_nothing) st1) = st1.
Proof.
  cbv zeta.
  assert (Hpos : (0 < totalMatches
                      (fst (fst (fetchBatch sample_parseDate sample_londonYMD
                                   (sample_load 1000 sample_respond)
                                   (todayLondonISO sample_londonYMD 1000)
                                   (tomorrowLondonISO sample_londonYMD 1000) leagues
                                   (with_isLoading true initial_state)))))%nat)
    by (vm_compute; lia).
  assert (Hclock : (2000 - 1000 < CACHE_DURATION)%Z) by reflexivity.
  pose proof (second_call_served_from_cache sample_parseDate sample_londonYMD
                (sample_load 1000 sample_respond)
                (sample_load 2000 sample_respond_nothing) initial_state
                eq_refl eq_refl Hpos eq_refl Hclock) as H.
  cbv zeta in H. split; [exact Hclock|]. rewrite H. split; reflexivity.
Defined.

Lemma empty_batch_not_cached_witness :
  let r := loadTodaysMatches sample_parseDate sample_londonYMD
             (sample_load 1000 sample_respond_nothing) sample_known in
  cachedMatches (fst r) = []
  /\ lastFetchTime (fst r) = 0%Z
  /\ In EvShowNoMatches (snd r)
  /\ List.filter is_fetch
       (snd (loadTodaysMatches sample_parseDate sample_londonYMD
               (sample_load 1001 sample_respond_nothing) (fst r)))
     = map (request_of "day 0" "day 1") leagues.
Proof.
  cbv zeta.
  destruct (empty_batch_not_cached sample_parseDate sample_londonYMD
              (sample_load 1000 sample_respond_nothing) sample_known
              eq_refl eq_refl eq_refl) as (H1 & H2 & H3 & H4).
  split_and!; [exact H1 | exact H2 | exact H3 |].
  exact (H4 (sample_load 1001 sample_respond_nothing)).
Defined.

Lemma stale_day_cache_not_shown_witness :
  let inp := sample_load 2000 sample_respond in
  let b := fst (fst (fetchBatch sample_parseDate sample_londonYMD inp "day 0" "day 1"
                       leagues (with_isLoading true sample_stale))) in
  cachedDate sample_stale <> "day 0"
  /\ In (EvDisplay (allMatches b))
        (snd (loadTodaysMatches sample_parseDate sample_londonYMD inp sample_stale))
  /\ (0 < totalMatches b)%nat.
Proof.
  cbv zeta.
  assert (Hday : cachedDate sample_stale <> "day 0") by discriminate.
  assert (Hin : In (EvDisplay
                      (allMatches
                         (fst (fst (fetchBatch sample_parseDate sample_londonYMD
                                      (sample_load 2000 sample_respond) "day 0" "day 1"
                                      leagues (with_isLoading true sample_stale))))))
                  (snd (loadTodaysMatches sample_parseDate sample_londonYMD
                          (sample_load 2000 sample_respond) sample_stale)))
    by show_event.
  split_and!; [exact Hday | exact Hin |].
  apply (stale_day_cache_not_shown sample_parseDate sample_londonYMD
           (sample_load 2000 sample_respond) sample_stale _ eq_refl Hday Hin).
Defined.

Lemma rate_limit_flag_unobservable_witness :
  sample_respond 2021%Z "day 0" "day 1" = Response 429 BodyThrows
  /\ sample_respond_503 2021%Z "day 0" "day 1" = Response 503 BodyThrows
  /\ loadTodaysMatches sample_parseDate sample_londonYMD
       (sample_load 1000 sample_respond_503) initial_state
     = loadTodaysMatches sample_parseDate sample_londonYMD
         (sample_load 1000 sample_respond) initial_state.
Proof.
  split_and!; [reflexivity | reflexivity |].
  apply (rate_limit_flag_unobservable sample_parseDate sample_londonYMD
           (sample_load 1000 sample_respond) (sample_load 1000 sample_respond_503)
           initial_state eq_refl eq_refl eq_refl).
  intros code dateFrom dateTo. simpl. unfold sample_respond_503, sample_respond.
  destruct (code =? 2021)%Z; [reflexivity|].
  destruct (code =? 2002)%Z; reflexivity.
Defined.

Lemma displayed_matches_well_formed_witness :
  Forall match_wf
    (cachedMatches (fst (loadTodaysMatches sample_parseDate sample_londonYMD
                           (sample_load 1000 sample_respond) initial_state))).
Proof.
  destruct (displayed_matches_well_formed sample_parseDate sample_londonYMD
              (sample_load 1000 sample_respond) initial_state) as [H _].
  - constructor.
  - exact H.
Defined.

Lemma displayed_statuses_canonical_witness :
  status_map_canonical initial_state
  /\ Forall (fun c => is_canonical (fixture_status_short c) = true)
       (cachedMatches (fst (loadTodaysMatches sample_parseDate sample_londonYMD
                              (sample_load 1000 sample_respond) initial_state))).
Proof.
  assert (Hc : status_map_canonical initial_state).
  { intros k v H. simpl in H. rewrite lookup_empty in H. discriminate. }
  split; [exact Hc|].
  destruct (displayed_statuses_canonical sample_parseDate sample_londonYMD
              (sample_load 1000 sample_respond) initial_state) as (_ & H & _).
  - intros code status raw m H Hin. simpl in H. unfold sample_respond in H.
    destruct (code =? 2021)%Z; [discriminate|].
    destruct (code =? 2002)%Z; injection H as _ <-.
    + repeat (destruct Hin as [<-|Hin]; [reflexivity|]). destruct Hin.
    + destruct Hin.
  - exact Hc.
  - constructor.
  - exact H.
Defined.

Lemma displayed_matches_of_today_witness :
  let st' := fst (loadTodaysMatches sample_parseDate sample_londonYMD
                    (sample_load 1000 sample_respond) initial_state) in
  cachedDate st' = "day 0"
  /\ Forall (fun c => dated sample_parseDate sample_londonYMD (cachedDate st')
                        (fixture_date c))
       (cachedMatches st').
Proof.
  cbv zeta. split; [vm_compute; reflexivity|].
  destruct (displayed_matches_of_today sample_parseDate sample_londonYMD
              (sample_load 1000 sample_respond) initial_state) as [H _].
  - constructor.
  - exact H.
Defined.

Lemma sample_sched_wf : sched_wf sample_sched.
Proof.
  unfold sched_wf. simpl. split_and!.
  - intros h t H.
    apply lookup_insert_Some in H as [[<- _]|[_ H]]; [lia|].
    apply lookup_singleton_Some in H as [<- _]. lia.
  - intros h [= <-]. lia.
  - intros h [= <-]. lia.
  - intros h [= <-]. discriminate.
  - intros h ms H.
    apply lookup_insert_Some in H as [[<- [= <-]]|[_ H]]; [auto|].
    apply lookup_singleton_Some in H as [_ [=]].
  - intros h ms H.
    apply lookup_insert_Some in H as [[_ [=]]|[_ H]].
    apply lookup_singleton_Some in H as [<- [= <-]]. split; [reflexivity | lia].
Qed.

Lemma sample_sched_live : interval_live sample_sched.
Proof. intros h [= <-]. reflexivity. Qed.

Lemma kickoff_one_shot_is_earliest_witness :
  sched_wf sample_sched
  /\ kickoff_soon sample_parseDate 0 sample_upcoming 5000
  /\ exists h d,
       timers (scheduleKickoffRefresh sample_parseDate 0 [sample_upcoming] sample_sched)
       !! h = Some (OneShot d).
Proof.
  assert (Hsoon : kickoff_soon sample_parseDate 0 sample_upcoming 5000).
  { unfold kickoff_soon. split_and!; [reflexivity | reflexivity | lia | lia]. }
  split; [exact sample_sched_wf|]. split; [exact Hsoon|].
  destruct (kickoff_one_shot_is_earliest sample_parseDate 0%Z [sample_upcoming]
              sample_sched sample_sched_wf) as (_ & H & _).
  apply H. exists sample_upcoming, 5000%Z. split; [left; reflexivity | exact Hsoon].
Defined.

Lemma refresh_interval_follows_urgency_witness :
  let r := tick sample_parseDate sample_londonYMD (sample_tick 2000 sample_respond)
             (sample_cached, sample_sched) in
  sched_wf sample_sched
  /\ interval_live sample_sched
  /\ exists h, autoRefreshInterval (snd (fst r)) = Some h
               /\ timers (snd (fst r)) !! h = Some (Recurring 60000).
Proof.
  cbv zeta. split; [exact sample_sched_wf|]. split; [exact sample_sched_live|].
  destruct (refresh_interval_follows_urgency sample_parseDate sample_londonYMD
              (sample_tick 2000 sample_respond) sample_cached sample_sched
              sample_sched_wf sample_sched_live) as (h & Ha & Ht & _).
  { vm_compute. discriminate. }
  exists h. split; [exact Ha|]. rewrite Ht. vm_compute. reflexivity.
Defined.

Lemma scheduler_timers_along_run_witness :
  let w0 := fst (startAutoRefresh sample_parseDate sample_londonYMD 1000
                   (sample_tick 1000 sample_respond) initial_state) in
  let w := fst (tick sample_parseDate sample_londonYMD
                  (sample_tick 61000 sample_respond) (fst w0, snd w0)) in
  timers (snd w0) !! 1%positive = Some (Recurring 60000)
  /\ (timers (snd w) = ∅ \/ exists h x, timers (snd w) !! h = Some (Recurring x)).
Proof.
  cbv zeta.
  assert (Hfire : timers (snd (fst (startAutoRefresh sample_parseDate sample_londonYMD
                                      1000 (sample_tick 1000 sample_respond)
                                      initial_state)))
                  !! 1%positive = Some (Recurring 60000))
    by (vm_compute; reflexivity).
  split; [exact Hfire|].
  apply (scheduler_timers_along_run sample_parseDate sample_londonYMD 1000%Z
           (sample_tick 1000 sample_respond) initial_state).
  apply rtc_once.
  rewrite (surjective_pairing
             (fst (startAutoRefresh sample_parseDate sample_londonYMD 1000
                     (sample_tick 1000 sample_respond) initial_state))) at 1.
  exact (fire_interval sample_parseDate sample_londonYMD _ _ 1%positive 60000%Z
           (sample_tick 61000 sample_respond) Hfire).
Defined.

Lemma tick_inside_cache_window_witness :
  let r := tick sample_parseDate sample_londonYMD (sample_tick 2000 sample_respond)
             (sample_cached, sample_sched) in
  fst (fst r) = sample_cached /\ List.filter is_fetch (snd r) = [].
Proof.
  cbv zeta.
  rewrite (tick_inside_cache_window sample_parseDate sample_londonYMD
             (sample_tick 2000 sample_respond) sample_cached sample_sched
             eq_refl eq_refl eq_refl).
  split; reflexivity.
Defined.


Lemma startup_fetches_once_witness :
  let r := initializeApp sample_parseDate sample_londonYMD sample_trim
             (sample_start sample_respond) initial_state in
  List.filter is_fetch (started_trace r) = map (request_of "day 0" "day 1") leagues
  /\ exists sc h, started_sched r = Some sc
                  /\ autoRefreshInterval sc = Some h
                  /\ timers sc !! h = Some (Recurring 60000).
Proof.
  cbv zeta.
  destruct (startup_fetches_once sample_parseDate sample_londonYMD sample_trim
              (sample_start sample_respond) initial_state (Val " key "))
    as (H1 & _ & _ & sc & h & Hs & Ha & Ht).
  - reflexivity.
  - discriminate.
  - reflexivity.
  - reflexivity.
  - vm_compute. lia.
  - reflexivity.
  - reflexivity.
  - reflexivity.
  - split; [exact H1|]. exists sc, h. split_and!; [exact Hs | exact Ha |].
    rewrite Ht. vm_compute. reflexivity.
Defined.
